(** * Slide-Voice-Maker: the slide-to-video assembly pipeline

    A shallow embedding of [src/processor.py]: the concat descriptor
    writer, the caption splitter and its timeline, the slide resolver,
    the duration resolver, the filter graph of the two renderers and the
    entry point [combine_audio_video]; then the voice presets, the
    pronunciation dictionary and the narration of one slide, the file
    name check and the resolution table of [src/server.py] and
    [src/main.py], and the TLS settings of [src/svm_tls.py].

    Conventions of the embedding.
    - A Python [str] is the list of its Unicode code points ([pystr]),
      so that [len], [strip] and the regular expressions of the source
      see the same characters as the interpreter does.
    - A Python [int] is a [Z].
    - A Python [float] is the rational it denotes ([Q]).  The times of
      the subtitle file are computed as the interpreter computes them,
      every operation rounded to the nearest double ([Double]); so is
      the quotient of the target height.  The quotient of two ints
      ([char_count / total_chars]) is kept by the splitter as the
      fraction of these two ints, of which the double is the rounded
      image.  Durations that are only compared and passed on are not
      rounded.  The floats [nan] and [inf] are outside the model.
    - What the interpreter or the operating system decides (the file
      system, the clock of a file, the external encoder, the Unicode
      tables) is a field of [Runtime] or [World]. *)

From Stdlib Require Import String Ascii DecimalString.
From Stdlib Require Import List ZArith NArith QArith Qround Qabs Qpower Bool Lia Lqa FunInd Sorted Permutation.
From Stdlib Require DecimalPos DecimalZ.
Import ListNotations.

Open Scope Z_scope.

(** ** Python strings *)

Module PyStr.

Definition pystr := list N.

Fixpoint lit (s : string) : pystr :=
  match s with
  | EmptyString => []
  | String a s' => N_of_ascii a :: lit s'
  end.

(** [str.isspace] on one code point: the characters [str.strip()]
    removes when it is called without an argument. *)
Definition is_space (c : N) : bool :=
  ((9 <=? c) && (c <=? 13) || (28 <=? c) && (c <=? 32)
   || (c =? 133) || (c =? 160) || (c =? 5760)
   || (8192 <=? c) && (c <=? 8202)
   || (c =? 8232) || (c =? 8233) || (c =? 8239) || (c =? 8287)
   || (c =? 12288))%N.

Fixpoint lstrip (s : pystr) : pystr :=
  match s with
  | [] => []
  | c :: s' => if is_space c then lstrip s' else s
  end.

Definition rstrip (s : pystr) : pystr := rev (lstrip (rev s)).

Definition strip (s : pystr) : pystr := rstrip (lstrip s).

(** Truth value of a string: [bool(s)]. *)
Definition truthy (s : pystr) : bool :=
  match s with [] => false | _ :: _ => true end.

(** [s.replace(old, new)] for a one-character [old]. *)
Definition replace_char (old : N) (new : pystr) (s : pystr) : pystr :=
  flat_map (fun c => if (c =? old)%N then new else [c]) s.

(** [sep.join(parts)]. *)
Fixpoint join (sep : pystr) (parts : list pystr) : pystr :=
  match parts with
  | [] => []
  | [p] => p
  | p :: rest => p ++ sep ++ join sep rest
  end.

Fixpoint startswith (p s : pystr) : bool :=
  match p, s with
  | [], _ => true
  | _ :: _, [] => false
  | a :: p', b :: s' => (a =? b)%N && startswith p' s'
  end.

(** [sub in s]. *)
Fixpoint contains (sub s : pystr) : bool :=
  startswith sub s ||
  match s with
  | [] => false
  | _ :: s' => contains sub s'
  end.

Definition endswith (p s : pystr) : bool := startswith (rev p) (rev s).

Fixpoint pystr_eqb (a b : pystr) : bool :=
  match a, b with
  | [], [] => true
  | x :: a', y :: b' => (x =? y)%N && pystr_eqb a' b'
  | _, _ => false
  end.

(** [len(s)] as a Python int. *)
Definition len (s : pystr) : Z := Z.of_nat (length s).

(** [str(n)] for an int. *)
Definition str_of_Z (n : Z) : pystr := lit (NilZero.string_of_int (Z.to_int n)).

(** [round(x)] on a float: to the nearest int, a tie to the even one. *)
Definition py_round (x : Q) : Z :=
  let f := Qfloor x in
  match (x - inject_Z f ?= 1 # 2)%Q with
  | Lt => f
  | Gt => f + 1
  | Eq => if Z.even f then f else f + 1
  end.

(** [n] written with at least [width] digits, zeros in front. *)
Definition zero_pad (width : nat) (s : pystr) : pystr :=
  repeat 48%N (width - length s) ++ s.

(** [f"{x:.{prec}f}"]: the sign, the integer part, and [prec] decimals
    of [x] rounded at the last of them. *)
Definition format_f (prec : nat) (x : Q) : pystr :=
  let scale := 10 ^ Z.of_nat prec in
  let n := py_round (Qabs x * inject_Z scale) in
  let body :=
    str_of_Z (n / scale)
    ++ match prec with
       | O => []
       | _ => lit "." ++ zero_pad prec (str_of_Z (n mod scale))
       end in
  match (x ?= 0)%Q with
  | Lt => lit "-" ++ body
  | _ => body
  end.

(** [a or b] on strings. *)
Definition str_or (a b : pystr) : pystr := if truthy a then a else b.

(** A Python [bytes] object: the list of its bytes, each below 256. *)
Definition bytes := list N.

Definition is_cont (b : N) : bool := ((128 <=? b) && (b <=? 191))%N.

(** [b.decode("utf-8")]: the code points of a well-formed UTF-8
    sequence, [None] for the [UnicodeDecodeError] on any other (a stray
    or missing continuation byte, an overlong form, a surrogate, a code
    point above U+10FFFF). *)
Fixpoint utf8_decode (b : bytes) : option pystr :=
  match b with
  | [] => Some []
  | b0 :: r0 =>
      if (b0 <? 128)%N then option_map (cons b0) (utf8_decode r0)
      else if ((194 <=? b0) && (b0 <=? 223))%N then
        match r0 with
        | b1 :: r1 =>
            if is_cont b1
            then option_map (cons ((b0 - 192) * 64 + (b1 - 128))%N) (utf8_decode r1)
            else None
        | _ => None
        end
      else if ((224 <=? b0) && (b0 <=? 239))%N then
        match r0 with
        | b1 :: b2 :: r2 =>
            if is_cont b1 && is_cont b2
               && (negb (b0 =? 224) || (160 <=? b1))%N
               && (negb (b0 =? 237) || (b1 <=? 159))%N
            then option_map
                   (cons ((b0 - 224) * 4096 + (b1 - 128) * 64 + (b2 - 128))%N)
                   (utf8_decode r2)
            else None
        | _ => None
        end
      else if ((240 <=? b0) && (b0 <=? 244))%N then
        match r0 with
        | b1 :: b2 :: b3 :: r3 =>
            if is_cont b1 && is_cont b2 && is_cont b3
               && (negb (b0 =? 240) || (144 <=? b1))%N
               && (negb (b0 =? 244) || (b1 <=? 143))%N
            then option_map
                   (cons ((b0 - 240) * 262144 + (b1 - 128) * 4096
                          + (b2 - 128) * 64 + (b3 - 128))%N)
                   (utf8_decode r3)
            else None
        | _ => None
        end
      else None
  end.

End PyStr.
Import PyStr.

(** ** Doubles

    The floats of the interpreter are IEEE 754 doubles.  A double that
    is finite is kept as the rational it is; an operation on floats is
    the exact operation on these rationals followed by the rounding to
    the nearest double, a tie going to the even significand.  Infinities
    and nan have no rational: a result beyond the largest double, which
    the interpreter turns into [inf], is outside this model, and so is
    the sign of a zero. *)

Module Double.

(** [2^e] for an exponent of either sign. *)
Definition pow2 (e : Z) : Q :=
  if 0 <=? e then inject_Z (2 ^ e) else 1 # Z.to_pos (2 ^ (- e)).

(** [floor(log2 |x|)] for a rational [x <> 0]. *)
Definition floor_log2 (x : Q) : Z :=
  let a := Z.abs (Qnum x) in
  let b := Z.pos (Qden x) in
  let k := Z.log2 a - Z.log2 b in
  let below := if 0 <=? k then a <? b * 2 ^ k else a * 2 ^ (- k) <? b in
  if below then k - 1 else k.

(** The exponent of the spacing of the doubles around [x]: 53 bits of
    significand, and no exponent below that of the subnormal doubles. *)
Definition exponent (x : Q) : Z := Z.max (floor_log2 x - 52) (-1074).

(** The spacing of the doubles around [x]. *)
Definition ulp (x : Q) : Q := pow2 (Z.max (floor_log2 x - 52) (-1074)).

(** The double nearest to [x], a tie to the even significand. *)
Definition nearest (x : Q) : Q :=
  if Qeq_bool x 0 then 0%Q
  else
    let r := (inject_Z (py_round (Qabs x / ulp x)) * ulp x)%Q in
    match Qnum x with Z.neg _ => (- r)%Q | _ => r end.

(** The four operations on floats: the exact result, rounded. *)
Definition fadd (x y : Q) : Q := nearest (x + y).
Definition fsub (x y : Q) : Q := nearest (x - y).
Definition fmul (x y : Q) : Q := nearest (x * y).
Definition fdiv (x y : Q) : Q := nearest (x / y).

(** A rational that is a double. *)
Definition is_double (x : Q) : Prop := nearest x == x.

(** [int(x)] on a float: towards zero. *)
Definition Qtrunc (x : Q) : Z := if Qle_bool 0 x then Qfloor x else Qceiling x.

(** C's [fmod]: the remainder of the truncated quotient; it has the
    sign of [x] and is exact. *)
Definition fmod (x y : Q) : Q := (x - y * inject_Z (Qtrunc (x / y)))%Q.

(** [x < 0] on a float. *)
Definition Qneg (x : Q) : bool := negb (Qle_bool 0 x).

(** [x % y] on floats, for [y <> 0]: [float_rem] of the interpreter.
    The remainder of [fmod] is moved to the sign of [y] by one rounded
    addition. *)
Definition float_rem (x y : Q) : Q :=
  let mod_ := fmod x y in
  if Qeq_bool mod_ 0 then 0%Q
  else if xorb (Qneg y) (Qneg mod_) then fadd mod_ y else mod_.

(** [x // y] on floats, for [y <> 0]: [float_floor_div] of the
    interpreter. *)
Definition float_floor_div (x y : Q) : Q :=
  let mod_ := fmod x y in
  let div := fdiv (fsub x mod_) y in
  let div :=
    if negb (Qeq_bool mod_ 0) && xorb (Qneg y) (Qneg mod_) then fsub div 1 else div in
  if Qeq_bool div 0 then 0%Q
  else
    let floordiv := inject_Z (Qfloor div) in
    if Qneg ((1 # 2) - fsub div floordiv) then fadd floordiv 1 else floordiv.

(** *** Rounding to an int *)

Lemma py_round_comp (x y : Q) : x == y -> py_round x = py_round y.
Proof.
  intro E. unfold py_round.
  assert (Ef : Qfloor x = Qfloor y) by (now rewrite E).
  rewrite Ef.
  assert (Ec : (x - inject_Z (Qfloor y) ?= 1 # 2)%Q = (y - inject_Z (Qfloor y) ?= 1 # 2)%Q)
    by (now rewrite E).
  now rewrite Ec.
Qed.

Lemma py_round_Z (n : Z) : py_round (inject_Z n) = n.
Proof.
  unfold py_round. rewrite Qfloor_Z.
  assert (E : (inject_Z n - inject_Z n ?= 1 # 2)%Q = Lt).
  { apply Qlt_alt. setoid_replace (inject_Z n - inject_Z n)%Q with 0%Q by ring.
    reflexivity. }
  now rewrite E.
Qed.

Lemma py_round_near (x : Q) :
  (inject_Z (py_round x) - (1 # 2) <= x /\ x <= inject_Z (py_round x) + (1 # 2))%Q.
Proof.
  unfold py_round.
  pose proof (Qfloor_le x) as Hlo. pose proof (Qlt_floor x) as Hhi.
  rewrite inject_Z_plus in Hhi. change (inject_Z 1) with 1%Q in Hhi.
  destruct (Qcompare_spec (x - inject_Z (Qfloor x)) (1 # 2)) as [E | E | E].
  - destruct (Z.even (Qfloor x)).
    + split; lra.
    + rewrite inject_Z_plus. change (inject_Z 1) with 1%Q. split; lra.
  - split; lra.
  - rewrite inject_Z_plus. change (inject_Z 1) with 1%Q. split; lra.
Qed.

(** *** Powers of two *)

Lemma pow2_Qpower (e : Z) : pow2 e == 2 ^ e.
Proof.
  unfold pow2. destruct (0 <=? e) eqn:E.
  - apply Z.leb_le in E. now rewrite Zpower_Qpower.
  - apply Z.leb_gt in E.
    replace e with (- (- e)) at 2 by lia. rewrite Qpower_opp.
    rewrite <- (Zpower_Qpower 2 (- e)) by lia.
    assert (H : 0 < 2 ^ (- e)) by (apply Z.pow_pos_nonneg; lia).
    destruct (2 ^ (- e)) as [|p|p] eqn:Ep; try lia.
    reflexivity.
Qed.

Lemma pow2_pos (e : Z) : (0 < pow2 e)%Q.
Proof. rewrite pow2_Qpower. now apply Qpower_0_lt. Qed.

Lemma pow2_le (a b : Z) : a <= b -> (pow2 a <= pow2 b)%Q.
Proof. intro H. rewrite !pow2_Qpower. now apply Qpower_le_compat_l. Qed.

Lemma pow2_lt (a b : Z) : a < b -> (pow2 a < pow2 b)%Q.
Proof. intro H. rewrite !pow2_Qpower. now apply Qpower_lt_compat_l. Qed.

Lemma pow2_plus (a b : Z) : pow2 (a + b) == pow2 a * pow2 b.
Proof. rewrite !pow2_Qpower. now apply Qpower_plus. Qed.

Lemma pow2_nat (n : Z) : 0 <= n -> pow2 n = inject_Z (2 ^ n).
Proof. intro H. unfold pow2. apply Z.leb_le in H. now rewrite H. Qed.

(** [pow2 b] is a whole multiple of [pow2 a] when [a <= b]. *)
Lemma pow2_multiple (a b : Z) : a <= b -> pow2 b == inject_Z (2 ^ (b - a)) * pow2 a.
Proof.
  intro H. rewrite <- pow2_nat by lia. rewrite <- pow2_plus.
  now replace (b - a + a) with b by lia.
Qed.

Lemma Qabs_frac (x : Q) : Qabs x == inject_Z (Z.abs (Qnum x)) / inject_Z (Z.pos (Qden x)).
Proof.
  destruct x as [n d]. unfold Qabs. cbn [Qnum Qden].
  rewrite (Qmake_Qdiv (Z.abs n) d). reflexivity.
Qed.

Lemma log2_bounds (a : Z) : 0 < a ->
  (2 ^ Z.log2 a <= inject_Z a /\ inject_Z a < 2 ^ (Z.log2 a + 1))%Q.
Proof.
  intro H. destruct (Z.log2_spec a H) as [H1 H2].
  pose proof (Z.log2_nonneg a) as Hn.
  rewrite <- !(Zpower_Qpower 2) by lia.
  rewrite <- Zle_Qle, <- Zlt_Qlt. replace (Z.log2 a + 1) with (Z.succ (Z.log2 a)) by lia.
  split; assumption.
Qed.

Lemma floor_log2_spec (x : Q) :
  ~ x == 0 ->
  (pow2 (floor_log2 x) <= Qabs x /\ Qabs x < pow2 (floor_log2 x + 1))%Q.
Proof.
  intro Hx.
  assert (Ha : 0 < Z.abs (Qnum x)).
  { destruct x as [n d]. unfold Qeq in Hx. cbn in *. lia. }
  set (a := Z.abs (Qnum x)) in *. set (b := Z.pos (Qden x)).
  assert (Hb : 0 < b) by (unfold b; lia).
  destruct (log2_bounds a Ha) as [A1 A2]. destruct (log2_bounds b Hb) as [B1 B2].
  assert (Hbq : (0 < inject_Z b)%Q) by (rewrite Zlt_Qlt in Hb; exact Hb).
  assert (Haq : (0 < inject_Z a)%Q) by (rewrite Zlt_Qlt in Ha; exact Ha).
  rewrite Qabs_frac. fold a b.
  set (k := Z.log2 a - Z.log2 b).
  (* the test of the definition *)
  assert (Htest : (if 0 <=? k then a <? b * 2 ^ k else a * 2 ^ (- k) <? b) = true
                  <-> (inject_Z a / inject_Z b < pow2 k)%Q).
  { unfold pow2. destruct (0 <=? k) eqn:Ek.
    - apply Z.leb_le in Ek. rewrite Z.ltb_lt. split; intro H.
      + apply Qlt_shift_div_r; [exact Hbq|]. rewrite <- inject_Z_mult, <- Zlt_Qlt. lia.
      + apply (Qmult_lt_compat_r _ _ (inject_Z b)) in H; [|exact Hbq].
        setoid_replace (inject_Z a / inject_Z b * inject_Z b)%Q with (inject_Z a) in H
          by (field; lra).
        rewrite <- inject_Z_mult, <- Zlt_Qlt in H. lia.
    - apply Z.leb_gt in Ek. rewrite Z.ltb_lt.
      assert (Hp : 0 < 2 ^ (- k)) by (apply Z.pow_pos_nonneg; lia).
      assert (Hq : 1 # Z.to_pos (2 ^ (- k)) == / inject_Z (2 ^ (- k))).
      { destruct (2 ^ (- k)) as [|p|p]; try lia. reflexivity. }
      rewrite Hq.
      assert (Hpq : (0 < inject_Z (2 ^ (- k)))%Q) by (rewrite Zlt_Qlt in Hp; exact Hp).
      split; intro H.
      + apply Qlt_shift_div_r; [exact Hbq|].
        apply (Qmult_lt_r _ _ (inject_Z (2 ^ (- k)))); [exact Hpq|].
        setoid_replace (/ inject_Z (2 ^ (- k)) * inject_Z b * inject_Z (2 ^ (- k)))%Q
          with (inject_Z b) by (field; lra).
        rewrite <- inject_Z_mult, <- Zlt_Qlt. exact H.
      + apply (Qmult_lt_compat_r _ _ (inject_Z b * inject_Z (2 ^ (- k)))) in H.
        2:{ apply Qmult_lt_0_compat; assumption. }
        setoid_replace (inject_Z a / inject_Z b * (inject_Z b * inject_Z (2 ^ (- k))))%Q
          with (inject_Z a * inject_Z (2 ^ (- k)))%Q in H by (field; lra).
        setoid_replace (/ inject_Z (2 ^ (- k)) * (inject_Z b * inject_Z (2 ^ (- k))))%Q
          with (inject_Z b) in H by (field; lra).
        rewrite <- inject_Z_mult, <- Zlt_Qlt in H. exact H. }
  (* the quotient lies between 2^(k-1) and 2^(k+1) *)
  assert (Hlo : (pow2 (k - 1) <= inject_Z a / inject_Z b)%Q).
  { apply Qle_shift_div_l; [exact Hbq|].
    apply Qle_trans with (pow2 (k - 1) * 2 ^ (Z.log2 b + 1))%Q.
    - apply Qmult_le_l; [apply pow2_pos | apply Qlt_le_weak, B2].
    - rewrite <- pow2_Qpower, <- pow2_plus.
      replace (k - 1 + (Z.log2 b + 1)) with (Z.log2 a) by (unfold k; lia).
      rewrite pow2_Qpower. exact A1. }
  assert (Hhi : (inject_Z a / inject_Z b < pow2 (k + 1))%Q).
  { apply Qlt_shift_div_r; [exact Hbq|].
    apply Qlt_le_trans with (2 ^ (Z.log2 a + 1))%Q; [exact A2|].
    apply Qle_trans with (pow2 (k + 1) * 2 ^ Z.log2 b)%Q.
    - rewrite <- pow2_Qpower, <- (pow2_Qpower (Z.log2 b)), <- pow2_plus.
      replace (k + 1 + Z.log2 b) with (Z.log2 a + 1) by (unfold k; lia). apply Qle_refl.
    - apply Qmult_le_l; [apply pow2_pos | exact B1]. }
  unfold floor_log2. fold a b k.
  destruct (Qlt_le_dec (inject_Z a / inject_Z b) (pow2 k)) as [Hlt | Hge].
  - pose proof Hlt as Et. apply Htest in Et. rewrite Et.
    replace (k - 1 + 1) with k by lia. split; assumption.
  - assert (Et : (if 0 <=? k then a <? b * 2 ^ k else a * 2 ^ (- k) <? b) = false).
    { apply not_true_is_false. intro H. apply Htest in H.
      exact (Qlt_not_le _ _ H Hge). }
    rewrite Et. split; assumption.
Qed.


Lemma floor_log2_unique (x : Q) (k : Z) :
  (pow2 k <= Qabs x)%Q -> (Qabs x < pow2 (k + 1))%Q -> floor_log2 x = k.
Proof.
  intros H1 H2.
  assert (Hx : ~ x == 0).
  { intro E. rewrite E in H1. pose proof (pow2_pos k). change (Qabs 0) with 0%Q in H1. lra. }
  destruct (floor_log2_spec x Hx) as [S1 S2].
  set (f := floor_log2 x) in *.
  destruct (Z.lt_trichotomy f k) as [L | [E | L]]; [|exact E|].
  - pose proof (pow2_le (f + 1) k ltac:(lia)). lra.
  - pose proof (pow2_le (k + 1) f ltac:(lia)). lra.
Qed.

Lemma floor_log2_comp (x y : Q) : x == y -> ~ x == 0 -> floor_log2 x = floor_log2 y.
Proof.
  intros E Hx. symmetry. destruct (floor_log2_spec x Hx) as [S1 S2].
  apply floor_log2_unique; rewrite <- E; assumption.
Qed.

Lemma ulp_pos (x : Q) : (0 < ulp x)%Q.
Proof. apply pow2_pos. Qed.

Lemma ulp_comp (x y : Q) : x == y -> ~ x == 0 -> ulp x = ulp y.
Proof. intros E Hx. unfold ulp. now rewrite (floor_log2_comp x y E Hx). Qed.

Lemma ulp_opp (x : Q) : ulp (- x) = ulp x.
Proof. destruct x as [[|p|p] d]; reflexivity. Qed.

Lemma py_round_le (x y : Q) : (x <= y)%Q -> py_round x <= py_round y.
Proof.
  intro H.
  destruct (Z_le_gt_dec (py_round x) (py_round y)) as [L | G]; [exact L|].
  exfalso.
  destruct (py_round_near x) as [X1 X2]. destruct (py_round_near y) as [Y1 Y2].
  assert (G' : (inject_Z (py_round y) + 1 <= inject_Z (py_round x))%Q).
  { change 1%Q with (inject_Z 1). rewrite <- inject_Z_plus, <- Zle_Qle. lia. }
  assert (E : x == y) by lra.
  rewrite (py_round_comp x y E) in G. lia.
Qed.

Lemma py_round_nonneg (x : Q) : (0 <= x)%Q -> 0 <= py_round x.
Proof. intro H. change 0 with (py_round (inject_Z 0)). now apply py_round_le. Qed.

(** *** The nearest double *)

Lemma nearest_zero (x : Q) : x == 0 -> nearest x = 0%Q.
Proof. intro E. unfold nearest. apply Qeq_eq_bool in E. now rewrite E. Qed.

Lemma nearest_positive (x : Q) :
  (0 < x)%Q -> nearest x = (inject_Z (py_round (x / ulp x)) * ulp x)%Q.
Proof.
  intro H. destruct x as [[|p|p] d]; try (exfalso; revert H; compute; congruence).
  reflexivity.
Qed.

Lemma nearest_opp (x : Q) : nearest (- x) == - nearest x.
Proof.
  destruct x as [[|p|p] d]; [reflexivity | reflexivity |].
  change (- (Z.neg p # d))%Q with (Z.pos p # d).
  unfold nearest. cbn [Qnum]. 
  change (Qeq_bool (Z.neg p # d) 0) with false.
  change (Qeq_bool (Z.pos p # d) 0) with false. cbv iota zeta.
  change (ulp (Z.neg p # d)) with (ulp (Z.pos p # d)).
  change (Qabs (Z.neg p # d)) with (Z.pos p # d).
  change (Qabs (Z.pos p # d)) with (Z.pos p # d).
  now rewrite Qopp_involutive.
Qed.

Lemma nearest_nonneg (x : Q) : (0 <= x)%Q -> (0 <= nearest x)%Q.
Proof.
  intro H. destruct (Qeq_dec x 0) as [E | N].
  - rewrite (nearest_zero x E). apply Qle_refl.
  - assert (Hp : (0 < x)%Q) by (apply Qle_lt_or_eq in H; destruct H as [H | H];
      [exact H | exfalso; apply N; now symmetry]).
    rewrite (nearest_positive x Hp).
    apply Qmult_le_0_compat; [|apply Qlt_le_weak, ulp_pos].
    change 0%Q with (inject_Z 0). rewrite <- Zle_Qle. apply py_round_nonneg.
    apply Qle_shift_div_l; [apply ulp_pos|]. lra.
Qed.

Lemma nearest_comp_positive (x y : Q) : (0 < x)%Q -> x == y -> nearest x == nearest y.
Proof.
  intros Hx E.
  assert (Hy : (0 < y)%Q) by (now rewrite <- E).
  assert (N : ~ x == 0) by lra.
  rewrite (nearest_positive x Hx), (nearest_positive y Hy).
  rewrite <- (ulp_comp x y E N).
  assert (E' : x / ulp x == y / ulp x) by (generalize (ulp x); intro u; now rewrite E).
  now rewrite (py_round_comp _ _ E').
Qed.

Lemma nearest_comp (x y : Q) : x == y -> nearest x == nearest y.
Proof.
  intro E. destruct (Q_dec x 0) as [[Hn | Hp] | H0].
  - assert (E' : - x == - y) by (now rewrite E).
    pose proof (nearest_comp_positive (- x) (- y) ltac:(lra) E') as H.
    rewrite !nearest_opp in H. lra.
  - now apply nearest_comp_positive.
  - assert (H1 : y == 0) by (transitivity x; [now symmetry | exact H0]).
    rewrite (nearest_zero x H0), (nearest_zero y H1). reflexivity.
Qed.

#[global] Instance nearest_proper : Proper (Qeq ==> Qeq) nearest.
Proof. intros x y E. now apply nearest_comp. Qed.


Lemma ulp_exponent (x : Q) : ulp x = pow2 (exponent x).
Proof. reflexivity. Qed.

Lemma Qabs_positive (x : Q) : (0 < x)%Q -> Qabs x == x.
Proof. intro H. apply Qabs_pos. now apply Qlt_le_weak. Qed.

Lemma floor_log2_positive (x : Q) :
  (0 < x)%Q -> (pow2 (floor_log2 x) <= x /\ x < pow2 (floor_log2 x + 1))%Q.
Proof.
  intro H. assert (N : ~ x == 0) by lra.
  pose proof (floor_log2_spec x N) as S. now rewrite (Qabs_positive x H) in S.
Qed.

Lemma floor_log2_le (x y : Q) : (0 < x)%Q -> (x <= y)%Q -> floor_log2 x <= floor_log2 y.
Proof.
  intros Hx Hxy. assert (Hy : (0 < y)%Q) by lra.
  destruct (floor_log2_positive x Hx) as [X1 X2].
  destruct (floor_log2_positive y Hy) as [Y1 Y2].
  destruct (Z_le_gt_dec (floor_log2 x) (floor_log2 y)) as [L | G]; [exact L|].
  pose proof (pow2_le (floor_log2 y + 1) (floor_log2 x) ltac:(lia)). lra.
Qed.

Lemma py_round_half : py_round (1 # 2) = 0.
Proof. reflexivity. Qed.

(** The significand of the nearest double: at most 2^53. *)
Lemma significand_bounds (x : Q) :
  (0 < x)%Q ->
  let m := py_round (x / ulp x) in
  0 <= m <= 2 ^ 53 /\
  (inject_Z m * ulp x <= pow2 (floor_log2 x + 1))%Q.
Proof.
  intros Hx m.
  destruct (floor_log2_positive x Hx) as [X1 X2].
  pose proof (ulp_pos x) as Hu.
  assert (Hm0 : 0 <= m).
  { apply py_round_nonneg. apply Qle_shift_div_l; [exact Hu | lra]. }
  set (k := floor_log2 x) in *. rewrite ulp_exponent in *. unfold exponent in *. fold k in m, Hu |- *.
  set (e := Z.max (k - 52) (-1074)) in *.
  destruct (Z_le_gt_dec e (k + 1)) as [L | G].
  - pose proof (pow2_multiple e (k + 1) L) as Hmul.
    assert (Hlt : (x / pow2 e <= inject_Z (2 ^ (k + 1 - e)))%Q).
    { apply Qle_shift_div_r; [exact Hu|]. rewrite <- Hmul. now apply Qlt_le_weak. }
    assert (Hm : m <= 2 ^ (k + 1 - e)).
    { rewrite <- (py_round_Z (2 ^ (k + 1 - e))). now apply py_round_le. }
    assert (Hp : 2 ^ (k + 1 - e) <= 2 ^ 53) by (apply Z.pow_le_mono_r; lia).
    split; [lia|]. rewrite Hmul.
    apply Qmult_le_compat_r; [|now apply Qlt_le_weak].
    now rewrite <- Zle_Qle.
  - assert (Hhalf : (x / pow2 e <= 1 # 2)%Q).
    { apply Qle_shift_div_r; [exact Hu|].
      pose proof (pow2_le (k + 1) (e - 1) ltac:(lia)) as H1.
      pose proof (pow2_plus (e - 1) 1) as H2. replace (e - 1 + 1) with e in H2 by lia.
      change (pow2 1) with 2%Q in H2. lra. }
    assert (Hm : m <= 0).
    { rewrite <- py_round_half. now apply py_round_le. }
    assert (E : m = 0) by lia. rewrite E.
    split; [split; [lia | now apply Z.pow_nonneg]|].
    pose proof (pow2_pos (k + 1)). change (inject_Z 0) with 0%Q. lra.
Qed.

Lemma nearest_upper (x : Q) :
  (0 < x)%Q -> (nearest x <= pow2 (floor_log2 x + 1))%Q.
Proof.
  intro Hx. rewrite (nearest_positive x Hx). apply (significand_bounds x Hx).
Qed.

Lemma nearest_lower (x : Q) :
  (0 < x)%Q -> -1074 <= floor_log2 x - 52 -> (pow2 (floor_log2 x) <= nearest x)%Q.
Proof.
  intros Hx Hn. rewrite (nearest_positive x Hx).
  destruct (floor_log2_positive x Hx) as [X1 _].
  pose proof (ulp_pos x) as Hu.
  rewrite ulp_exponent in *. unfold exponent in *.
  set (k := floor_log2 x) in *.
  replace (Z.max (k - 52) (-1074)) with (k - 52) in * by lia.
  pose proof (pow2_multiple (k - 52) k ltac:(lia)) as Hmul.
  replace (k - (k - 52)) with 52 in Hmul by lia.
  rewrite Hmul. apply Qmult_le_compat_r; [|now apply Qlt_le_weak].
  rewrite <- Zle_Qle. rewrite <- (py_round_Z (2 ^ 52)). apply py_round_le.
  apply Qle_shift_div_l; [exact Hu|]. rewrite <- Hmul. exact X1.
Qed.

Lemma nearest_le_positive (x y : Q) :
  (0 < x)%Q -> (x <= y)%Q -> (nearest x <= nearest y)%Q.
Proof.
  intros Hx Hxy. assert (Hy : (0 < y)%Q) by lra.
  pose proof (floor_log2_le x y Hx Hxy) as Hk.
  destruct (Z.eq_dec (exponent x) (exponent y)) as [E | N].
  - rewrite (nearest_positive x Hx), (nearest_positive y Hy).
    rewrite !ulp_exponent, E. pose proof (pow2_pos (exponent y)) as Hu.
    apply Qmult_le_compat_r; [|now apply Qlt_le_weak].
    rewrite <- Zle_Qle. apply py_round_le.
    apply Qle_shift_div_l; [exact Hu|].
    setoid_replace (x / pow2 (exponent y) * pow2 (exponent y))%Q with x by (field; lra).
    exact Hxy.
  - unfold exponent in N.
    apply Qle_trans with (pow2 (floor_log2 x + 1)); [now apply nearest_upper|].
    apply Qle_trans with (pow2 (floor_log2 y)); [apply pow2_le; lia|].
    apply nearest_lower; [exact Hy | lia].
Qed.

(** Rounding keeps the order. *)
Lemma nearest_le (x y : Q) : (x <= y)%Q -> (nearest x <= nearest y)%Q.
Proof.
  intro H. destruct (Q_dec x 0) as [[Hn | Hp] | H0].
  - destruct (Qlt_le_dec y 0) as [Yn | Yp].
    + pose proof (nearest_le_positive (- y) (- x) ltac:(lra) ltac:(lra)) as L.
      rewrite !nearest_opp in L. lra.
    + pose proof (nearest_nonneg y Yp).
      pose proof (nearest_nonneg (- x) ltac:(lra)) as L. rewrite nearest_opp in L. lra.
  - now apply nearest_le_positive.
  - rewrite (nearest_zero x H0). apply nearest_nonneg. lra.
Qed.

(** A value [m * 2^e] with at most 53 bits in [m] is a double. *)
Lemma nearest_exact_positive (m e : Z) :
  0 < m <= 2 ^ 53 -> -1074 <= e ->
  nearest (inject_Z m * pow2 e) == inject_Z m * pow2 e.
Proof.
  intros [Hm0 Hm] He.
  set (y := (inject_Z m * pow2 e)%Q).
  pose proof (pow2_pos e) as Hpe.
  assert (Hmq : (0 < inject_Z m)%Q) by (change 0%Q with (inject_Z 0); now rewrite <- Zlt_Qlt).
  assert (Hy : (0 < y)%Q) by (unfold y; now apply Qmult_lt_0_compat).
  destruct (floor_log2_positive y Hy) as [Y1 Y2].
  assert (Hup : (y <= pow2 (e + 53))%Q).
  { rewrite (pow2_multiple e (e + 53)) by lia. replace (e + 53 - e) with 53 by lia.
    unfold y. apply Qmult_le_compat_r; [|now apply Qlt_le_weak]. now rewrite <- Zle_Qle. }
  assert (Hk : floor_log2 y <= e + 53).
  { destruct (Z_le_gt_dec (floor_log2 y) (e + 53)) as [L | G]; [exact L|].
    pose proof (pow2_lt (e + 53) (floor_log2 y) ltac:(lia)). lra. }
  rewrite (nearest_positive y Hy). rewrite ulp_exponent.
  assert (Hey : exponent y = Z.max (floor_log2 y - 52) (-1074)) by reflexivity.
  set (ey := exponent y) in *.
  pose proof (pow2_pos ey) as Hu.
  assert (Ey : y == inject_Z m * pow2 e) by reflexivity.
  clearbody y.
  destruct (Z_le_gt_dec ey e) as [L | G].
  - pose proof (pow2_multiple ey e L) as Hmul.
    assert (Hq : y / pow2 ey == inject_Z (m * 2 ^ (e - ey))).
    { rewrite Ey, Hmul, inject_Z_mult. field. lra. }
    rewrite (py_round_comp _ _ Hq), py_round_Z.
    rewrite Ey, Hmul, inject_Z_mult. ring.
  - assert (Ek : floor_log2 y = e + 53) by lia.
    assert (Ee : ey = e + 1) by lia. rewrite Ee in *.
    rewrite Ek in Y1.
    assert (Em : y == pow2 (e + 53)) by lra.
    pose proof (pow2_multiple (e + 1) (e + 53) ltac:(lia)) as Hmul.
    replace (e + 53 - (e + 1)) with 52 in Hmul by lia.
    assert (Hq : y / pow2 (e + 1) == inject_Z (2 ^ 52)).
    { rewrite Em, Hmul. field. lra. }
    rewrite (py_round_comp _ _ Hq), py_round_Z. rewrite Em, Hmul. reflexivity.
Qed.

Lemma nearest_exact (m e : Z) :
  Z.abs m <= 2 ^ 53 -> -1074 <= e ->
  nearest (inject_Z m * pow2 e) == inject_Z m * pow2 e.
Proof.
  intros Hm He. destruct (Z.lt_trichotomy m 0) as [Hn | [E | Hp]].
  - assert (Eo : inject_Z m * pow2 e == - (inject_Z (- m) * pow2 e)).
    { rewrite inject_Z_opp. ring. }
    rewrite Eo, nearest_opp.
    rewrite (nearest_exact_positive (- m) e); [reflexivity | lia | exact He].
  - subst m. rewrite nearest_zero; [|ring]. ring.
  - apply nearest_exact_positive; [lia | exact He].
Qed.

Lemma nearest_is_double (x : Q) : is_double (nearest x).
Proof.
  unfold is_double. destruct (Q_dec x 0) as [[Hn | Hp] | H0].
  - assert (Hp : (0 < - x)%Q) by lra.
    assert (E : nearest x == - nearest (- x)) by (rewrite nearest_opp; ring).
    rewrite E, nearest_opp, (nearest_positive (- x) Hp).
    pose proof (significand_bounds (- x) Hp) as B. cbv zeta in B.
    destruct B as [[M0 M1] _].
    rewrite ulp_exponent in *. rewrite nearest_exact; [reflexivity | lia | unfold exponent; lia].
  - rewrite (nearest_positive x Hp).
    pose proof (significand_bounds x Hp) as B. cbv zeta in B.
    destruct B as [[M0 M1] _].
    rewrite ulp_exponent in *. apply nearest_exact; [lia | unfold exponent; lia].
  - rewrite (nearest_zero x H0). reflexivity.
Qed.

Lemma is_double_int (n : Z) : Z.abs n <= 2 ^ 53 -> is_double (inject_Z n).
Proof.
  intro H. unfold is_double.
  assert (E : inject_Z n == inject_Z n * pow2 0) by (change (pow2 0) with 1%Q; ring).
  rewrite E at 1. rewrite nearest_exact; [now symmetry | exact H | lia].
Qed.

(** The error of rounding: half a unit in the last place. *)
Lemma nearest_error (x : Q) : (Qabs (nearest x - x) <= ulp x / 2)%Q.
Proof.
  assert (P : forall y, (0 < y)%Q -> (Qabs (nearest y - y) <= ulp y / 2)%Q).
  { intros y Hy. rewrite (nearest_positive y Hy). pose proof (ulp_pos y) as Hu.
    destruct (py_round_near (y / ulp y)) as [N1 N2].
    set (m := inject_Z (py_round (y / ulp y))) in *.
    assert (Ey : y == y / ulp y * ulp y) by (field; lra).
    apply Qabs_Qle_condition. split.
    - apply (Qmult_le_compat_r _ _ (ulp y)) in N2; [|lra]. rewrite <- Ey in N2.
      clear Ey N1. clearbody m. set (u := ulp y) in *. clearbody u.
      setoid_replace ((m + (1 # 2)) * u)%Q with (m * u + u / 2)%Q in N2 by field. lra.
    - apply (Qmult_le_compat_r _ _ (ulp y)) in N1; [|lra]. rewrite <- Ey in N1.
      clear Ey N2. clearbody m. set (u := ulp y) in *. clearbody u.
      setoid_replace ((m - (1 # 2)) * u)%Q with (m * u - u / 2)%Q in N1 by field. lra. }
  destruct (Q_dec x 0) as [[Hn | Hp] | H0].
  - specialize (P (- x)%Q ltac:(lra)). rewrite nearest_opp, ulp_opp in P.
    setoid_replace (nearest x - x)%Q with (- (- nearest x - - x))%Q by ring.
    now rewrite Qabs_opp.
  - now apply P.
  - rewrite (nearest_zero x H0). pose proof (ulp_pos x).
    setoid_replace (0 - x)%Q with 0%Q by lra. change (Qabs 0) with 0%Q.
    apply Qlt_le_weak. apply Qlt_shift_div_l; [reflexivity|]. lra.
Qed.

Lemma nearest_abs_upper (x : Q) :
  ~ x == 0 -> (Qabs (nearest x) <= pow2 (floor_log2 x + 1))%Q.
Proof.
  intro N. destruct (Q_dec x 0) as [[Hn | Hp] | H0]; [| |contradiction].
  - assert (Hp : (0 < - x)%Q) by lra.
    pose proof (nearest_upper (- x) Hp) as H. rewrite nearest_opp in H.
    pose proof (nearest_nonneg (- x) ltac:(lra)) as H1. rewrite nearest_opp in H1.
    assert (Ef : floor_log2 (- x) = floor_log2 x) by (destruct x as [[|p|p] d]; reflexivity).
    rewrite Ef in H. rewrite Qabs_neg by lra. exact H.
  - pose proof (nearest_upper x Hp) as H. pose proof (nearest_nonneg x ltac:(lra)).
    rewrite Qabs_pos by assumption. exact H.
Qed.

(** The relative error of a double that is not subnormal. *)
Lemma nearest_relative_error (x : Q) :
  (pow2 (-1022) <= Qabs x)%Q ->
  (Qabs (nearest x - x) <= Qabs x * pow2 (-53))%Q.
Proof.
  intro Hx. pose proof (pow2_pos (-1022)) as Hp.
  assert (N : ~ x == 0).
  { intro E. rewrite E in Hx. change (Qabs 0) with 0%Q in Hx. lra. }
  destruct (floor_log2_spec x N) as [S1 S2].
  assert (Hk : -1022 <= floor_log2 x).
  { destruct (Z_le_gt_dec (-1022) (floor_log2 x)) as [L | G]; [exact L|].
    pose proof (pow2_le (floor_log2 x + 1) (-1022) ltac:(lia)). lra. }
  pose proof (nearest_error x) as He.
  assert (Eu : ulp x / 2 == pow2 (floor_log2 x) * pow2 (-53)).
  { unfold ulp. replace (Z.max (floor_log2 x - 52) (-1074)) with (floor_log2 x + -52) by lia.
    rewrite pow2_plus. unfold Qdiv. rewrite <- Qmult_assoc.
    apply Qmult_comp; [reflexivity|]. vm_compute. reflexivity. }
  rewrite Eu in He.
  eapply Qle_trans; [exact He|].
  apply Qmult_le_compat_r; [exact S1 | apply Qlt_le_weak, pow2_pos].
Qed.

(** *** Truncation *)

Lemma Qtrunc_nonneg (x : Q) : (0 <= x)%Q -> Qtrunc x = Qfloor x.
Proof. intro H. unfold Qtrunc. apply Qle_bool_iff in H. now rewrite H. Qed.

Lemma Qtrunc_Z (n : Z) : Qtrunc (inject_Z n) = n.
Proof.
  unfold Qtrunc. destruct (Qle_bool 0 (inject_Z n)); [apply Qfloor_Z | apply Qceiling_Z].
Qed.

Lemma Qtrunc_comp (x y : Q) : x == y -> Qtrunc x = Qtrunc y.
Proof.
  intro E. unfold Qtrunc.
  rewrite (Qfloor_comp x y E), (Qceiling_comp x y E), (Qleb_comp 0%Q 0%Q (Qeq_refl 0%Q) x y E).
  reflexivity.
Qed.

Lemma Qneg_nonneg (x : Q) : (0 <= x)%Q -> Qneg x = false.
Proof. intro H. unfold Qneg. apply Qle_bool_iff in H. now rewrite H. Qed.

End Double.
Import Double.

(** ** Caption segments ([_get_subtitle_segments]) *)

Module Subtitle.

(** The character class of the source: ideographic full stop and comma,
    fullwidth and ASCII exclamation and question marks, line feed. *)
Definition is_punct (c : N) : bool :=
  ((c =? 12290) || (c =? 12289) || (c =? 65281) || (c =? 65311)
   || (c =? 33) || (c =? 63) || (c =? 10))%N.

(** [re.split] with the capturing pattern: the text between two runs of
    punctuation and the runs themselves, alternating, text first and
    text last (either may be empty).  [acc] is the piece being read,
    reversed; [in_run] tells whether it is a run of punctuation. *)
Fixpoint re_split_go (s : pystr) (acc : pystr) (in_run : bool) : list pystr :=
  match s with
  | [] => if in_run then [rev acc; []] else [rev acc]
  | c :: s' =>
      if is_punct c
      then if in_run then re_split_go s' (c :: acc) true
           else rev acc :: re_split_go s' [c] true
      else if in_run then rev acc :: re_split_go s' [c] false
           else re_split_go s' (c :: acc) false
  end.

Definition re_split (s : pystr) : list pystr := re_split_go s [] false.

(** [re.match(r'^[...]+$', s)]: every piece handed to it is made of
    punctuation only or holds none. *)
Definition is_punct_run (s : pystr) : bool :=
  truthy s && forallb is_punct s.

(** The [while] loop that glues a run of punctuation to the text before
    it. *)
Function merge_segments (raw : list pystr) : list pystr :=
  match raw with
  | [] => []
  | text :: rest =>
      match rest with
      | p :: rest' =>
          if is_punct_run p then (text ++ p) :: merge_segments rest'
          else text :: merge_segments rest
      | [] => [text]
      end
  end.

Record Segment := mkSegment {
  text : pystr;
  start_ratio : Q;
  end_ratio : Q
}.

(** [a / b] on two ints with [b > 0]: the exact quotient. *)
Definition truediv (a b : Z) : Q := a # Z.to_pos b.

Fixpoint ratios (total_chars char_count : Z) (merged : list pystr) : list Segment :=
  match merged with
  | [] => []
  | t :: rest =>
      let start := truediv char_count total_chars in
      let char_count' := (char_count + len t)%Z in
      mkSegment t start (truediv char_count' total_chars)
        :: ratios total_chars char_count' rest
  end.

Definition total_len (l : list pystr) : Z :=
  fold_right (fun s n => (len s + n)%Z) 0%Z l.

Definition _get_subtitle_segments (script : pystr) : list Segment :=
  if negb (truthy script) then []
  else
    let raw_segments := re_split script in
    let raw_segments := filter (fun s => truthy (strip s)) raw_segments in
    let merged_segments := merge_segments raw_segments in
    if negb (match merged_segments with [] => false | _ => true end) then []
    else
      let total_chars := total_len merged_segments in
      if (total_chars =? 0)%Z then []
      else ratios total_chars 0 merged_segments.

(** *** Facts about the splitter *)

Definition blank (s : pystr) : bool := forallb is_space s.

Lemma forallb_rev (A : Type) (f : A -> bool) (l : list A) :
  forallb f (rev l) = forallb f l.
Proof.
  induction l as [|a l IH]; simpl; [reflexivity|].
  rewrite forallb_app, IH. simpl. rewrite andb_true_r. apply andb_comm.
Qed.

Lemma lstrip_blank (s : pystr) : blank (lstrip s) = blank s.
Proof.
  induction s as [|c s IH]; simpl; [reflexivity|].
  destruct (is_space c) eqn:E; simpl; [exact IH | now rewrite E].
Qed.

Lemma lstrip_truthy (s : pystr) : truthy (lstrip s) = negb (blank s).
Proof.
  induction s as [|c s IH]; simpl; [reflexivity|].
  destruct (is_space c); simpl; [exact IH | reflexivity].
Qed.

Lemma truthy_rev (s : pystr) : truthy (rev s) = truthy s.
Proof.
  destruct s as [|c s]; simpl; [reflexivity|].
  destruct (rev s); reflexivity.
Qed.

Lemma strip_truthy (s : pystr) : truthy (strip s) = negb (blank s).
Proof.
  unfold strip, rstrip. rewrite truthy_rev, lstrip_truthy.
  unfold blank at 1. rewrite forallb_rev. fold (blank (lstrip s)).
  now rewrite lstrip_blank.
Qed.

Lemma truthy_nil (s : pystr) : truthy s = false <-> s = [].
Proof. destruct s; simpl; split; congruence. Qed.

Lemma blank_concat (l : list pystr) : blank (concat l) = forallb blank l.
Proof.
  induction l as [|p l IH]; simpl; [reflexivity|].
  unfold blank at 1. rewrite forallb_app. fold (blank p) (blank (concat l)).
  now rewrite IH.
Qed.

Lemma re_split_go_concat (s acc : pystr) (in_run : bool) :
  concat (re_split_go s acc in_run) = rev acc ++ s.
Proof.
  revert acc in_run.
  induction s as [|c s IH]; intros acc in_run; simpl.
  - destruct in_run; simpl; now rewrite ?app_nil_r.
  - destruct (is_punct c), in_run; simpl; rewrite IH; simpl;
      now rewrite <- ?app_assoc.
Qed.

Lemma re_split_concat (s : pystr) : concat (re_split s) = s.
Proof. unfold re_split. now rewrite re_split_go_concat. Qed.

Lemma filter_nil_forallb (A : Type) (f : A -> bool) (l : list A) :
  filter f l = [] <-> forallb (fun x => negb (f x)) l = true.
Proof.
  induction l as [|a l IH]; simpl; [tauto|].
  destruct (f a); simpl; [split; discriminate | exact IH].
Qed.

Lemma merge_segments_nil (raw : list pystr) :
  merge_segments raw = [] <-> raw = [].
Proof.
  functional induction (merge_segments raw); split; congruence.
Qed.

Lemma blank_app (a b : pystr) : blank (a ++ b) = blank a && blank b.
Proof. unfold blank. apply forallb_app. Qed.

Lemma merge_segments_nonblank (raw : list pystr) :
  Forall (fun s => blank s = false) raw ->
  Forall (fun s => blank s = false) (merge_segments raw).
Proof.
  functional induction (merge_segments raw); intro H.
  - constructor.
  - inversion H as [|? ? Ht Hr]; subst. inversion Hr; subst.
    constructor; [|auto]. now rewrite blank_app, Ht.
  - inversion H; subst. constructor; auto.
  - exact H.
Qed.

(** *** Facts about the ratios *)

(** Each segment starts where the one before it ends. *)
Inductive Contiguous : list Segment -> Prop :=
  | Contiguous_nil : Contiguous []
  | Contiguous_one s : Contiguous [s]
  | Contiguous_cons a b rest :
      start_ratio b = end_ratio a ->
      Contiguous (b :: rest) -> Contiguous (a :: b :: rest).

Lemma len_nonneg (s : pystr) : 0 <= len s.
Proof. unfold len. lia. Qed.

Lemma total_len_nonneg (l : list pystr) : 0 <= total_len l.
Proof.
  induction l as [|s l IH]; simpl; [lia|]. pose proof (len_nonneg s). lia.
Qed.

Lemma blank_false_len (s : pystr) : blank s = false -> 1 <= len s.
Proof. destruct s; simpl; [discriminate|]. unfold len. simpl length. lia. Qed.

Lemma total_len_pos (l : list pystr) :
  l <> [] -> Forall (fun s => blank s = false) l -> 1 <= total_len l.
Proof.
  destruct l as [|s l]; [congruence|]. intros _ H. inversion H; subst.
  simpl. pose proof (blank_false_len s H2). pose proof (total_len_nonneg l). lia.
Qed.

Lemma ratios_text (total_chars char_count : Z) (merged : list pystr) :
  map text (ratios total_chars char_count merged) = merged.
Proof.
  revert char_count. induction merged as [|t l IH]; intro cc; simpl;
    [reflexivity | now rewrite IH].
Qed.

Lemma ratios_head_start (total_chars char_count : Z) (merged : list pystr) :
  match ratios total_chars char_count merged with
  | [] => True
  | s :: _ => start_ratio s = truediv char_count total_chars
  end.
Proof. destruct merged; simpl; auto. Qed.

Lemma ratios_contiguous (total_chars char_count : Z) (merged : list pystr) :
  Contiguous (ratios total_chars char_count merged).
Proof.
  revert char_count. induction merged as [|t l IH]; intro cc; simpl.
  - constructor.
  - specialize (IH (cc + len t)).
    pose proof (ratios_head_start total_chars (cc + len t) l) as Hh.
    destruct (ratios total_chars (cc + len t) l) as [|b rest].
    + constructor.
    + constructor; [exact Hh | exact IH].
Qed.

Lemma last_cons_nonempty (A : Type) (a d : A) (l : list A) :
  l <> [] -> last (a :: l) d = last l d.
Proof. destruct l; [congruence | reflexivity]. Qed.

Lemma ratios_last_end (total_chars char_count : Z) (merged : list pystr) (d : Segment) :
  merged <> [] ->
  end_ratio (last (ratios total_chars char_count merged) d)
  = truediv (char_count + total_len merged) total_chars.
Proof.
  revert char_count. induction merged as [|t l IH]; intros cc Hne; [congruence|].
  destruct l as [|t' l'].
  - simpl. now rewrite Z.add_0_r.
  - change (ratios total_chars cc (t :: t' :: l'))
      with (mkSegment t (truediv cc total_chars) (truediv (cc + len t) total_chars)
              :: ratios total_chars (cc + len t) (t' :: l')).
    rewrite last_cons_nonempty by (simpl; congruence).
    rewrite IH by congruence. f_equal. simpl. lia.
Qed.

Lemma truediv_zero (b : Z) : truediv 0 b == 0.
Proof. unfold truediv, Qeq; simpl; reflexivity. Qed.

Lemma truediv_self (b : Z) : 0 < b -> truediv b b == 1.
Proof.
  intro Hb. unfold truediv, Qeq; simpl. rewrite Z2Pos.id by exact Hb. ring.
Qed.

Lemma truediv_diff (a l b : Z) :
  truediv (a + l) b - truediv a b == truediv l b.
Proof.
  unfold truediv, Qeq, Qminus, Qplus, Qopp. cbn [Qnum Qden].
  rewrite Pos2Z.inj_mul. ring.
Qed.

Lemma truediv_bounds (a l b : Z) :
  0 <= a -> 0 <= l -> a + l <= b -> 0 < b ->
  (0 <= truediv a b /\ truediv a b <= truediv (a + l) b /\ truediv (a + l) b <= 1)%Q.
Proof.
  intros Ha Hl Hle Hb. unfold truediv, Qle; simpl.
  rewrite Z2Pos.id by exact Hb. repeat split; nia.
Qed.

Lemma ratios_share (total_chars char_count : Z) (merged : list pystr) :
  Forall (fun s => end_ratio s - start_ratio s == truediv (len (text s)) total_chars)
         (ratios total_chars char_count merged).
Proof.
  revert char_count. induction merged as [|t l IH]; intro cc; simpl;
    constructor; [apply truediv_diff | apply IH].
Qed.

Lemma ratios_bounds (total_chars char_count : Z) (merged : list pystr) :
  0 <= char_count -> char_count + total_len merged <= total_chars -> 0 < total_chars ->
  Forall (fun s => (0 <= start_ratio s /\ start_ratio s <= end_ratio s /\ end_ratio s <= 1)%Q)
         (ratios total_chars char_count merged).
Proof.
  revert char_count. induction merged as [|t l IH]; intros cc Hcc Hle Hpos; simpl in *;
    constructor.
  - simpl. pose proof (len_nonneg t). pose proof (total_len_nonneg l).
    apply truediv_bounds; lia.
  - pose proof (len_nonneg t). apply IH; lia.
Qed.

Lemma ratios_nonblank (total_chars char_count : Z) (merged : list pystr) :
  Forall (fun s => blank s = false) merged ->
  Forall (fun s => truthy (strip (text s)) = true) (ratios total_chars char_count merged).
Proof.
  revert char_count. induction merged as [|t l IH]; intros cc H; simpl;
    inversion H; subst; constructor; auto.
  simpl. rewrite strip_truthy. now apply negb_true_iff.
Qed.

(** What the function returns, by cases on the script: nothing for a
    script that is empty or made of white space, and otherwise the
    ratios of a non-empty list of fragments none of which is blank. *)
Lemma get_subtitle_segments_cases (script : pystr) :
  (blank script = true /\ _get_subtitle_segments script = [])
  \/ (blank script = false /\
      exists merged,
        merged <> [] /\ Forall (fun s => blank s = false) merged /\
        0 < total_len merged /\
        _get_subtitle_segments script = ratios (total_len merged) 0 merged).
Proof.
  unfold _get_subtitle_segments.
  destruct script as [|c script']; [left; split; reflexivity|].
  set (script := c :: script'). simpl truthy. cbv iota. simpl negb. cbv iota.
  set (raw := filter (fun s => truthy (strip s)) (re_split script)).
  assert (Hraw : Forall (fun s => blank s = false) raw).
  { apply Forall_forall. intros x Hx. unfold raw in Hx.
    apply filter_In in Hx. destruct Hx as [_ Hx].
    rewrite strip_truthy in Hx. now apply negb_true_iff. }
  assert (Hblank : blank script = true <-> raw = []).
  { unfold raw. rewrite filter_nil_forallb.
    rewrite <- (re_split_concat script) at 1. rewrite blank_concat.
    assert (E : forall l, forallb blank l
                = forallb (fun x => negb (truthy (strip x))) l).
    { intro l. induction l as [|x l IHl]; simpl; [reflexivity|].
      now rewrite strip_truthy, negb_involutive, IHl. }
    rewrite E. tauto. }
  pose proof (merge_segments_nonblank raw Hraw) as Hm.
  pose proof (merge_segments_nil raw) as Hnil.
  destruct (merge_segments raw) as [|m ms] eqn:Em.
  - left. split; [|reflexivity]. apply Hblank. now apply Hnil.
  - right. simpl negb. cbv iota.
    assert (Hpos : 1 <= total_len (m :: ms)) by (apply total_len_pos; [congruence | exact Hm]).
    split.
    + destruct (blank script) eqn:Eb; [|reflexivity].
      assert (raw = []) as Hr by now apply Hblank.
      apply Hnil in Hr. congruence.
    + exists (m :: ms). repeat split; [congruence | exact Hm | lia |].
      destruct (total_len (m :: ms) =? 0) eqn:E0; [apply Z.eqb_eq in E0; lia | reflexivity].
Qed.

Lemma blank_strip_nil (s : pystr) : blank s = true <-> strip s = [].
Proof.
  rewrite <- truthy_nil, strip_truthy. destruct (blank s); simpl; split; congruence.
Qed.

(** C3. For every script the caption segments of [_get_subtitle_segments]
    partition [0,1] contiguously: the first segment starts at ratio 0,
    the last ends at ratio 1, every segment starts where the previous
    one ends, the ratios stay within [0,1], every text is non-empty
    after trimming, and the share of a segment is its character count
    over the total character count; a script yields no segment exactly
    when it is empty or white space only. *)
Theorem get_subtitle_segments_partition (script : pystr) :
  let segs := _get_subtitle_segments script in
  let total_chars := total_len (map text segs) in
  (strip script = [] <-> segs = []) /\
  match segs with
  | [] => True
  | first :: _ => start_ratio first == 0 /\ end_ratio (last segs first) == 1
  end /\
  Contiguous segs /\
  Forall (fun s => (0 <= start_ratio s /\ start_ratio s <= end_ratio s /\ end_ratio s <= 1)%Q) segs /\
  Forall (fun s => truthy (strip (text s)) = true) segs /\
  Forall (fun s => end_ratio s - start_ratio s == truediv (len (text s)) total_chars) segs.
Proof.
  intros segs total_chars. subst segs total_chars.
  destruct (get_subtitle_segments_cases script)
    as [[Hb E] | [Hb [merged [Hne [Hnb [Hpos E]]]]]]; rewrite E.
  - split; [rewrite <- blank_strip_nil; tauto|].
    repeat split; constructor.
  - rewrite ratios_text.
    split.
    { rewrite <- blank_strip_nil. split; [congruence|].
      destruct merged; [congruence | discriminate]. }
    split.
    { pose proof (ratios_head_start (total_len merged) 0 merged) as Hh.
      destruct (ratios (total_len merged) 0 merged) as [|s0 rest] eqn:Er; [exact I|].
      split.
      - rewrite Hh. apply truediv_zero.
      - rewrite <- Er, ratios_last_end by exact Hne.
        simpl. now apply truediv_self. }
    split; [apply ratios_contiguous|].
    split; [apply ratios_bounds; lia|].
    split; [now apply ratios_nonblank | apply ratios_share].
Qed.

End Subtitle.

Import Subtitle.

(** ** The subtitle timeline ([_generate_ass_subtitle]) *)

Module AssSubtitle.

(** [x < y] on two floats. *)
Definition Qltb (x y : Q) : bool := negb (Qle_bool y x).

Lemma Qltb_lt (x y : Q) : Qltb x y = true <-> (x < y)%Q.
Proof.
  unfold Qltb. rewrite negb_true_iff, <- not_true_iff_false, Qle_bool_iff.
  split; [apply Qnot_le_lt | apply Qlt_not_le].
Qed.

Lemma Qltb_ge (x y : Q) : Qltb x y = false <-> (y <= x)%Q.
Proof. unfold Qltb. rewrite negb_false_iff. apply Qle_bool_iff. Qed.

(** One element of [slides_info]: the dict with the keys [page_index],
    [script] and [duration]. *)
Record SlideInfo := mkSlideInfo {
  page_index : Z;
  script : pystr;
  duration : Q
}.

(** One [Dialogue] event before its times are printed. *)
Record Event := mkEvent {
  seg_start : Q;
  seg_end : Q;
  event_text : pystr
}.

(** The literal [0.15]. *)
Definition min_seg : Q := nearest (15 # 100).

(** The body of the inner [for seg in segments] loop.  The two ratios
    of a segment are the doubles [char_count / total_chars] of the
    splitter; every sum, product and difference is rounded. *)
Definition event_of (current_time duration : Q) (seg : Segment) : Event :=
  let seg_start := fadd current_time (fmul duration (nearest (start_ratio seg))) in
  let seg_end := fadd current_time (fmul duration (nearest (end_ratio seg))) in
  let seg_end :=
    if Qltb (fsub seg_end seg_start) min_seg then fadd seg_start min_seg else seg_end in
  mkEvent seg_start seg_end (replace_char 10%N (lit "\N") (text seg)).

(** The events one slide contributes when the accumulator stands at
    [current_time].  The duration of the dict is a float: the double
    nearest to the rational of the record. *)
Definition slide_events (current_time : Q) (slide : SlideInfo) : list Event :=
  let script := strip (script slide) in
  let duration := nearest (duration slide) in
  if truthy script
  then map (event_of current_time duration) (_get_subtitle_segments script)
  else [].

(** The outer loop: [current_time] advances by the duration of every
    slide, with or without captions. *)
Fixpoint events_from (current_time : Q) (slides_info : list SlideInfo) : list Event :=
  match slides_info with
  | [] => []
  | slide :: rest =>
      slide_events current_time slide
        ++ events_from (fadd current_time (nearest (duration slide))) rest
  end.

Definition _generate_ass_subtitle (slides_info : list SlideInfo) : list Event :=
  events_from 0 slides_info.

(** The local function [format_time]: seconds as [H:MM:SS.CC]. *)
Definition format_time (seconds : Q) : pystr :=
  let h := Qtrunc (float_floor_div seconds 3600) in
  let m := Qtrunc (float_floor_div (float_rem seconds 3600) 60) in
  let s := float_rem seconds 60 in
  str_of_Z h ++ lit ":" ++ zero_pad 2 (str_of_Z m) ++ lit ":" ++ zero_pad 5 (format_f 2 s).

(** The text of one event, for the vertical margin [env_margin_v]. *)
Definition dialogue_line (env_margin_v : Z) (e : Event) : pystr :=
  lit "Dialogue: 0," ++ format_time (seg_start e) ++ lit "," ++ format_time (seg_end e)
  ++ lit ",Default,,0,0," ++ str_of_Z env_margin_v ++ lit ",," ++ event_text e.

(** What is written after the header: the events, one per line. *)
Definition events_text (env_margin_v : Z) (slides_info : list SlideInfo) : pystr :=
  join [10%N] (map (dialogue_line env_margin_v) (_generate_ass_subtitle slides_info))
  ++ [10%N].

(** The length of an event, as a real number. *)
Definition span (e : Event) : Q := (seg_end e - seg_start e)%Q.

Definition sum_spans (evs : list Event) : Q :=
  fold_right (fun e acc => (span e + acc)%Q) 0%Q evs.

(** The time [current_time + duration * ratio] of the loop. *)
Definition scaled (current_time duration ratio : Q) : Q :=
  fadd current_time (fmul duration (nearest ratio)).

(** *** One event *)

Lemma min_seg_pos : (0 < min_seg)%Q.
Proof. vm_compute. reflexivity. Qed.

Lemma min_seg_double : is_double min_seg.
Proof. apply nearest_is_double. Qed.

Lemma fadd_double (x y : Q) : is_double (fadd x y).
Proof. apply nearest_is_double. Qed.

Lemma scaled_comp (ct d r r' : Q) : r == r' -> scaled ct d r == scaled ct d r'.
Proof. intro E. unfold scaled, fadd, fmul. now rewrite E. Qed.

Lemma event_of_start (ct d : Q) (seg : Segment) :
  seg_start (event_of ct d seg) = scaled ct d (start_ratio seg).
Proof. reflexivity. Qed.

Lemma event_of_end (ct d : Q) (seg : Segment) :
  let raw_end := scaled ct d (end_ratio seg) in
  let e := event_of ct d seg in
  ((fsub raw_end (seg_start e) < min_seg)%Q /\ seg_end e = fadd (seg_start e) min_seg)
  \/ ((min_seg <= fsub raw_end (seg_start e))%Q /\ seg_end e = raw_end).
Proof.
  unfold event_of, scaled; simpl.
  destruct (Qltb _ min_seg) eqn:E.
  - left. apply Qltb_lt in E. split; [exact E | reflexivity].
  - right. apply Qltb_ge in E. split; [exact E | reflexivity].
Qed.

(** The end of an event is never before the scaled end of its segment,
    and never before its start. *)
Lemma event_of_covers (ct d : Q) (seg : Segment) :
  let e := event_of ct d seg in
  (scaled ct d (end_ratio seg) <= seg_end e /\ seg_start e <= seg_end e)%Q.
Proof.
  cbv zeta. pose proof min_seg_pos as Hc. pose proof min_seg_double as Hd.
  destruct (event_of_end ct d seg) as [[H E] | [H E]]; cbv zeta in *; rewrite E.
  - set (raw := scaled ct d (end_ratio seg)) in *.
    set (st := seg_start (event_of ct d seg)) in *.
    assert (Hraw : is_double raw) by apply nearest_is_double.
    assert (Hst : is_double st) by apply nearest_is_double.
    unfold is_double in *.
    assert (Hlt : (raw - st < min_seg)%Q).
    { apply Qnot_le_lt. intro Hge. apply nearest_le in Hge. unfold fsub in H.
      rewrite Hd in Hge. lra. }
    split.
    + rewrite <- Hraw. unfold fadd. apply nearest_le. lra.
    + rewrite <- Hst at 1. unfold fadd. apply nearest_le. lra.
  - split; [apply Qle_refl|].
    set (raw := scaled ct d (end_ratio seg)) in *.
    set (st := seg_start (event_of ct d seg)) in *.
    apply Qnot_lt_le. intro Hlt.
    assert (Hle : (raw - st <= 0)%Q) by lra.
    apply nearest_le in Hle. rewrite (nearest_zero 0) in Hle by reflexivity.
    unfold fsub in H. lra.
Qed.

Lemma sum_spans_ratios (ct d : Q) (total_chars char_count : Z) (merged : list pystr) :
  (scaled ct d (truediv (char_count + total_len merged) total_chars)
     - scaled ct d (truediv char_count total_chars)
   <= sum_spans (map (event_of ct d) (ratios total_chars char_count merged)))%Q.
Proof.
  revert char_count. induction merged as [|t l IH]; intro cc.
  - simpl. rewrite Z.add_0_r. lra.
  - cbn [ratios map sum_spans fold_right total_len].
    fold (sum_spans (map (event_of ct d) (ratios total_chars (cc + len t) l))).
    specialize (IH (cc + len t)).
    fold (total_len l).
    replace (cc + (len t + total_len l)) with (cc + len t + total_len l) by lia.
    pose proof (event_of_covers ct d
      (mkSegment t (truediv cc total_chars) (truediv (cc + len t) total_chars))) as Hs.
    cbv zeta in Hs. destruct Hs as [Hs _]. unfold span. rewrite event_of_start.
    cbn [start_ratio end_ratio] in *. lra.
Qed.


(** *** The events of one slide *)

Lemma blank_strip (s : pystr) : blank (strip s) = blank s.
Proof.
  unfold strip, rstrip, blank. rewrite forallb_rev.
  fold (blank (lstrip (rev (lstrip s)))). rewrite lstrip_blank.
  unfold blank. rewrite forallb_rev. apply lstrip_blank.
Qed.

Lemma map_last (A B : Type) (f : A -> B) (l : list A) (d : A) :
  last (map f l) (f d) = f (last l d).
Proof.
  induction l as [|a l IH]; [reflexivity|].
  destruct l; [reflexivity|]. exact IH.
Qed.

(** The events of a slide, by cases on its script. *)
Lemma slide_events_cases (ct : Q) (slide : SlideInfo) :
  (strip (script slide) = [] /\ slide_events ct slide = [])
  \/ (strip (script slide) <> [] /\
      exists merged,
        merged <> [] /\ 0 < total_len merged /\
        slide_events ct slide
        = map (event_of ct (nearest (duration slide))) (ratios (total_len merged) 0 merged)).
Proof.
  unfold slide_events.
  destruct (strip (script slide)) as [|c s'] eqn:Es; [left; split; reflexivity|].
  right. split; [congruence|]. simpl truthy. cbv iota zeta.
  destruct (get_subtitle_segments_cases (c :: s'))
    as [[Hb _] | [_ [merged [Hne [_ [Hpos E]]]]]].
  - rewrite <- Es, blank_strip in Hb. apply blank_strip_nil in Hb. congruence.
  - exists merged. rewrite E. auto.
Qed.

(** The scaled time of the ratio 0 is the start offset, that of the
    ratio 1 is the offset of the next slide. *)
Lemma scaled_zero (ct d r : Q) : is_double ct -> r == 0 -> scaled ct d r == ct.
Proof.
  intros Hct Hr. unfold scaled, fadd, fmul. rewrite Hr.
  rewrite (nearest_zero 0) by reflexivity.
  setoid_replace (d * 0)%Q with 0%Q by ring.
  rewrite (nearest_zero 0) by reflexivity.
  setoid_replace (ct + 0)%Q with ct by ring. exact Hct.
Qed.

Lemma nearest_one : nearest 1 == 1.
Proof. vm_compute. reflexivity. Qed.

Lemma scaled_one (ct d r : Q) : is_double d -> r == 1 -> scaled ct d r == fadd ct d.
Proof.
  intros Hd Hr. unfold scaled, fadd, fmul. rewrite Hr, nearest_one.
  setoid_replace (d * 1)%Q with d by ring. unfold is_double in Hd. now rewrite Hd.
Qed.

(** C4, as the code has it.  For every slide and every start offset
    that is a double, within the range of the doubles, with [d] the
    duration of the slide as a double: a slide has no caption exactly
    when its script is blank.  A caption starts at the offset plus [d]
    scaled by its start ratio; when the difference of its scaled end
    and its start, as the code computes it, is below 0.15 s, it ends at
    the double nearest to its start plus 0.15, and at its scaled end
    otherwise; it never ends before its scaled end nor before its
    start.  When the slide has captions, the first one starts at the
    start offset of the slide; the spans add up to at least the length
    of the slide on the time line, from its offset to the offset of the
    next slide; and the last caption ends at the offset of the next
    slide, or, when it is shorter than 0.15 s, at the double nearest to
    its start plus 0.15, which is not before that offset. *)
Theorem slide_events_timeline (current_time : Q) (slide : SlideInfo) :
  is_double current_time ->
  (Qabs current_time + Qabs (duration slide) + 1 <= pow2 1023)%Q ->
  let evs := slide_events current_time slide in
  let d := nearest (duration slide) in
  let boundary := fadd current_time d in
  (evs = [] <-> strip (script slide) = []) /\
  Forall2 (fun seg e =>
             let raw_end := fadd current_time (fmul d (nearest (end_ratio seg))) in
             seg_start e = fadd current_time (fmul d (nearest (start_ratio seg))) /\
             ((fsub raw_end (seg_start e) < min_seg)%Q /\
                seg_end e = fadd (seg_start e) min_seg
              \/ (min_seg <= fsub raw_end (seg_start e))%Q /\ seg_end e = raw_end) /\
             (raw_end <= seg_end e)%Q /\ (seg_start e <= seg_end e)%Q)
          (_get_subtitle_segments (strip (script slide))) evs /\
  match evs with
  | [] => True
  | first :: _ =>
      let final := last evs first in
      seg_start first == current_time /\
      (boundary - current_time <= sum_spans evs)%Q /\
      ((min_seg <= fsub boundary (seg_start final))%Q /\ seg_end final == boundary
       \/ (fsub boundary (seg_start final) < min_seg)%Q /\
          seg_end final = fadd (seg_start final) min_seg /\
          (boundary <= seg_end final)%Q)
  end.
Proof.
  intros Hct _ evs d boundary. subst evs d boundary.
  pose proof (nearest_is_double (duration slide)) as Hd.
  split; [|split].
  - destruct (slide_events_cases current_time slide)
      as [[Hs E] | [Hs [merged [Hne [Hpos E]]]]]; rewrite E.
    + tauto.
    + split; [|tauto]. destruct merged; [congruence | discriminate].
  - unfold slide_events. destruct (strip (script slide)) as [|c s'] eqn:Es.
    + simpl. constructor.
    + simpl truthy. cbv iota zeta.
      induction (_get_subtitle_segments (c :: s')) as [|seg segs IH]; simpl;
        constructor; [|exact IH].
      split; [reflexivity|]. split; [apply event_of_end | apply event_of_covers].
  - destruct (slide_events_cases current_time slide)
      as [[Hs E] | [Hs [merged [Hne [Hpos E]]]]]; rewrite E; [exact I|].
    set (d := nearest (duration slide)) in *. set (total := total_len merged).
    pose proof (ratios_head_start total 0 merged) as Hh.
    pose proof (ratios_last_end total 0 merged) as Hl.
    pose proof (sum_spans_ratios current_time d total 0 merged) as Hsum.
    fold total in Hsum. simpl (0 + total) in Hsum.
    pose proof (truediv_self total Hpos) as H1. fold total in H1.
    pose proof (truediv_zero total) as H0.
    pose proof (scaled_zero current_time d _ Hct H0) as S0.
    pose proof (scaled_one current_time d _ Hd H1) as S1.
    destruct (ratios total 0 merged) as [|s0 rest] eqn:Er.
    { destruct merged; [congruence | discriminate]. }
    cbn [map]. cbv zeta.
    split; [|split].
    + rewrite event_of_start, Hh. exact S0.
    + change (event_of current_time d s0 :: map (event_of current_time d) rest)
        with (map (event_of current_time d) (s0 :: rest)).
      rewrite S0, S1 in Hsum. exact Hsum.
    + change (event_of current_time d s0 :: map (event_of current_time d) rest)
        with (map (event_of current_time d) (s0 :: rest)).
      rewrite map_last.
      specialize (Hl s0 Hne). simpl (0 + total_len merged) in Hl. fold total in Hl.
      set (sl := last (s0 :: rest) s0) in *.
      assert (Eraw : scaled current_time d (end_ratio sl) == fadd current_time d).
      { rewrite Hl. exact S1. }
      assert (Esub : fsub (scaled current_time d (end_ratio sl))
                          (seg_start (event_of current_time d sl))
                     == fsub (fadd current_time d)
                             (seg_start (event_of current_time d sl))).
      { unfold fsub. now rewrite Eraw. }
      pose proof (event_of_covers current_time d sl) as [Hc _].
      destruct (event_of_end current_time d sl) as [[H E'] | [H E']]; cbv zeta in *.
      * right. rewrite Esub in H. split; [exact H|]. split; [exact E'|].
        rewrite <- Eraw. exact Hc.
      * left. rewrite Esub in H. split; [exact H|]. rewrite E'. exact Eraw.
Qed.


(** A slide of 0.6 s at the offset 0.3 s whose script ends on a short
    fragment. *)
Lemma slide_events_timeline_example :
  let current_time := nearest (3 # 10) in
  let slide := mkSlideInfo 1 (lit "Thanks for watching! OK") (6 # 10) in
  let boundary := fadd current_time (nearest (duration slide)) in
  is_double current_time /\
  (Qabs current_time + Qabs (duration slide) + 1 <= pow2 1023)%Q /\
  match slide_events current_time slide with
  | [first; final] =>
      seg_start first == current_time /\
      (boundary - current_time <= sum_spans [first; final])%Q /\
      (fsub boundary (seg_start final) < min_seg)%Q /\
      seg_end final = fadd (seg_start final) min_seg /\
      (boundary <= seg_end final)%Q
  | _ => False
  end.
Proof.
  intros current_time slide boundary.
  assert (H1 : is_double current_time) by (vm_compute; reflexivity).
  assert (H3 : (Qabs current_time + Qabs (duration slide) + 1 <= pow2 1023)%Q)
    by (vm_compute; discriminate).
  split; [exact H1|]. split; [exact H3|].
  pose proof (slide_events_timeline current_time slide H1 H3) as T.
  cbv zeta in T. destruct T as [_ [_ T]].
  change (slide_events current_time slide)
    with [event_of current_time (nearest (duration slide))
            (mkSegment (lit "Thanks for watching!") (0 # 23) (20 # 23));
          event_of current_time (nearest (duration slide))
            (mkSegment (lit " OK") (20 # 23) (23 # 23))] in T |- *.
  cbv iota in T. destruct T as [T1 [T2 T3]].
  split; [exact T1|]. split; [exact T2|].
  destruct T3 as [[A _] | [A [B C]]].
  - exfalso. revert A. vm_compute. intro A. now apply A.
  - cbn [last] in A, B, C. split; [exact A|]. split; [exact B | exact C].
Defined.

(** C4, as stated, fails in three ways.  A one-second slide whose
    script ends on a short fragment: the last caption starts at the
    double nearest to 20/23 s, its scaled span is below the floor, and it
    ends after the boundary of the slide at 1 s.  A slide of 0.6 s that
    follows a silent slide of 0.3 s: its one caption runs from 0.3 s to
    the double 0.3 + 0.6, which is 0.8999999999999999, so the spans add
    up to less than the duration 0.6.  A slide of no duration at the
    offset 10^17 s: the caption ends when it starts, the floor of 0.15 s
    being lost in the rounding of the sum. *)
Lemma last_caption_ends_after_slide :
  (let slide := mkSlideInfo 0 (lit "Thanks for watching! OK") 1 in
   match slide_events 0 slide with
   | [first; final] =>
       seg_start first == 0 /\ seg_end first == nearest (20 # 23) /\
       seg_start final == nearest (20 # 23) /\
       seg_end final == fadd (nearest (20 # 23)) min_seg /\
       (0 + duration slide < seg_end final)%Q
   | _ => False
   end) /\
  (let silent := mkSlideInfo 0 [] (3 # 10) in
   let slide := mkSlideInfo 1 (lit "Hello") (6 # 10) in
   match _generate_ass_subtitle [silent; slide] with
   | [only] =>
       seg_start only == nearest (3 # 10) /\
       seg_end only == fadd (nearest (3 # 10)) (nearest (6 # 10)) /\
       (min_seg <= span only)%Q /\
       (sum_spans [only] < nearest (duration slide))%Q
   | _ => False
   end) /\
  (let slide := mkSlideInfo 0 (lit "Hello") 0 in
   match slide_events (inject_Z (10 ^ 17)) slide with
   | [only] =>
       is_double (inject_Z (10 ^ 17)) /\
       seg_start only == inject_Z (10 ^ 17) /\ seg_end only == seg_start only /\
       (span only < min_seg)%Q
   | _ => False
   end).
Proof. vm_compute. repeat split; intro H; discriminate H. Qed.

(** The printed form of the first run above: the floor shows in the end
    of the second event. *)
Lemma events_text_example :
  events_text 10 [mkSlideInfo 0 (lit "Thanks for watching! OK") 1]
  = lit "Dialogue: 0,0:00:00.00,0:00:00.87,Default,,0,0,10,,Thanks for watching!"
    ++ [10%N]
    ++ lit "Dialogue: 0,0:00:00.87,0:00:01.02,Default,,0,0,10,, OK" ++ [10%N].
Proof. vm_compute. reflexivity. Qed.

(** A time just below zero is printed with 60 minutes and 60 seconds:
    the remainders of [-1e-20] by 3600 and by 60 round to 3600.0 and to
    60.0. *)
Lemma format_time_below_zero :
  format_time (nearest (-1 # 10 ^ 20)) = lit "-1:60:60.00".
Proof. vm_compute. reflexivity. Qed.

End AssSubtitle.

(** ** Slides *)

(** The dataclass [_SlideItem]. *)
Record _SlideItem := mkSlideItem {
  page_index : Z;
  image_path : pystr;
  audio_path : pystr;
  script_text : pystr;
  duration : Q
}.

(** ** Concat descriptors ([_write_concat_list]) *)

Module ConcatList.

(** One line of the descriptor file. *)
Inductive Line :=
  | FileLine (quoted_path : pystr)
  | DurationLine (d : Q).

(** The text of a line, as [f.write] receives it. *)
Definition render_line (l : Line) : pystr :=
  match l with
  | FileLine p => lit "file '" ++ p ++ lit "'" ++ [10%N]
  | DurationLine d => lit "duration " ++ format_f 6 d ++ [10%N]
  end.

Definition render (ls : list Line) : pystr := flat_map render_line ls.

(** An entry of a descriptor, as the concat demuxer reads the file: a
    file and, when a [duration] line follows it, that duration. *)
Definition Entry := (pystr * option Q)%type.

Fixpoint entries (ls : list Line) : list Entry :=
  match ls with
  | [] => []
  | FileLine p :: rest =>
      match rest with
      | DurationLine d :: rest' => (p, Some d) :: entries rest'
      | _ => (p, None) :: entries rest
      end
  | DurationLine _ :: rest => entries rest
  end.

Definition has_duration (e : Entry) : bool :=
  match snd e with Some _ => true | None => false end.

Section Writer.

(** [os.path.abspath], which depends on the platform and on the current
    directory. *)
Variable abspath : pystr -> pystr.

(** The local function [q]: forward slashes, single quotes escaped. *)
Definition q (p : pystr) : pystr :=
  let p2 := replace_char 92%N (lit "/") (abspath p) in
  replace_char 39%N (lit "\'") p2.

(** [d <= 0] replaced by [0.01]. *)
Definition clamp (d : Q) : Q := if Qle_bool d 0 then 1 # 100 else d.

(** The [for idx, p in enumerate(paths)] loop from index [idx] on.
    [None] is the [IndexError] of [durations[idx]] on a list of
    durations shorter than [paths]. *)
Fixpoint write_loop (idx : nat) (paths : list pystr) (durations : option (list Q))
  : option (list Line) :=
  match paths with
  | [] => Some []
  | p :: rest =>
      match durations with
      | None =>
          option_map (cons (FileLine (q p))) (write_loop (S idx) rest durations)
      | Some ds =>
          match nth_error ds idx with
          | None => None
          | Some d =>
              option_map (fun ls => FileLine (q p) :: DurationLine (clamp d) :: ls)
                         (write_loop (S idx) rest durations)
          end
      end
  end.

(** The lines written to [out_path], or [None] when the call raises. *)
Definition _write_concat_list (paths : list pystr) (durations : option (list Q))
  : option (list Line) :=
  match write_loop 0 paths durations with
  | None => None
  | Some ls =>
      match paths, durations with
      | _ :: _, Some _ => Some (ls ++ [FileLine (q (last paths []))])
      | _, _ => Some ls
      end
  end.

(** The two calls of the renderers. *)
Definition video_concat (slides : list _SlideItem) : option (list Line) :=
  _write_concat_list (map image_path slides) (Some (map duration slides)).

Definition audio_concat (slides : list _SlideItem) : option (list Line) :=
  _write_concat_list (map audio_path slides) None.

(** *** The lines and entries of a descriptor *)

Definition timed_lines (timed : list (pystr * Q)) : list Line :=
  flat_map (fun pd => [FileLine (q (fst pd)); DurationLine (clamp (snd pd))]) timed.

Lemma write_loop_timed (paths : list pystr) (ds : list Q) (idx : nat) :
  (idx + length paths <= length ds)%nat ->
  write_loop idx paths (Some ds) = Some (timed_lines (combine paths (skipn idx ds))).
Proof.
  revert idx. induction paths as [|p rest IH]; intros idx Hlen; simpl in *.
  - reflexivity.
  - destruct (nth_error ds idx) as [d|] eqn:Ed.
    + rewrite IH by lia. simpl.
      assert (Hs : skipn idx ds = d :: skipn (S idx) ds).
      { clear -Ed. revert ds Ed. induction idx as [|i IHi]; intros [|x ds] Ed;
          simpl in *; try discriminate.
        - now inversion Ed.
        - now apply IHi. }
      rewrite Hs. reflexivity.
    + apply nth_error_None in Ed. lia.
Qed.

Lemma write_loop_untimed (paths : list pystr) (idx : nat) :
  write_loop idx paths None = Some (map (fun p => FileLine (q p)) paths).
Proof.
  revert idx. induction paths as [|p rest IH]; intro idx; simpl;
    [reflexivity | now rewrite IH].
Qed.

Lemma entries_timed (timed : list (pystr * Q)) (tail : list Line) :
  entries (timed_lines timed ++ tail)
  = map (fun pd => (q (fst pd), Some (clamp (snd pd)))) timed ++ entries tail.
Proof.
  induction timed as [|pd timed IH]; simpl; [reflexivity | now rewrite IH].
Qed.

Lemma entries_untimed (quoted : list pystr) :
  entries (map FileLine quoted) = map (fun p => (p, None)) quoted.
Proof.
  induction quoted as [|p l IH]; simpl; [reflexivity|].
  rewrite <- IH. destruct l; reflexivity.
Qed.

Lemma combine_map_same (A B C : Type) (f : A -> B) (g : A -> C) (l : list A) :
  combine (map f l) (map g l) = map (fun a => (f a, g a)) l.
Proof. induction l as [|a l IH]; simpl; [reflexivity | now rewrite IH]. Qed.

Lemma last_default (A : Type) (l : list A) (d d' : A) :
  l <> [] -> last l d = last l d'.
Proof.
  induction l as [|a l IH]; [congruence|]. intros _.
  destruct l as [|b l]; [reflexivity|].
  exact (IH ltac:(congruence)).
Qed.

Lemma last_map (A B : Type) (f : A -> B) (l : list A) (d : A) :
  last (map f l) (f d) = f (last l d).
Proof.
  induction l as [|a l IH]; [reflexivity|].
  destruct l; [reflexivity | exact IH].
Qed.

Lemma video_concat_lines (s0 : _SlideItem) (rest : list _SlideItem) :
  let slides := s0 :: rest in
  video_concat slides
  = Some (timed_lines (map (fun s => (image_path s, duration s)) slides)
          ++ [FileLine (q (image_path (last slides s0)))]).
Proof.
  intro slides. unfold video_concat, _write_concat_list.
  rewrite write_loop_timed by (rewrite !length_map; lia).
  change (skipn 0 (map duration slides)) with (map duration slides).
  rewrite combine_map_same.
  subst slides. cbn [map]. do 3 f_equal.
  change (image_path s0 :: map image_path rest) with (map image_path (s0 :: rest)).
  rewrite (last_default pystr (map image_path (s0 :: rest)) [] (image_path s0))
    by (simpl; congruence).
  now rewrite last_map.
Qed.

Lemma audio_concat_lines (slides : list _SlideItem) :
  audio_concat slides = Some (map (fun s => FileLine (q (audio_path s))) slides).
Proof.
  unfold audio_concat, _write_concat_list. rewrite write_loop_untimed.
  rewrite map_map. destruct (map audio_path slides); reflexivity.
Qed.

(** C1, as the code has it.  For every non-empty slide list the video
    descriptor is written without error and holds one entry with a
    duration for each slide, in order, followed by one more entry that
    repeats the file of the last slide and has no duration line: slide
    count plus one entries, of which the final two name the same file. *)
Theorem video_concat_repeat_terminal (s0 : _SlideItem) (rest : list _SlideItem) :
  let slides := s0 :: rest in
  let final := last slides s0 in
  exists lines,
    video_concat slides = Some lines /\
    entries lines
    = map (fun s => (q (image_path s), Some (clamp (duration s)))) slides
      ++ [(q (image_path final), None)] /\
    length (entries lines) = S (length slides) /\
    length (filter has_duration (entries lines)) = length slides /\
    exists front,
      entries lines
      = front ++ [(q (image_path final), Some (clamp (duration final)));
                  (q (image_path final), None)].
Proof.
  intros slides final.
  eexists. split; [apply video_concat_lines|].
  rewrite entries_timed, map_map. cbn [fst snd entries].
  fold slides. fold final.
  split; [reflexivity|]. split; [|split].
  - rewrite length_app, length_map. simpl. lia.
  - rewrite filter_app. cbn [filter has_duration snd]. rewrite app_nil_r.
    rewrite forallb_filter_id.
    + apply length_map.
    + apply forallb_forall. intros e He. apply in_map_iff in He.
      destruct He as [s [<- _]]. reflexivity.
  - destruct (exists_last (l := slides)) as [front [sl E]];
      [subst slides; congruence|].
    exists (map (fun s => (q (image_path s), Some (clamp (duration s)))) front).
    assert (Hf : final = sl).
    { unfold final. rewrite E. apply last_last. }
    rewrite Hf, E, map_app, <- app_assoc. reflexivity.
Qed.

(** C2.  For every slide list the audio descriptor is written without
    error and holds exactly one entry for each audio path, in order, and
    no duration line; nothing is appended after the entry of the last
    slide, so that the final two entries are those of the final two
    slides, never a repeat of the last one. *)
Theorem audio_concat_no_repeat (slides : list _SlideItem) :
  exists lines,
    audio_concat slides = Some lines /\
    lines = map (fun s => FileLine (q (audio_path s))) slides /\
    entries lines = map (fun s => (q (audio_path s), None)) slides /\
    length (entries lines) = length slides /\
    filter has_duration (entries lines) = [] /\
    (forall front e1 e2,
       entries lines = front ++ [e1; e2] ->
       exists before s1 s2,
         slides = before ++ [s1; s2] /\
         e1 = (q (audio_path s1), None) /\ e2 = (q (audio_path s2), None)).
Proof.
  eexists. split; [apply audio_concat_lines|]. split; [reflexivity|].
  assert (E : entries (map (fun s => FileLine (q (audio_path s))) slides)
              = map (fun s => (q (audio_path s), None)) slides).
  { rewrite <- (map_map (fun s => q (audio_path s)) FileLine), entries_untimed.
    apply map_map. }
  rewrite E. split; [reflexivity|]. split; [apply length_map|]. split.
  - clear E. induction slides as [|s l IH]; [reflexivity | exact IH].
  - intros front e1 e2 H. apply map_eq_app in H.
    destruct H as [before [l2 [Hs [_ H2]]]].
    destruct l2 as [|s1 [|s2 [|s3 l2]]]; try discriminate.
    exists before, s1, s2. inversion H2. auto.
Qed.

End Writer.

(** [os.path.abspath] on paths that are absolute and normalised already. *)
Definition abspath_of_absolute (p : pystr) : pystr := p.

(** C1, as stated, fails on the count: the descriptor of a single slide
    has two entries, the slide with its duration and the repeat. *)
Lemma video_concat_one_slide_two_entries :
  let slide :=
    mkSlideItem 0 (lit "/out/temp/slide_000.png") (lit "/out/temp/slide_000.mp3")
                (lit "Hello!") 4 in
  option_map entries (video_concat abspath_of_absolute [slide])
  = Some [ (lit "/out/temp/slide_000.png", Some 4%Q);
           (lit "/out/temp/slide_000.png", None) ]
  /\ option_map (fun ls => length (entries ls)) (video_concat abspath_of_absolute [slide])
     = Some 2%nat
  /\ length [slide] = 1%nat.
Proof. repeat split. Qed.

(** The text of that descriptor, and of the audio descriptor next to it. *)
Lemma descriptor_text_example :
  let slide :=
    mkSlideItem 0 (lit "/out/temp/slide_000.png") (lit "/out/temp/it's.mp3")
                (lit "Hello!") 4 in
  option_map render (video_concat abspath_of_absolute [slide])
  = Some (lit "file '/out/temp/slide_000.png'" ++ [10%N]
          ++ lit "duration 4.000000" ++ [10%N]
          ++ lit "file '/out/temp/slide_000.png'" ++ [10%N])
  /\ option_map render (audio_concat abspath_of_absolute [slide])
     = Some (lit "file '/out/temp/it\'s.mp3'" ++ [10%N]).
Proof. split; vm_compute; reflexivity. Qed.

End ConcatList.

(** ** The interpreter and the machine *)

Module Host.

(** What the interpreter and its libraries decide: the functions of the
    standard library whose tables are not part of the repository. *)
Record Runtime := mkRuntime {
  abspath : pystr -> pystr;              (* os.path.abspath *)
  path_join : pystr -> pystr -> pystr;   (* os.path.join *)
  py_int : pystr -> option Z;            (* int(s); None for the ValueError *)
  py_float : pystr -> option Q;          (* float(s), finite; None for the ValueError *)
  unicode_lower : pystr -> pystr;        (* str.lower beyond ASCII *)
  unicode_isdecimal : N -> bool;         (* the class \d beyond ASCII *)
  cp932_decode : bytes -> option pystr;  (* b.decode("cp932") *)
  utf8_decode_replace : bytes -> pystr;  (* b.decode("utf-8", errors="replace") *)
  cpu_count : option Z;                  (* os.cpu_count() *)
  ffmpeg_exe : pystr                     (* imageio_ffmpeg.get_ffmpeg_exe() *)
}.

(** The result of [subprocess.run] with [stderr=PIPE]: the exit code and
    the captured stream ([None] stands for an empty capture object). *)
Record CompletedProcess := mkProc {
  returncode : Z;
  stderr : option bytes
}.

(** The state of the machine a call runs in. *)
Record World := mkWorld {
  environ : pystr -> option pystr;           (* os.environ *)
  path_exists : pystr -> bool;               (* os.path.exists *)
  path_isdir : pystr -> bool;                (* os.path.isdir *)
  listdir : pystr -> list pystr;             (* os.listdir *)
  getmtime : pystr -> option Q;              (* os.path.getmtime; None when it raises *)
  getsize : pystr -> option Z;               (* os.path.getsize; None when it raises *)
  (* the three groups of the Duration line in the header FFmpeg prints
     for a file; None when the probe raises or prints no such line *)
  duration_line : pystr -> option (Z * Z * Q);
  (* AudioFileClip(path).duration: None when MoviePy raises, Some None
     for a clip without duration *)
  clip_duration : pystr -> option (option Q);
  run : list pystr -> CompletedProcess       (* subprocess.run *)
}.

(** [os.environ.get(key, default)]. *)
Definition environ_get (W : World) (key default : pystr) : pystr :=
  match environ W key with
  | Some v => v
  | None => default
  end.

(** [os.environ[key] = value]. *)
Definition environ_set (W : World) (key value : pystr) : World :=
  mkWorld (fun k => if pystr_eqb k key then Some value else environ W k)
          (path_exists W) (path_isdir W) (listdir W) (getmtime W) (getsize W)
          (duration_line W) (clip_duration W) (run W).

(** A file written by the call exists from then on and is not empty (its
    size is only ever compared with 0; the model records 1). *)
Definition file_written (W : World) (path : pystr) : World :=
  mkWorld (environ W)
          (fun p => pystr_eqb p path || path_exists W p)
          (path_isdir W) (listdir W) (getmtime W)
          (fun p => if pystr_eqb p path then Some 1 else getsize W p)
          (duration_line W) (clip_duration W) (run W).

Definition is_ascii (s : pystr) : bool := forallb (fun c => (c <? 128)%N) s.

Definition ascii_lower (c : N) : N :=
  if ((65 <=? c) && (c <=? 90))%N then (c + 32)%N else c.

(** [s.lower()]. *)
Definition lower (R : Runtime) (s : pystr) : pystr :=
  if is_ascii s then map ascii_lower s else unicode_lower R s.

(** *** A runtime and worlds for the examples

    The fields of [example_runtime] agree with the interpreter on the
    inputs the examples use: paths that are absolute and normalised,
    ASCII names, ASCII decimal literals of ints, diagnostics in
    well-formed UTF-8.  The examples never reach its other fields. *)

Fixpoint decimal_digits (acc : Z) (s : pystr) : option Z :=
  match s with
  | [] => Some acc
  | c :: s' =>
      if ((48 <=? c) && (c <=? 57))%N
      then decimal_digits (10 * acc + Z.of_N (c - 48)) s'
      else None
  end.

Definition decimal_int (s : pystr) : option Z :=
  match s with
  | [] => None
  | 45%N :: (_ :: _) as digits => option_map Z.opp (decimal_digits 0 digits)
  | _ => decimal_digits 0 s
  end.

Definition example_runtime : Runtime :=
  mkRuntime (fun p => p)
            (fun a b => a ++ lit "/" ++ b)
            decimal_int
            (fun s => option_map inject_Z (decimal_int s))
            (fun s => s)
            (fun _ => false)
            (fun _ => None)
            (fun _ => [])
            (Some 8)
            (lit "ffmpeg").

(** A world with an empty environment and an empty file system, in which
    every process ends as [proc]. *)
Definition empty_world (proc : CompletedProcess) : World :=
  mkWorld (fun _ => None) (fun _ => false) (fun _ => false) (fun _ => [])
          (fun _ => None) (fun _ => None) (fun _ => None) (fun _ => None)
          (fun _ => proc).

(** A world in which the encoder exits with [code] and writes [diag] to
    its diagnostic stream. *)
Definition failing_world (code : Z) (diag : bytes) : World :=
  empty_world (mkProc code (Some diag)).

(** [W] with one more directory, holding the entries [names]. *)
Definition with_dir (W : World) (dir : pystr) (names : list pystr) : World :=
  mkWorld (environ W)
          (fun p => pystr_eqb p dir || path_exists W p)
          (fun p => pystr_eqb p dir || path_isdir W p)
          (fun p => if pystr_eqb p dir then names else listdir W p)
          (getmtime W) (getsize W) (duration_line W) (clip_duration W) (run W).

(** [W] with one more file, of the given modification time and size. *)
Definition with_file (W : World) (path : pystr) (mtime : Q) (size : Z) : World :=
  mkWorld (environ W)
          (fun p => pystr_eqb p path || path_exists W p)
          (path_isdir W) (listdir W)
          (fun p => if pystr_eqb p path then Some mtime else getmtime W p)
          (fun p => if pystr_eqb p path then Some size else getsize W p)
          (duration_line W) (clip_duration W) (run W).

(** [W] in which the probes of the audio file [path] answer [header]
    and [clip]. *)
Definition with_probe (W : World) (path : pystr)
  (header : option (Z * Z * Q)) (clip : option (option Q)) : World :=
  mkWorld (environ W) (path_exists W) (path_isdir W) (listdir W)
          (getmtime W) (getsize W)
          (fun p => if pystr_eqb p path then header else duration_line W p)
          (fun p => if pystr_eqb p path then clip else clip_duration W p)
          (run W).

(** [W] in which a process is answered by [answer], given its command
    line. *)
Definition with_run (W : World) (answer : list pystr -> CompletedProcess) : World :=
  mkWorld (environ W) (path_exists W) (path_isdir W) (listdir W)
          (getmtime W) (getsize W) (duration_line W) (clip_duration W) answer.

End Host.
Import Host.

(** ** Exceptions *)

Inductive exn :=
  | FileNotFoundError (msg : pystr)
  | ValueError (msg : pystr)
  | RuntimeError (msg : pystr)
  | IndexError
  | OverflowError
  | ZeroDivisionError
  | OtherException.   (* whatever a library raises *)

Inductive result (A : Type) :=
  | Ok (a : A)
  | Raise (e : exn).
Arguments Ok {A} a.
Arguments Raise {A} e.

Definition bind {A B : Type} (r : result A) (k : A -> result B) : result B :=
  match r with
  | Ok a => k a
  | Raise e => Raise e
  end.

Notation "x <- r ;; k" := (bind r (fun x => k))
  (at level 61, r at next level, right associativity).

(** ** The quotient of two ints *)

Module PyFloat.

(** The double nearest to [x], ties to the even significand, as the
    rational it is; [OverflowError] beyond the largest double. *)
Definition to_double (x : Q) : result Q :=
  if Qeq_bool x 0 then Ok 0%Q
  else
    let e := Z.max (floor_log2 x - 52) (-1074) in
    let unit := if 0 <=? e then inject_Z (2 ^ e) else 1 # Z.to_pos (2 ^ (- e)) in
    let m := py_round (Qabs x / unit) in
    let r := (inject_Z m * unit)%Q in
    if Qle_bool (inject_Z (2 ^ 1024)) r then Raise OverflowError
    else Ok (match Qnum x with Z.neg _ => (- r)%Q | _ => r end).

(** [a / b] on two ints. *)
Definition int_truediv (a b : Z) : result Q :=
  if b =? 0 then Raise ZeroDivisionError
  else to_double ((Z.sgn b * a) # Z.to_pos (Z.abs b)).

(** *** Facts about rounding *)

(** [to_double] is [nearest], with the overflow of Python's division. *)
Lemma to_double_cases (x : Q) :
  (to_double x = Ok (nearest x) /\ (Qabs (nearest x) < inject_Z (2 ^ 1024))%Q)
  \/ (to_double x = Raise OverflowError /\ (inject_Z (2 ^ 1024) <= Qabs (nearest x))%Q).
Proof.
  unfold to_double, nearest. destruct (Qeq_bool x 0) eqn:E0.
  { left. split; [reflexivity|]. reflexivity. }
  cbv zeta.
  change (if 0 <=? Z.max (floor_log2 x - 52) (-1074)
          then inject_Z (2 ^ Z.max (floor_log2 x - 52) (-1074))
          else 1 # Z.to_pos (2 ^ (- Z.max (floor_log2 x - 52) (-1074))))
    with (ulp x).
  set (r := (inject_Z (py_round (Qabs x / ulp x)) * ulp x)%Q).
  assert (Hr : (0 <= r)%Q).
  { unfold r. apply Qmult_le_0_compat; [|apply Qlt_le_weak, ulp_pos].
    change 0%Q with (inject_Z 0). rewrite <- Zle_Qle. apply py_round_nonneg.
    apply Qle_shift_div_l; [apply ulp_pos|]. rewrite Qmult_0_l. apply Qabs_nonneg. }
  assert (Ea : Qabs (match Qnum x with Z.neg _ => (- r)%Q | _ => r end) == r).
  { destruct (Qnum x); [now apply Qabs_pos | now apply Qabs_pos |].
    rewrite Qabs_opp. now apply Qabs_pos. }
  destruct (Qle_bool (inject_Z (2 ^ 1024)) r) eqn:Eo.
  - right. split; [reflexivity|]. rewrite Ea. now apply Qle_bool_iff.
  - left. split; [reflexivity|]. rewrite Ea. apply Qnot_le_lt. intro H.
    apply Qle_bool_iff in H. congruence.
Qed.

Lemma floor_log2_sixteenths (m : Z) :
  0 < Z.abs m < 2 ^ 53 -> floor_log2 (m # 16) <= 48.
Proof.
  intros [Hpos Hlt]. unfold floor_log2. cbn [Qnum Qden].
  change (Z.log2 (Z.pos 16)) with 4.
  assert (Z.log2 (Z.abs m) < 53) by (apply Z.log2_lt_pow2; lia).
  destruct (if 0 <=? Z.log2 (Z.abs m) - 4 then _ else _); lia.
Qed.

Lemma int_truediv_sixteenths (m : Z) :
  Z.abs m < 2 ^ 53 ->
  exists r, int_truediv m 16 = Ok r /\ r == m # 16.
Proof.
  intro Hm. unfold int_truediv. change (16 =? 0) with false. cbv iota.
  change (Z.sgn 16) with 1. change (Z.to_pos (Z.abs 16)) with 16%positive.
  rewrite Z.mul_1_l. unfold to_double.
  destruct (Qeq_bool (m # 16) 0) eqn:E0.
  { exists 0%Q. split; [reflexivity|]. apply Qeq_bool_eq in E0. now symmetry. }
  assert (Hm0 : m <> 0).
  { intro; subst. discriminate. }
  pose proof (floor_log2_sixteenths m ltac:(lia)) as Hfl.
  set (e := Z.max (floor_log2 (m # 16) - 52) (-1074)).
  assert (He : -1074 <= e <= -4) by (unfold e; lia).
  destruct (0 <=? e) eqn:Ee; [apply Z.leb_le in Ee; lia|].
  set (P := Z.to_pos (2 ^ (- e))).
  assert (HP : Z.pos P = 2 ^ (- e - 4) * 16).
  { unfold P. rewrite Z2Pos.id by (apply Z.pow_pos_nonneg; lia).
    replace (- e) with ((- e - 4) + 4) at 1 by lia.
    rewrite Z.pow_add_r by lia. reflexivity. }
  assert (Hs : Qabs (m # 16) / (1 # P) == inject_Z (Z.abs m * 2 ^ (- e - 4))).
  { unfold Qdiv, Qinv, Qmult, Qeq, Qabs, inject_Z. cbn [Qnum Qden].
    rewrite Pos2Z.inj_mul, HP. ring. }
  rewrite (py_round_comp _ _ Hs), py_round_Z.
  set (r := (inject_Z (Z.abs m * 2 ^ (- e - 4)) * (1 # P))%Q).
  assert (Hr : r == Z.abs m # 16).
  { unfold r, Qmult, Qeq, inject_Z. cbn [Qnum Qden].
    rewrite Pos2Z.inj_mul, HP. ring. }
  destruct (Qle_bool (inject_Z (2 ^ 1024)) r) eqn:Eo.
  { exfalso. apply Qle_bool_iff in Eo. rewrite Hr in Eo.
    unfold Qle, inject_Z in Eo. cbn [Qnum Qden] in Eo.
    assert (2 ^ 53 < 2 ^ 1024) by (apply Z.pow_lt_mono_r; lia).
    lia. }
  eexists. split; [reflexivity|].
  cbn [Qnum]. destruct m as [|p|p]; [congruence | exact Hr |].
  rewrite Hr. reflexivity.
Qed.
End PyFloat.
Import PyFloat.

(** ** The encoder ([_render_webm_with_ffmpeg], [_render_mp4_with_ffmpeg]) *)

Module Encoder.

Section Config.

Variable R : Runtime.
Variable W : World.

(** [int(os.environ.get(key, default))], [fallback] when [int] raises. *)
Definition env_int (key default : pystr) (fallback : Z) : Z :=
  match py_int R (environ_get W key default) with
  | Some n => n
  | None => fallback
  end.

Definition _get_output_max_width : Z := env_int (lit "OUTPUT_MAX_WIDTH") (lit "1280") 1280.
Definition _get_output_fps : Z := env_int (lit "OUTPUT_FPS") (lit "30") 30.
Definition _get_vp9_cpu_used : Z := env_int (lit "VP9_CPU_USED") (lit "8") 8.
Definition _get_vp9_crf : Z := env_int (lit "VP9_CRF") (lit "40") 40.
Definition _get_use_vp8 : bool :=
  pystr_eqb (environ_get W (lit "USE_VP8") (lit "1")) (lit "1").

(** [str(os.cpu_count() or 4)]. *)
Definition threads : pystr :=
  str_of_Z (match cpu_count R with
            | Some n => if n =? 0 then 4 else n
            | None => 4
            end).

End Config.

(** [int(round(max_w * 9 / 16))]. *)
Definition target_height (max_w : Z) : result Z :=
  x <- int_truediv (max_w * 9) 16 ;;
  Ok (py_round x).

(** [bool(subtitle_path and os.path.exists(subtitle_path))]. *)
Definition has_subtitles (W : World) (subtitle_path : option pystr) : bool :=
  match subtitle_path with
  | None => false
  | Some p => truthy p && path_exists W p
  end.

(** The subtitle path as the [subtitles] filter takes it: forward
    slashes, every colon escaped. *)
Definition abs_sub (R : Runtime) (subtitle_path : pystr) : pystr :=
  replace_char 58%N (lit "\:") (replace_char 92%N (lit "/") (abspath R subtitle_path)).

Definition fps_filter (fps : Z) : pystr := lit "fps=" ++ str_of_Z fps.

Definition scale_filter (max_w max_h : Z) : pystr :=
  lit "scale=" ++ str_of_Z max_w ++ lit ":" ++ str_of_Z max_h
  ++ lit ":force_original_aspect_ratio=decrease:flags=fast_bilinear".

Definition pad_filter (max_w max_h : Z) : pystr :=
  lit "pad=" ++ str_of_Z max_w ++ lit ":" ++ str_of_Z max_h
  ++ lit ":(ow-iw)/2:(oh-ih)/2:color=0x303030".

Definition subtitles_filter (R : Runtime) (subtitle_path : pystr) : pystr :=
  lit "subtitles='" ++ abs_sub R subtitle_path ++ lit "'".

Definition format_filter : pystr := lit "format=yuv420p".

(** The list [vf_parts], built by the same appends in both renderers. *)
Definition vf_parts (R : Runtime) (W : World) (fps max_w max_h : Z)
  (subtitle_path : option pystr) : list pystr :=
  let vf_parts := [] in
  let vf_parts :=
    if has_subtitles W subtitle_path then vf_parts ++ [fps_filter fps] else vf_parts in
  let vf_parts := vf_parts ++ [scale_filter max_w max_h] in
  let vf_parts := vf_parts ++ [pad_filter max_w max_h] in
  let vf_parts :=
    if has_subtitles W subtitle_path
    then vf_parts ++ [subtitles_filter R (match subtitle_path with Some p => p | None => [] end)]
    else vf_parts in
  vf_parts ++ [format_filter].

(** The filter graph [vf] of a renderer that reads its width and frame
    rate from the environment. *)
Definition filter_graph (R : Runtime) (W : World) (subtitle_path : option pystr)
  : result pystr :=
  let fps := _get_output_fps R W in
  let max_w := _get_output_max_width R W in
  max_h <- target_height max_w ;;
  Ok (join (lit ",") (vf_parts R W fps max_w max_h subtitle_path)).

(** *** The command line *)

Definition concat_inputs (video_list audio_list : pystr) : list pystr :=
  [ lit "-f"; lit "concat"; lit "-safe"; lit "0"; lit "-i"; video_list;
    lit "-f"; lit "concat"; lit "-safe"; lit "0"; lit "-i"; audio_list ].

Definition common_head (R : Runtime) (video_list audio_list vf : pystr) : list pystr :=
  [ ffmpeg_exe R; lit "-y"; lit "-hide_banner"; lit "-loglevel"; lit "error";
    lit "-nostats" ]
  ++ concat_inputs video_list audio_list ++ [ lit "-vf"; vf ].

Definition webm_args (R : Runtime) (W : World)
  (video_list audio_list vf output_path : pystr) : list pystr :=
  let cpu_used := _get_vp9_cpu_used R W in
  let crf := _get_vp9_crf R W in
  if _get_use_vp8 W
  then common_head R video_list audio_list vf
       ++ [ lit "-c:v"; lit "libvpx"; lit "-deadline"; lit "realtime";
            lit "-cpu-used"; str_of_Z (Z.min cpu_used 16);
            lit "-threads"; threads R;
            lit "-b:v"; lit "1M"; lit "-qmin"; lit "4"; lit "-qmax"; lit "50";
            lit "-c:a"; lit "libopus"; lit "-b:a"; lit "64k"; lit "-vbr"; lit "on";
            lit "-shortest"; output_path ]
  else common_head R video_list audio_list vf
       ++ [ lit "-c:v"; lit "libvpx-vp9"; lit "-deadline"; lit "realtime";
            lit "-cpu-used"; str_of_Z cpu_used; lit "-row-mt"; lit "1";
            lit "-threads"; threads R;
            lit "-b:v"; lit "0"; lit "-crf"; str_of_Z crf;
            lit "-c:a"; lit "libopus"; lit "-b:a"; lit "64k"; lit "-vbr"; lit "on";
            lit "-shortest"; output_path ].

Definition mp4_args (R : Runtime)
  (video_list audio_list vf output_path : pystr) : list pystr :=
  common_head R video_list audio_list vf
  ++ [ lit "-c:v"; lit "libx264"; lit "-preset"; lit "veryfast"; lit "-crf"; lit "23";
       lit "-threads"; threads R;
       lit "-c:a"; lit "aac"; lit "-b:a"; lit "128k";
       lit "-movflags"; lit "+faststart"; lit "-shortest"; output_path ].

(** *** Failure of the encoder *)

(** The local function [safe_decode]: utf-8, then cp932, then utf-8 with
    replacement characters. *)
Definition safe_decode (R : Runtime) (b : bytes) : pystr :=
  match utf8_decode b with
  | Some s => s
  | None =>
      match cp932_decode R b with
      | Some s => s
      | None => utf8_decode_replace R b
      end
  end.

(** [proc.stderr or b""]. *)
Definition stderr_bytes (proc : CompletedProcess) : bytes :=
  match stderr proc with
  | Some b => b
  | None => []
  end.

Definition failure_message (code : Z) (err : pystr) : pystr :=
  lit "FFmpeg failed (code=" ++ str_of_Z code ++ lit "): " ++ err.

(** The two output families. *)
Inductive Format := Webm | Mp4.

(** What follows [subprocess.run] in a renderer.  The WebM renderer also
    reads [proc.stdout], which is [None] under [stdout=DEVNULL] and
    becomes [b""]. *)
Definition check_exit (R : Runtime) (fmt : Format) (proc : CompletedProcess)
  : result unit :=
  if negb (returncode proc =? 0) then
    let stderr := stderr_bytes proc in
    let err :=
      match fmt with
      | Webm => let stdout := [] in strip (str_or (safe_decode R stderr) (safe_decode R stdout))
      | Mp4 => strip (safe_decode R stderr)
      end in
    Raise (RuntimeError (failure_message (returncode proc) err))
  else Ok tt.

(** *** The renderers *)

Definition written (r : option (list ConcatList.Line)) : result unit :=
  match r with
  | Some _ => Ok tt
  | None => Raise IndexError
  end.

Definition render_args (R : Runtime) (W : World) (fmt : Format)
  (output_path temp_dir : pystr) (subtitle_path : option pystr) (max_h : Z)
  : list pystr :=
  let fps := _get_output_fps R W in
  let max_w := _get_output_max_width R W in
  let video_list := path_join R temp_dir (lit "__video_concat.txt") in
  let audio_list := path_join R temp_dir (lit "__audio_concat.txt") in
  let vf := join (lit ",") (vf_parts R W fps max_w max_h subtitle_path) in
  match fmt with
  | Webm => webm_args R W video_list audio_list vf output_path
  | Mp4 => mp4_args R video_list audio_list vf output_path
  end.

Definition render (R : Runtime) (W : World) (fmt : Format)
  (slides : list _SlideItem) (output_path temp_dir : pystr)
  (subtitle_path : option pystr) : result unit :=
  let max_w := _get_output_max_width R W in
  _ <- written (ConcatList.video_concat (abspath R) slides) ;;
  _ <- written (ConcatList.audio_concat (abspath R) slides) ;;
  max_h <- target_height max_w ;;
  let args := render_args R W fmt output_path temp_dir subtitle_path max_h in
  check_exit R fmt (run W args).

Definition _render_webm_with_ffmpeg (R : Runtime) (W : World) :=
  render R W Webm.

Definition _render_mp4_with_ffmpeg (R : Runtime) (W : World) :=
  render R W Mp4.

(** *** The canvas *)

Lemma py_round_sixteenths (m : Z) :
  Z.abs (16 * py_round (m # 16) - m) <= 8
  /\ (m mod 16 = 0 -> 16 * py_round (m # 16) = m).
Proof.
  pose proof (py_round_near (m # 16)) as [Hlo Hhi].
  set (h := py_round (m # 16)) in *.
  unfold Qle, Qminus, Qplus, Qopp, inject_Z in Hlo, Hhi. cbn [Qnum Qden] in Hlo, Hhi.
  assert (Hb : Z.abs (16 * h - m) <= 8) by lia.
  split; [exact Hb|]. intro Hmod.
  pose proof (Z_div_mod_eq_full m 16). lia.
Qed.

Lemma vf_parts_cases (R : Runtime) (W : World) (fps max_w max_h : Z)
  (subtitle_path : option pystr) :
  vf_parts R W fps max_w max_h subtitle_path
  = match subtitle_path with
    | Some p =>
        if truthy p && path_exists W p
        then [ fps_filter fps; scale_filter max_w max_h; pad_filter max_w max_h;
               subtitles_filter R p; format_filter ]
        else [ scale_filter max_w max_h; pad_filter max_w max_h; format_filter ]
    | None => [ scale_filter max_w max_h; pad_filter max_w max_h; format_filter ]
    end.
Proof.
  unfold vf_parts, has_subtitles.
  destruct subtitle_path as [p|]; [|reflexivity].
  destruct (truthy p && path_exists W p); reflexivity.
Qed.

(** The text of the list [vf_parts]: the two filters of the canvas
    between the optional frame rate and the optional subtitles, and the
    pixel format last. *)
Lemma vf_parts_text (R : Runtime) (W : World) (fps max_w max_h : Z)
  (subtitle_path : option pystr) :
  let scale := lit "scale=" ++ str_of_Z max_w ++ lit ":" ++ str_of_Z max_h
               ++ lit ":force_original_aspect_ratio=decrease:flags=fast_bilinear" in
  let pad := lit "pad=" ++ str_of_Z max_w ++ lit ":" ++ str_of_Z max_h
             ++ lit ":(ow-iw)/2:(oh-ih)/2:color=0x303030" in
  exists pre post,
    vf_parts R W fps max_w max_h subtitle_path
    = pre ++ [scale; pad] ++ post ++ [lit "format=yuv420p"] /\
    (pre = [] \/ pre = [lit "fps=" ++ str_of_Z fps]) /\
    (post = [] \/ exists path, post = [lit "subtitles='" ++ path ++ lit "'"]) /\
    Forall (fun part => startswith (lit "crop") part = false)
           (vf_parts R W fps max_w max_h subtitle_path).
Proof.
  intros scale pad. rewrite vf_parts_cases.
  destruct subtitle_path as [p|]; [destruct (truthy p && path_exists W p)|].
  - exists [lit "fps=" ++ str_of_Z fps], [lit "subtitles='" ++ abs_sub R p ++ lit "'"].
    split; [reflexivity|]. split; [now right|]. split; [right; now exists (abs_sub R p)|].
    repeat constructor.
  - exists [], []. split; [reflexivity|]. split; [now left|]. split; [now left|].
    repeat constructor.
  - exists [], []. split; [reflexivity|]. split; [now left|]. split; [now left|].
    repeat constructor.
Qed.

Lemma target_height_cases (max_w : Z) :
  let q := max_w * 9 # 16 in
  (target_height max_w = Ok (py_round (nearest q)) /\
   (Qabs (nearest q) < inject_Z (2 ^ 1024))%Q)
  \/ (target_height max_w = Raise OverflowError /\
      (inject_Z (2 ^ 1024) <= Qabs (nearest q))%Q).
Proof.
  intro q. unfold target_height, int_truediv. change (16 =? 0) with false. cbv iota.
  change (Z.sgn 16) with 1. change (Z.to_pos (Z.abs 16)) with 16%positive.
  rewrite Z.mul_1_l. fold q.
  destruct (to_double_cases q) as [[E H] | [E H]]; rewrite E; [left | right];
    (split; [reflexivity | exact H]).
Qed.

(** C8, as the code has it.  For every requested width the division
    either raises [OverflowError], which only happens for a width of
    2^1023 pixels or more, or gives the target height
    [round(width * 9 / 16)] computed on doubles: the integer nearest to
    the double nearest to nine sixteenths of the width, hence within
    half a pixel, and a relative 2^-53, of nine sixteenths of the width.
    For a width of at most 2^49 pixels the quotient is exact: the height
    is the integer nearest to nine sixteenths of the width (a tie to the
    even one), exactly 16:9 when the width is a multiple of 16.  The
    graph scales into this width and height keeping the aspect ratio
    and pads to this width and height; nothing else depends on the
    slide images, and no filter of the graph crops. *)
Theorem target_height_sixteen_nine (max_w : Z) :
  match target_height max_w with
  | Ok max_h =>
      (exists x, int_truediv (max_w * 9) 16 = Ok x /\ max_h = py_round x) /\
      (Qabs (inject_Z max_h - (max_w * 9 # 16))
       <= (1 # 2) + Qabs (max_w * 9 # 16) * pow2 (-53))%Q /\
      (Z.abs max_w <= 2 ^ 49 ->
       max_h = py_round (max_w * 9 # 16) /\
       Z.abs (16 * max_h - 9 * max_w) <= 8 /\
       (max_w mod 16 = 0 -> 16 * max_h = 9 * max_w)) /\
      forall (R : Runtime) (W : World) (fps : Z) (subtitle_path : option pystr),
        let parts := vf_parts R W fps max_w max_h subtitle_path in
        exists pre post,
          parts
          = pre
            ++ [ lit "scale=" ++ str_of_Z max_w ++ lit ":" ++ str_of_Z max_h
                 ++ lit ":force_original_aspect_ratio=decrease:flags=fast_bilinear";
                 lit "pad=" ++ str_of_Z max_w ++ lit ":" ++ str_of_Z max_h
                 ++ lit ":(ow-iw)/2:(oh-ih)/2:color=0x303030" ]
            ++ post ++ [lit "format=yuv420p"] /\
          (pre = [] \/ pre = [lit "fps=" ++ str_of_Z fps]) /\
          (post = [] \/ exists path, post = [lit "subtitles='" ++ path ++ lit "'"]) /\
          Forall (fun part => startswith (lit "crop") part = false) parts
  | Raise e => e = OverflowError /\ 2 ^ 1023 <= Z.abs max_w
  end.
Proof.
  set (q := max_w * 9 # 16).
  pose proof (target_height_cases max_w) as C. cbv zeta in C. fold q in C.
  destruct C as [[E Hfin] | [E Hinf]]; rewrite E.
  - split; [|split; [|split]].
    + exists (nearest q). split; [|reflexivity].
      revert E. unfold target_height.
      destruct (int_truediv (max_w * 9) 16) as [x|e] eqn:Ex; cbn [bind]; [|discriminate].
      unfold int_truediv in Ex. change (16 =? 0) with false in Ex. cbv iota in Ex.
      change (Z.sgn 16) with 1 in Ex. change (Z.to_pos (Z.abs 16)) with 16%positive in Ex.
      rewrite Z.mul_1_l in Ex. fold q in Ex.
      destruct (to_double_cases q) as [[E' _] | [E' _]]; rewrite E' in Ex; congruence.
    + destruct (py_round_near (nearest q)) as [N1 N2].
      assert (Hh : (Qabs (inject_Z (py_round (nearest q)) - nearest q) <= 1 # 2)%Q).
      { apply Qabs_Qle_condition. split; lra. }
      assert (Hx : (Qabs (nearest q - q) <= Qabs q * pow2 (-53))%Q).
      { destruct (Z.eq_dec max_w 0) as [-> | Hw].
        - vm_compute. discriminate.
        - apply nearest_relative_error.
          apply Qle_trans with (1 # 2)%Q; [vm_compute; discriminate|].
          unfold q, Qabs, Qle. cbn [Qnum Qden]. lia. }
      setoid_replace (inject_Z (py_round (nearest q)) - q)%Q
        with ((inject_Z (py_round (nearest q)) - nearest q) + (nearest q - q))%Q by ring.
      eapply Qle_trans; [apply Qabs_triangle|]. lra.
    + intro Hw.
      assert (H53 : Z.abs (max_w * 9) < 2 ^ 53).
      { change (2 ^ 53) with (2 ^ 49 * 16). lia. }
      destruct (int_truediv_sixteenths (max_w * 9) H53) as [r [Er Hr]].
      destruct (py_round_sixteenths (max_w * 9)) as [Hb Hx].
      assert (Eh : py_round (nearest q) = py_round q).
      { revert E. unfold target_height. rewrite Er. cbn [bind]. intro E.
        injection E as E1. rewrite <- E1. now apply py_round_comp. }
      rewrite Eh. fold q in Hb, Hx. split; [reflexivity|]. split; [lia|].
      intro Hmod. rewrite Hx; [lia|]. rewrite Z.mul_mod, Hmod by lia. reflexivity.
    + intros R W fps subtitle_path parts. subst parts. apply vf_parts_text.
  - split; [reflexivity|].
    assert (N : ~ q == 0).
    { intro E0. rewrite (nearest_zero q E0) in Hinf. revert Hinf. vm_compute.
      intro H. now apply H. }
    pose proof (nearest_abs_upper q N) as Hup.
    destruct (floor_log2_spec q N) as [S1 _].
    assert (Hk : 1023 <= floor_log2 q).
    { destruct (Z_le_gt_dec 1023 (floor_log2 q)) as [L | G]; [exact L|].
      pose proof (pow2_lt (floor_log2 q + 1) 1024 ltac:(lia)) as H.
      change (pow2 1024) with (inject_Z (2 ^ 1024)) in H. lra. }
    pose proof (pow2_le 1023 (floor_log2 q) Hk) as H.
    assert (Hq : (inject_Z (2 ^ 1023) <= Qabs q)%Q).
    { change (inject_Z (2 ^ 1023)) with (pow2 1023). lra. }
    unfold q, Qabs, Qle, inject_Z in Hq. cbn [Qnum Qden] in Hq.
    assert (0 < 2 ^ 1023) by (apply Z.pow_pos_nonneg; lia). lia.
Qed.

(** Scenario C: width 1920 gives the canvas 1920x1080, whatever the
    slide images are. *)
Lemma target_height_1920 :
  target_height 1920 = Ok 1080 /\
  forall (R : Runtime) (W : World) (fps : Z) (subtitle_path : option pystr),
  exists pre post,
    vf_parts R W fps 1920 1080 subtitle_path
    = pre
      ++ [ lit "scale=1920:1080:force_original_aspect_ratio=decrease:flags=fast_bilinear";
           lit "pad=1920:1080:(ow-iw)/2:(oh-ih)/2:color=0x303030" ]
      ++ post ++ [lit "format=yuv420p"] /\
    Forall (fun part => startswith (lit "crop") part = false)
           (vf_parts R W fps 1920 1080 subtitle_path).
Proof.
  pose proof (target_height_sixteen_nine 1920) as T.
  assert (E : target_height 1920 = Ok 1080) by (vm_compute; reflexivity).
  rewrite E in T. destruct T as [_ [_ [_ T]]].
  split; [exact E|]. intros R W fps subtitle_path.
  destruct (T R W fps subtitle_path) as [pre [post [P1 [_ [_ P2]]]]].
  exists pre, post. split; [exact P1 | exact P2].
Defined.

(** C8, as stated, fails on widths beyond the range of the doubles.
    The width 2^1030 has no height: the division raises
    [OverflowError].  The width 16 * (2^50 + 1) is a multiple of 16, and
    its height is not nine sixteenths of it: the quotient 9 * 2^50 + 9
    is not a double, and the double next to it is rounded to. *)
Lemma target_height_of_huge_widths :
  target_height (2 ^ 1030) = Raise OverflowError /\
  (let max_w := 16 * (2 ^ 50 + 1) in
   max_w mod 16 = 0 /\
   py_round (max_w * 9 # 16) = 9 * 2 ^ 50 + 9 /\
   target_height max_w = Ok (9 * 2 ^ 50 + 8) /\
   16 * (9 * 2 ^ 50 + 8) <> 9 * max_w).
Proof. vm_compute. repeat split; intro H; discriminate H. Qed.

(** *** The filter graph *)

(** Every colon of [s] stands right after a backslash. *)
Fixpoint colons_escaped (after_backslash : bool) (s : pystr) : bool :=
  match s with
  | [] => true
  | c :: s' =>
      if (c =? 58)%N then after_backslash && colons_escaped false s'
      else colons_escaped (c =? 92)%N s'
  end.

Lemma replace_colons_escaped (s : pystr) (after_backslash : bool) :
  colons_escaped after_backslash (replace_char 58%N (lit "\:") s) = true.
Proof.
  revert after_backslash. induction s as [|c s IH]; intro b; [reflexivity|].
  unfold replace_char in *. cbn [flat_map].
  destruct (c =? 58)%N eqn:E.
  - cbn. apply IH.
  - cbn [app colons_escaped]. rewrite E. apply IH.
Qed.

Lemma render_args_vf (R : Runtime) (W : World) (fmt : Format)
  (output_path temp_dir : pystr) (subtitle_path : option pystr) (max_h : Z) :
  let vf := join (lit ",")
              (vf_parts R W (_get_output_fps R W) (_get_output_max_width R W)
                        max_h subtitle_path) in
  exists before after,
    render_args R W fmt output_path temp_dir subtitle_path max_h
    = before ++ [lit "-vf"; vf] ++ after.
Proof.
  intro vf. unfold render_args. fold vf.
  set (v := path_join R temp_dir (lit "__video_concat.txt")).
  set (a := path_join R temp_dir (lit "__audio_concat.txt")).
  exists ([ ffmpeg_exe R; lit "-y"; lit "-hide_banner"; lit "-loglevel"; lit "error";
            lit "-nostats" ] ++ concat_inputs v a).
  destruct fmt; [unfold webm_args; destruct (_get_use_vp8 W) | unfold mp4_args];
    eexists; unfold common_head; rewrite <- !app_assoc; reflexivity.
Qed.

(** A path with every backslash turned into a forward slash. *)
Definition forward_slashes (s : pystr) : pystr :=
  map (fun c => if (c =? 92)%N then 47%N else c) s.

(** A filter argument with its escapes removed: the backslashes go. *)
Definition unescaped (s : pystr) : pystr := filter (fun c => negb (c =? 92)%N) s.

Lemma replace_backslashes (s : pystr) :
  replace_char 92%N (lit "/") s = forward_slashes s.
Proof.
  unfold replace_char, forward_slashes. induction s as [|c s IH]; [reflexivity|].
  cbn [flat_map map]. rewrite IH. destruct (c =? 92)%N; reflexivity.
Qed.

Lemma unescaped_escaped_colons (s : pystr) :
  forallb (fun c => negb (c =? 92)%N) s = true ->
  unescaped (replace_char 58%N (lit "\:") s) = s.
Proof.
  unfold unescaped, replace_char. induction s as [|c s IH]; [reflexivity|].
  cbn [forallb flat_map]. intro H. apply andb_true_iff in H. destruct H as [Hc Hs].
  rewrite filter_app, (IH Hs).
  destruct (c =? 58)%N eqn:E.
  - apply N.eqb_eq in E. subst c. reflexivity.
  - cbn [filter]. rewrite Hc. reflexivity.
Qed.

Lemma forward_slashes_no_backslash (s : pystr) :
  forallb (fun c => negb (c =? 92)%N) (forward_slashes s) = true.
Proof.
  unfold forward_slashes. induction s as [|c s IH]; [reflexivity|].
  cbn [map forallb]. rewrite IH, andb_true_r.
  destruct (c =? 92)%N eqn:E; [reflexivity | now rewrite E].
Qed.

(** The path in the [subtitles] filter names the subtitle file: without
    its escapes it is the absolute path of the file, forward slashes
    for backslashes. *)
Lemma abs_sub_names_file (R : Runtime) (subtitle_path : pystr) :
  colons_escaped false (abs_sub R subtitle_path) = true /\
  unescaped (abs_sub R subtitle_path) = forward_slashes (abspath R subtitle_path).
Proof.
  unfold abs_sub. split; [apply replace_colons_escaped|].
  rewrite replace_backslashes.
  apply unescaped_escaped_colons, forward_slashes_no_backslash.
Qed.

(** C6.  For every encode invocation of either renderer the filter graph
    handed to the encoder after [-vf] is the comma-separated list of,
    in this order: [fps=N] (present exactly when a subtitle path is
    given, is not empty and exists), the [scale] filter to the target
    width and height with [force_original_aspect_ratio=decrease], the
    [pad] filter to the same width and height, the [subtitles] filter
    (present under the same condition) and [format=yuv420p].  The path
    in the [subtitles] filter has every colon escaped by a backslash
    and, without these backslashes, is the absolute path of the
    subtitle file with forward slashes. *)
Theorem filter_graph_order (R : Runtime) (W : World) (fmt : Format)
  (output_path temp_dir : pystr) (subtitle_path : option pystr) (max_h : Z) :
  let fps := lit "fps=" ++ str_of_Z (_get_output_fps R W) in
  let max_w := _get_output_max_width R W in
  let scale := lit "scale=" ++ str_of_Z max_w ++ lit ":" ++ str_of_Z max_h
               ++ lit ":force_original_aspect_ratio=decrease:flags=fast_bilinear" in
  let pad := lit "pad=" ++ str_of_Z max_w ++ lit ":" ++ str_of_Z max_h
             ++ lit ":(ow-iw)/2:(oh-ih)/2:color=0x303030" in
  let format := lit "format=yuv420p" in
  exists before vf after,
    render_args R W fmt output_path temp_dir subtitle_path max_h
    = before ++ [lit "-vf"; vf] ++ after /\
    match subtitle_path with
    | Some p =>
        if truthy p && path_exists W p
        then
          has_subtitles W subtitle_path = true /\
          exists path,
            vf = join (lit ",") [fps; scale; pad; lit "subtitles='" ++ path ++ lit "'"; format] /\
            vf = fps ++ lit "," ++ scale ++ lit "," ++ pad ++ lit ","
                 ++ (lit "subtitles='" ++ path ++ lit "'") ++ lit "," ++ format /\
            colons_escaped false path = true /\
            unescaped path = forward_slashes (abspath R p)
        else
          has_subtitles W subtitle_path = false /\
          vf = join (lit ",") [scale; pad; format] /\
          vf = scale ++ lit "," ++ pad ++ lit "," ++ format
    | None =>
        has_subtitles W subtitle_path = false /\
        vf = join (lit ",") [scale; pad; format] /\
        vf = scale ++ lit "," ++ pad ++ lit "," ++ format
    end.
Proof.
  intros fps max_w scale pad format.
  destruct (render_args_vf R W fmt output_path temp_dir subtitle_path max_h)
    as [before [after E]].
  exists before. eexists. exists after. split; [exact E|].
  fold max_w. rewrite vf_parts_cases. unfold has_subtitles.
  destruct subtitle_path as [p|].
  - destruct (truthy p && path_exists W p).
    + split; [reflexivity|]. exists (abs_sub R p).
      split; [reflexivity|]. split; [reflexivity|]. apply abs_sub_names_file.
    + repeat split.
  - repeat split.
Qed.

(** *** The failure message *)

Lemma startswith_app (p s : pystr) : startswith p (p ++ s) = true.
Proof.
  induction p as [|c p IH]; simpl; [reflexivity|].
  now rewrite N.eqb_refl, IH.
Qed.

Lemma contains_infix (pre sub post : pystr) :
  contains sub (pre ++ sub ++ post) = true.
Proof.
  induction pre as [|c pre IH].
  - pose proof (startswith_app sub post) as H. cbn [app].
    destruct (sub ++ post); cbn [contains]; now rewrite H.
  - cbn [app contains]. rewrite IH. apply orb_true_r.
Qed.

Lemma str_or_nil_r (a : pystr) : str_or a [] = a.
Proof. destruct a; reflexivity. Qed.

Lemma check_exit_failure (R : Runtime) (fmt : Format) (proc : CompletedProcess) :
  returncode proc <> 0 ->
  check_exit R fmt proc
  = Raise (RuntimeError (failure_message (returncode proc)
                                         (strip (safe_decode R (stderr_bytes proc))))).
Proof.
  intro Hrc. unfold check_exit.
  destruct (returncode proc =? 0) eqn:E; [apply Z.eqb_eq in E; contradiction|].
  simpl negb. cbv iota.
  destruct fmt; [|reflexivity].
  change (safe_decode R []) with (@nil N). now rewrite str_or_nil_r.
Qed.

Lemma video_concat_ok (abspath : pystr -> pystr) (slides : list _SlideItem) :
  written (ConcatList.video_concat abspath slides) = Ok tt.
Proof.
  destruct slides as [|s0 rest]; [reflexivity|].
  now rewrite ConcatList.video_concat_lines.
Qed.

Lemma audio_concat_ok (abspath : pystr -> pystr) (slides : list _SlideItem) :
  written (ConcatList.audio_concat abspath slides) = Ok tt.
Proof. now rewrite ConcatList.audio_concat_lines. Qed.

(** C7, as the code has it.  For every run of either renderer in which
    the encoder process exits with a non-zero code, the renderer raises
    one [RuntimeError]; its message is [FFmpeg failed (code=N): ]
    followed by the diagnostic stream decoded as utf-8, else as cp932,
    else as utf-8 with replacement, with the white space at both ends
    of the decoded text removed.  The message contains the exit code
    and the trimmed text. *)
Theorem render_failure_message (R : Runtime) (W : World) (fmt : Format)
  (slides : list _SlideItem) (output_path temp_dir : pystr)
  (subtitle_path : option pystr) (max_h : Z) :
  target_height (_get_output_max_width R W) = Ok max_h ->
  let proc := run W (render_args R W fmt output_path temp_dir subtitle_path max_h) in
  returncode proc <> 0 ->
  let raw := stderr_bytes proc in
  let decoded := safe_decode R raw in
  let msg := lit "FFmpeg failed (code=" ++ str_of_Z (returncode proc) ++ lit "): "
             ++ strip decoded in
  render R W fmt slides output_path temp_dir subtitle_path = Raise (RuntimeError msg) /\
  contains (str_of_Z (returncode proc)) msg = true /\
  contains (strip decoded) msg = true /\
  match utf8_decode raw, cp932_decode R raw with
  | Some s, _ => decoded = s
  | None, Some s => decoded = s
  | None, None => decoded = utf8_decode_replace R raw
  end.
Proof.
  intros Hh proc Hrc raw decoded msg.
  split; [|split; [|split]].
  - unfold render. rewrite video_concat_ok, audio_concat_ok. cbn [bind].
    rewrite Hh. cbn [bind]. fold proc. now rewrite check_exit_failure.
  - subst msg. apply contains_infix.
  - subst msg.
    rewrite <- (app_nil_r (strip decoded)) at 2.
    rewrite app_assoc, app_assoc. apply contains_infix.
  - subst decoded. unfold safe_decode.
    destruct (utf8_decode raw); [reflexivity|].
    destruct (cp932_decode R raw); reflexivity.
Qed.

(** Scenario E: exit code 1 with the diagnostic text
    [no such filter: 'subtitles']. *)
Lemma scenario_E_missing_subtitles_filter :
  let R := example_runtime in
  let W := failing_world 1 (lit "no such filter: 'subtitles'") in
  let slides :=
    [ mkSlideItem 0 (lit "/out/temp/slide_000.png") (lit "/out/temp/slide_000.mp3")
                  (lit "Hello!") 4 ] in
  let output_path := lit "/out/output.webm" in
  let temp_dir := lit "/out/temp" in
  target_height (_get_output_max_width R W) = Ok 720 /\
  returncode (run W (render_args R W Webm output_path temp_dir None 720)) <> 0 /\
  render R W Webm slides output_path temp_dir None
  = Raise (RuntimeError (lit "FFmpeg failed (code=1): no such filter: 'subtitles'")) /\
  contains (lit "no such filter: 'subtitles'")
           (lit "FFmpeg failed (code=1): no such filter: 'subtitles'") = true.
Proof.
  intros R W slides output_path temp_dir.
  split; [reflexivity|]. split; [discriminate|].
  split; [|reflexivity].
  exact (proj1 (render_failure_message R W Webm slides output_path temp_dir None 720
                  eq_refl ltac:(discriminate))).
Defined.

(** C7, as stated, fails on the trimming: the encoder writes [boom] and
    a line feed; the decoded stream is these five characters, and the
    message of the failure ends with [boom], without the line feed. *)
Lemma failure_message_is_trimmed :
  let R := example_runtime in
  let W := failing_world 1 (lit "boom" ++ [10%N]) in
  let output_path := lit "/out/output.mp4" in
  let temp_dir := lit "/out/temp" in
  let proc := run W (render_args R W Mp4 output_path temp_dir None 720) in
  returncode proc = 1 /\
  safe_decode R (stderr_bytes proc) = lit "boom" ++ [10%N] /\
  render R W Mp4 [] output_path temp_dir None
  = Raise (RuntimeError (lit "FFmpeg failed (code=1): boom")) /\
  contains (safe_decode R (stderr_bytes proc)) (lit "FFmpeg failed (code=1): boom")
  = false.
Proof. repeat split. Qed.

End Encoder.

(** ** The slide resolver *)

Module Resolver.

(** The class [\d] of the [re] module on [str] patterns. *)
Definition is_decimal (R : Runtime) (c : N) : bool :=
  if (c <? 128)%N then ((48 <=? c) && (c <=? 57))%N else unicode_isdecimal R c.

Fixpoint take_while (f : N -> bool) (s : pystr) : pystr :=
  match s with
  | c :: s' => if f c then c :: take_while f s' else []
  | [] => []
  end.

Fixpoint drop_while (f : N -> bool) (s : pystr) : pystr :=
  match s with
  | c :: s' => if f c then drop_while f s' else s
  | [] => []
  end.

(** [re.match(r"^slide(?:[_-]?(\d+))$", stem)]: the group of digits, or
    [None] when there is no match.  [$] also matches before a line feed
    that ends the string. *)
Definition match_slide_stem (R : Runtime) (stem : pystr) : option pystr :=
  if startswith (lit "slide") stem then
    let rest := skipn 5 stem in
    let rest :=
      match rest with
      | c :: rest' => if ((c =? 95) || (c =? 45))%N then rest' else rest
      | [] => rest
      end in
    let digits := take_while (is_decimal R) rest in
    let tail := drop_while (is_decimal R) rest in
    if truthy digits && (pystr_eqb tail [] || pystr_eqb tail [10%N])
    then Some digits else None
  else None.

Definition _parse_slide_index_from_stem (R : Runtime) (stem : pystr) : option Z :=
  match match_slide_stem R stem with
  | None => None
  | Some digits => py_int R digits
  end.

(** The value [t] of the loop: the modification time, [-1.0] when
    [os.path.getmtime] raises. *)
Definition mtime_or_minus_one (W : World) (p : pystr) : Q :=
  match getmtime W p with
  | Some t => t
  | None => (-1)%Q
  end.

(** One turn of the loop over the candidates. *)
Definition newer (W : World) (acc : pystr * Q) (p : pystr) : pystr * Q :=
  let (best, best_t) := acc in
  let t := mtime_or_minus_one W p in
  if AssSubtitle.Qltb best_t t then (p, t) else (best, best_t).

(** [_pick_newest(paths)]; [None] is the [IndexError] on an empty list. *)
Definition _pick_newest (W : World) (paths : list pystr) : option pystr :=
  match paths with
  | [] => None
  | [p] => Some p
  | p0 :: _ => Some (fst (fold_left (newer W) paths (p0, (-1)%Q)))
  end.

(** [f"{n:03d}"]. *)
Definition format_03d (n : Z) : pystr :=
  if n <? 0 then lit "-" ++ zero_pad 2 (str_of_Z (- n)) else zero_pad 3 (str_of_Z n).

(** [_resolve_audio_path]: the first of four names that exists. *)
Definition _resolve_audio_path (R : Runtime) (W : World) (temp_dir : pystr)
  (slide_index : Z) : option pystr :=
  let candidates :=
    [ path_join R temp_dir (lit "slide_" ++ format_03d slide_index ++ lit ".mp3");
      path_join R temp_dir (lit "slide_" ++ str_of_Z slide_index ++ lit ".mp3");
      path_join R temp_dir (lit "audio_" ++ format_03d slide_index ++ lit ".mp3");
      path_join R temp_dir (lit "audio_" ++ str_of_Z slide_index ++ lit ".mp3") ] in
  find (path_exists W) candidates.

(** [by_index.setdefault(idx, []).append(path)] on a dict kept in
    insertion order. *)
Fixpoint setdefault_append (idx : Z) (path : pystr) (by_index : list (Z * list pystr))
  : list (Z * list pystr) :=
  match by_index with
  | [] => [(idx, [path])]
  | (k, paths) :: rest =>
      if k =? idx then (k, paths ++ [path]) :: rest
      else (k, paths) :: setdefault_append idx path rest
  end.

(** [Path(f).stem] for a directory entry whose name ends in a dot and
    three more characters. *)
Definition stem (f : pystr) : pystr :=
  if (4 <? length f)%nat then firstn (length f - 4) f else f.

(** The loop that fills [by_index] from [png_files]. *)
Definition group_by_index (R : Runtime) (temp_dir : pystr) (slides_count : option Z)
  (png_files : list pystr) : list (Z * list pystr) :=
  fold_left
    (fun by_index f =>
       match _parse_slide_index_from_stem R (stem f) with
       | None => by_index
       | Some idx =>
           if match slides_count with
              | Some n => n <=? idx
              | None => false
              end
           then by_index
           else setdefault_append idx (path_join R temp_dir f) by_index
       end)
    png_files [].

Fixpoint insert_sorted (k : Z) (l : list Z) : list Z :=
  match l with
  | [] => [k]
  | x :: l' => if k <=? x then k :: l else x :: insert_sorted k l'
  end.

(** [sorted(keys)] on ints. *)
Definition sorted (keys : list Z) : list Z := fold_right insert_sorted [] keys.

(** [by_index[i]]. *)
Definition candidates (by_index : list (Z * list pystr)) (i : Z) : list pystr :=
  match find (fun kv => fst kv =? i) by_index with
  | Some kv => snd kv
  | None => []
  end.

(** [image_indices] and [image_paths] of the non-legacy branch. *)
Definition resolve_images (R : Runtime) (W : World) (temp_dir : pystr)
  (slides_count : option Z) (png_files : list pystr) : list (Z * option pystr) :=
  let by_index := group_by_index R temp_dir slides_count png_files in
  let image_indices := sorted (map fst by_index) in
  map (fun i => (i, _pick_newest W (candidates by_index i))) image_indices.

(** *** What [_pick_newest] returns *)

(** The state of the loop after the candidates [seen]: either no
    candidate had a time above -1 and the first candidate still stands,
    or the best candidate is one of those seen, holds the largest time
    among them, and that time is above -1. *)
Definition loop_inv (W : World) (p0 : pystr) (seen : list pystr) (acc : pystr * Q) : Prop :=
  (acc = (p0, (-1)%Q) /\ Forall (fun p => (mtime_or_minus_one W p <= -1)%Q) seen)
  \/ (In (fst acc) seen /\ snd acc = mtime_or_minus_one W (fst acc) /\
      (-1 < snd acc)%Q /\
      Forall (fun p => (mtime_or_minus_one W p <= snd acc)%Q) seen).

Lemma newer_inv (W : World) (p0 : pystr) (seen : list pystr) (acc : pystr * Q)
  (p : pystr) :
  loop_inv W p0 seen acc -> loop_inv W p0 (seen ++ [p]) (newer W acc p).
Proof.
  intros [[E Hall] | [Hin [Et [Hpos Hall]]]].
  - subst acc. unfold newer.
    destruct (AssSubtitle.Qltb (-1) (mtime_or_minus_one W p)) eqn:Elt.
    + apply AssSubtitle.Qltb_lt in Elt. right. cbn [fst snd].
      split; [apply in_or_app; right; left; reflexivity|].
      split; [reflexivity|]. split; [exact Elt|].
      apply Forall_app. split.
      * eapply Forall_impl; [|exact Hall]. cbv beta. intros q Hq. lra.
      * constructor; [lra | constructor].
    + apply AssSubtitle.Qltb_ge in Elt. left. split; [reflexivity|].
      apply Forall_app. split; [exact Hall | constructor; [exact Elt | constructor]].
  - destruct acc as [best best_t]. cbn [fst snd] in *. unfold newer.
    destruct (AssSubtitle.Qltb best_t (mtime_or_minus_one W p)) eqn:Elt.
    + apply AssSubtitle.Qltb_lt in Elt. right. cbn [fst snd].
      split; [apply in_or_app; right; left; reflexivity|].
      split; [reflexivity|]. split; [lra|].
      apply Forall_app. split.
      * eapply Forall_impl; [|exact Hall]. cbv beta. intros q Hq. lra.
      * constructor; [lra | constructor].
    + apply AssSubtitle.Qltb_ge in Elt. right. cbn [fst snd].
      split; [apply in_or_app; left; exact Hin|].
      split; [exact Et|]. split; [exact Hpos|].
      apply Forall_app. split; [exact Hall | constructor; [exact Elt | constructor]].
Qed.

Lemma fold_newer_inv (W : World) (p0 : pystr) (todo seen : list pystr) (acc : pystr * Q) :
  loop_inv W p0 seen acc ->
  loop_inv W p0 (seen ++ todo) (fold_left (newer W) todo acc).
Proof.
  revert seen acc. induction todo as [|p todo IH]; intros seen acc H.
  - now rewrite app_nil_r.
  - cbn [fold_left].
    replace (seen ++ p :: todo) with ((seen ++ [p]) ++ todo)
      by (rewrite <- app_assoc; reflexivity).
    apply IH. now apply newer_inv.
Qed.

(** When some candidate has a modification time above -1 (any time
    stamp after 1969), the candidate picked is one of the list and none
    of the list is newer. *)
Lemma pick_newest_is_newest (W : World) (paths : list pystr) :
  Exists (fun p => (-1 < mtime_or_minus_one W p)%Q) paths ->
  exists best,
    _pick_newest W paths = Some best /\ In best paths /\
    Forall (fun p => (mtime_or_minus_one W p <= mtime_or_minus_one W best)%Q) paths.
Proof.
  intro Hex. destruct paths as [|p0 [|p1 rest]].
  - inversion Hex.
  - exists p0. split; [reflexivity|]. split; [left; reflexivity|].
    constructor; [lra | constructor].
  - set (paths := p0 :: p1 :: rest) in *.
    assert (Hinv : loop_inv W p0 paths (fold_left (newer W) paths (p0, (-1)%Q))).
    { apply (fold_newer_inv W p0 paths [] (p0, (-1)%Q)).
      left. split; [reflexivity | constructor]. }
    exists (fst (fold_left (newer W) paths (p0, (-1)%Q))).
    split; [reflexivity|].
    destruct Hinv as [[_ Hall] | [Hin [Et [_ Hall]]]].
    + exfalso. apply Exists_exists in Hex. destruct Hex as [q [Hq Hlt]].
      rewrite Forall_forall in Hall. specialize (Hall q Hq). lra.
    + split; [exact Hin|]. now rewrite <- Et.
Qed.

End Resolver.

(** ** Durations and the entry point ([combine_audio_video]) *)

Module Combine.

Import Resolver Encoder.

(** What a call does to the outside, in order. *)
Inductive Effect :=
  | SilenceSynthesised (path : pystr) (duration : Q)
  | SubtitleGenerated (path : pystr) (events : list AssSubtitle.Event)
  | RendererCalled (fmt : Format) (output_path : pystr).

(** The machine as a call has changed it so far, and what it has done. *)
Record State := mkState {
  world : World;
  effects : list Effect
}.

(** A computation that reads and changes the machine, records its
    effects, and may raise. *)
Definition M (A : Type) : Type := State -> State * result A.

Definition ret {A : Type} (a : A) : M A := fun st => (st, Ok a).
Definition raise {A : Type} (e : exn) : M A := fun st => (st, Raise e).
Definition lift {A : Type} (r : result A) : M A := fun st => (st, r).
Definition get_world : M World := fun st => (st, Ok (world st)).
Definition set_world (W : World) : M unit :=
  fun st => (mkState W (effects st), Ok tt).
Definition emit (ev : Effect) : M unit :=
  fun st => (mkState (world st) (effects st ++ [ev]), Ok tt).

Definition mbind {A B : Type} (m : M A) (k : A -> M B) : M B :=
  fun st =>
    match m st with
    | (st', Ok a) => k a st'
    | (st', Raise e) => (st', Raise e)
    end.

Notation "x <~ m ;; k" := (mbind m (fun x => k))
  (at level 61, m at next level, right associativity).

(** The effects and the result of a computation started in [W]. *)
Definition outcome {A : Type} (m : M A) (W : World) : list Effect * result A :=
  let (st, r) := m (mkState W []) in (effects st, r).

(** *** The duration of an audio file *)

(** [_get_audio_duration_seconds]: the header when it gives a positive
    duration, else MoviePy. *)
Definition _get_audio_duration_seconds (W : World) (path : pystr) : result Q :=
  let from_header :=
    match duration_line W path with
    | Some (h, mi, s) =>
        let dur := (inject_Z h * 3600 + inject_Z mi * 60 + s)%Q in
        if AssSubtitle.Qltb 0 dur then Some dur else None
    | None => None
    end in
  match from_header with
  | Some dur => Ok dur
  | None =>
      match clip_duration W path with
      | None => Raise OtherException
      | Some None => Ok 0%Q
      | Some (Some d) => Ok (if Qeq_bool d 0 then 0%Q else d)
      end
  end.

Definition _get_silence_slide_duration (R : Runtime) (W : World) : Q :=
  match py_float R (environ_get W (lit "SILENCE_SLIDE_DURATION") (lit "5")) with
  | Some x => x
  | None => 5%Q
  end.

Definition _file_exists_nonempty (W : World) (path : pystr) : bool :=
  path_exists W path
  && match getsize W path with
     | Some n => 0 <? n
     | None => false
     end.

(** [_ensure_silence_mp3] with the default sample rate. *)
Definition _ensure_silence_mp3 (R : Runtime) (path : pystr) (duration : Q) : M unit :=
  W <~ get_world ;;
  if _file_exists_nonempty W path then ret tt
  else
    let duration := if Qle_bool duration 0 then (1 # 100)%Q else duration in
    let args :=
      [ ffmpeg_exe R; lit "-y"; lit "-f"; lit "lavfi"; lit "-i";
        lit "anullsrc=r=" ++ str_of_Z 24000 ++ lit ":cl=mono";
        lit "-t"; format_f 6 duration;
        lit "-c:a"; lit "libmp3lame"; lit "-q:a"; lit "9"; path ] in
    let proc := run W args in
    if negb (returncode proc =? 0) then
      let stderr := stderr_bytes proc in
      let msg :=
        match utf8_decode stderr with
        | Some s => s
        | None => utf8_decode_replace R stderr
        end in
      raise (RuntimeError (lit "Failed to generate silence mp3: " ++ msg))
    else
      _ <~ emit (SilenceSynthesised path duration) ;;
      set_world (file_written W path).

(** *** One slide *)

(** The body shared by the two loops of [combine_audio_video], from
    [duration = silence_duration] to the construction of the slide. *)
Definition build_slide (R : Runtime) (temp_dir : pystr)
  (script_data : Z -> pystr) (silence_duration : Q)
  (img_path : pystr) (slide_index : Z) (audio_path : option pystr) : M _SlideItem :=
  W <~ get_world ;;
  let duration := silence_duration in
  let present :=
    match audio_path with
    | Some a => truthy a && path_exists W a
    | None => false
    end in
  let duration :=
    match audio_path with
    | Some a =>
        if present then
          match _get_audio_duration_seconds W a with
          | Ok d => d
          | Raise _ => duration
          end
        else duration
    | None => duration
    end in
  match (if present then audio_path else None) with
  | Some a => ret (mkSlideItem slide_index img_path a (script_data slide_index) duration)
  | None =>
      let a := path_join R temp_dir
                 (lit "_silence_" ++ format_03d slide_index ++ lit ".mp3") in
      _ <~ _ensure_silence_mp3 R a duration ;;
      ret (mkSlideItem slide_index img_path a (script_data slide_index) duration)
  end.

(** The duration [process_pdf_and_script] gives a page, with its clamp. *)
Definition pdf_slide_duration (R : Runtime) (W : World)
  (script_text audio_path : pystr) : result Q :=
  duration <-
    (if truthy (strip script_text)
     then if path_exists W audio_path
          then _get_audio_duration_seconds W audio_path
          else Ok (_get_silence_slide_duration R W)
     else Ok (_get_silence_slide_duration R W)) ;;
  Ok (if Qle_bool duration 0 then (1 # 100)%Q else duration).

(** [combine_audio_video] builds a slide without audio with the silence
    length as it is, whatever its sign. *)
Lemma build_slide_without_audio (R : Runtime) (temp_dir : pystr)
  (script_data : Z -> pystr) (silence_duration : Q) (img_path : pystr)
  (slide_index : Z) (st : State) (slide : _SlideItem) :
  snd (build_slide R temp_dir script_data silence_duration img_path slide_index None st)
  = Ok slide ->
  duration slide = silence_duration.
Proof.
  unfold build_slide, mbind, get_world, ret. cbn [fst snd].
  destruct (_ensure_silence_mp3 R _ silence_duration st) as [st' [[]|e]];
    cbn [snd]; intro E; inversion E; reflexivity.
Qed.

(** *** The slides of a run *)

Definition _select_temp_dir (R : Runtime) (W : World)
  (output_dir output_name : pystr) (temp_subdir : option pystr) : pystr :=
  let base := path_join R output_dir (lit "temp") in
  let scoped :=
    match temp_subdir with
    | Some sub =>
        if truthy sub && path_isdir W (path_join R base sub)
        then Some (path_join R base sub) else None
    | None => None
    end in
  match scoped with
  | Some cand => cand
  | None =>
      let cand2 := path_join R base output_name in
      if path_isdir W cand2 then cand2 else base
  end.

(** [a <= b] on strings: by code points, a prefix first. *)
Fixpoint pystr_leb (a b : pystr) : bool :=
  match a, b with
  | [], _ => true
  | _ :: _, [] => false
  | x :: a', y :: b' => (x <? y)%N || ((x =? y)%N && pystr_leb a' b')
  end.

Fixpoint insert_name (f : pystr) (l : list pystr) : list pystr :=
  match l with
  | [] => [f]
  | g :: l' => if pystr_leb g f then g :: insert_name f l' else f :: l
  end.

(** [sorted(names)] on strings. *)
Definition sorted_names (names : list pystr) : list pystr :=
  fold_left (fun acc f => insert_name f acc) names [].

(** [os.path.splitext(f)[0]] for a directory entry: the name up to its
    last dot, unless only dots stand before it. *)
Definition splitext_root (f : pystr) : pystr :=
  let ext := rev (take_while (fun c => negb (c =? 46)%N) (rev f)) in
  if (length ext <? length f)%nat then
    let root := firstn (length f - length ext - 1) f in
    if existsb (fun c => negb (c =? 46)%N) root then root else f
  else f.

(** [base.split('_')[-1]]. *)
Definition last_field (base : pystr) : pystr :=
  rev (take_while (fun c => negb (c =? 95)%N) (rev base)).

(** The loop of the legacy branch over [image_files]. *)
Fixpoint legacy_slides (R : Runtime) (temp_dir : pystr)
  (script_data : Z -> pystr) (silence_duration : Q) (mp3_files : list pystr)
  (image_files : list pystr) (slides : list _SlideItem) : M (list _SlideItem) :=
  match image_files with
  | [] => ret slides
  | img_file :: rest =>
      let base := splitext_root img_file in
      let audio_file := base ++ lit ".mp3" in
      let img_path := path_join R temp_dir img_file in
      let audio_path :=
        if existsb (pystr_eqb audio_file) mp3_files
        then Some (path_join R temp_dir audio_file) else None in
      let slide_index :=
        match py_int R (last_field base) with
        | Some n => n
        | None => Z.of_nat (length slides)
        end in
      slide <~ build_slide R temp_dir script_data silence_duration
                 img_path slide_index audio_path ;;
      legacy_slides R temp_dir script_data silence_duration mp3_files rest
                    (slides ++ [slide])
  end.

(** The loop of the other branch over [zip(image_paths, image_indices)]. *)
Fixpoint indexed_slides (R : Runtime) (temp_dir : pystr)
  (script_data : Z -> pystr) (silence_duration : Q)
  (images : list (Z * option pystr)) (slides : list _SlideItem) : M (list _SlideItem) :=
  match images with
  | [] => ret slides
  | (slide_index, picked) :: rest =>
      match picked with
      | None => raise IndexError
      | Some img_path =>
          W <~ get_world ;;
          let audio_path := _resolve_audio_path R W temp_dir slide_index in
          slide <~ build_slide R temp_dir script_data silence_duration
                     img_path slide_index audio_path ;;
          indexed_slides R temp_dir script_data silence_duration rest
                         (slides ++ [slide])
      end
  end.

(** [combine_audio_video] up to the check [if not slides]: the working
    directory and the slides of the run.  [script_data] is the lookup
    [script_data.get(slide_index, '')] in the dict of scripts, whether
    it came from the override or from the CSV file. *)
Definition resolve_slides (R : Runtime)
  (output_dir output_name : pystr) (slides_count : option Z)
  (temp_subdir : option pystr) (script_data : Z -> pystr)
  : M (pystr * list _SlideItem) :=
  W <~ get_world ;;
  let temp_dir := _select_temp_dir R W output_dir output_name temp_subdir in
  if negb (path_exists W temp_dir)
  then raise (FileNotFoundError (lit "temp folder not found: " ++ temp_dir))
  else
    let all_files := listdir W temp_dir in
    let png_files := filter (fun f => endswith (lit ".png") (lower R f)) all_files in
    let mp3_files := filter (fun f => endswith (lit ".mp3") (lower R f)) all_files in
    let by_index := group_by_index R temp_dir slides_count png_files in
    let silence_duration := _get_silence_slide_duration R W in
    slides <~
      match by_index with
      | _ :: _ =>
          let images := resolve_images R W temp_dir slides_count png_files in
          match images with
          | [] => raise (ValueError (lit "No image files found in temp folder"))
          | _ => indexed_slides R temp_dir script_data silence_duration images []
          end
      | [] =>
          let image_files := sorted_names png_files in
          match image_files with
          | [] => raise (ValueError (lit "No image files found in temp folder"))
          | _ => legacy_slides R temp_dir script_data silence_duration mp3_files
                               image_files []
          end
      end ;;
    match slides with
    | [] => raise (ValueError (lit "No slides to process"))
    | _ => ret (temp_dir, slides)
    end.

(** *** The entry point *)

(** [(output_format or "webm").lower().strip()]. *)
Definition normalise_format (R : Runtime) (output_format : option pystr) : pystr :=
  let chosen :=
    match output_format with
    | Some f => str_or f (lit "webm")
    | None => lit "webm"
    end in
  strip (lower R chosen).

(** [fmt in ("webm", "mp4")], with the family it selects. *)
Definition known_format (fmt : pystr) : option Format :=
  if pystr_eqb fmt (lit "webm") then Some Webm
  else if pystr_eqb fmt (lit "mp4") then Some Mp4
  else None.

(** [f"{output_format}"]. *)
Definition show_format (output_format : option pystr) : pystr :=
  match output_format with
  | Some f => f
  | None => lit "None"
  end.

(** [slides_info] of the subtitle step. *)
Definition slides_info (slides : list _SlideItem) : list AssSubtitle.SlideInfo :=
  map (fun s => AssSubtitle.mkSlideInfo (page_index s) (script_text s) (duration s)) slides.

(** [combine_audio_video] from the format check on, for the slides and
    the working directory found before it. *)
Definition finish (R : Runtime) (output_dir : pystr) (resolution : Z)
  (output_name : pystr) (subtitle : bool) (output_format : option pystr)
  (temp_dir : pystr) (slides : list _SlideItem) : M pystr :=
  let fmt := normalise_format R output_format in
  match known_format fmt with
  | None =>
      raise (ValueError (lit "Unsupported output_format: " ++ show_format output_format))
  | Some family =>
      let output_path := path_join R output_dir (output_name ++ lit "." ++ fmt) in
      W <~ get_world ;;
      _ <~ set_world (environ_set W (lit "OUTPUT_MAX_WIDTH") (str_of_Z resolution)) ;;
      subtitle_path <~
        (if subtitle then
           let subtitle_path :=
             path_join R temp_dir (lit "_subtitles_" ++ output_name ++ lit ".ass") in
           _ <~ lift (target_height resolution) ;;
           _ <~ emit (SubtitleGenerated subtitle_path
                        (AssSubtitle._generate_ass_subtitle (slides_info slides))) ;;
           W <~ get_world ;;
           _ <~ set_world (file_written W subtitle_path) ;;
           ret (Some subtitle_path)
         else ret None) ;;
      _ <~ emit (RendererCalled family output_path) ;;
      W <~ get_world ;;
      _ <~ lift (render R W family slides output_path temp_dir subtitle_path) ;;
      ret output_path
  end.

Definition combine_audio_video (R : Runtime) (output_dir : pystr)
  (resolution : Z) (output_name : pystr) (subtitle : bool) (slides_count : option Z)
  (temp_subdir : option pystr) (output_format : option pystr)
  (script_data : Z -> pystr) : M pystr :=
  found <~ resolve_slides R output_dir output_name slides_count temp_subdir script_data ;;
  finish R output_dir resolution output_name subtitle output_format
         (fst found) (snd found).

(** *** What a run does before the format check *)

Definition is_silence (ev : Effect) : Prop :=
  match ev with
  | SilenceSynthesised _ _ => True
  | _ => False
  end.

(** A computation whose effects all satisfy [P] and come after those it
    starts from. *)
Definition adds (P : Effect -> Prop) {A : Type} (m : M A) : Prop :=
  forall st, exists later,
    effects (fst (m st)) = effects st ++ later /\ Forall P later.

Section Adds.

Variable P : Effect -> Prop.

Lemma adds_ret (A : Type) (a : A) : adds P (ret a).
Proof. intro st. exists []. split; [symmetry; apply app_nil_r | constructor]. Qed.

Lemma adds_raise (A : Type) (e : exn) : adds P (@raise A e).
Proof. intro st. exists []. split; [symmetry; apply app_nil_r | constructor]. Qed.

Lemma adds_lift (A : Type) (r : result A) : adds P (lift r).
Proof. intro st. exists []. split; [symmetry; apply app_nil_r | constructor]. Qed.

Lemma adds_get_world : adds P get_world.
Proof. intro st. exists []. split; [symmetry; apply app_nil_r | constructor]. Qed.

Lemma adds_set_world (W : World) : adds P (set_world W).
Proof. intro st. exists []. split; [symmetry; apply app_nil_r | constructor]. Qed.

Lemma adds_emit (ev : Effect) : P ev -> adds P (emit ev).
Proof. intros H st. exists [ev]. split; [reflexivity | repeat constructor; exact H]. Qed.

Lemma adds_bind (A B : Type) (m : M A) (k : A -> M B) :
  adds P m -> (forall a, adds P (k a)) -> adds P (mbind m k).
Proof.
  intros Hm Hk st. unfold mbind.
  destruct (Hm st) as [t1 [E1 F1]].
  destruct (m st) as [st' [a | e]]; cbn [fst] in E1.
  - destruct (Hk a st') as [t2 [E2 F2]].
    exists (t1 ++ t2). rewrite E2, E1, app_assoc. split; [reflexivity|].
    apply Forall_app. auto.
  - exists t1. auto.
Qed.

End Adds.

Create HintDb adds.
#[local] Hint Resolve adds_ret adds_raise adds_lift adds_get_world adds_set_world : adds.

Ltac adds_step :=
  first [ apply adds_bind; [|intro] | apply adds_emit; exact I | solve [auto with adds] ].

Lemma quiet_ensure_silence (R : Runtime) (path : pystr) (d : Q) :
  adds is_silence (_ensure_silence_mp3 R path d).
Proof.
  unfold _ensure_silence_mp3. adds_step; [adds_step|].
  destruct (_file_exists_nonempty _ path); [adds_step|].
  destruct (negb _); repeat adds_step.
Qed.

Lemma quiet_build_slide (R : Runtime) (temp_dir : pystr)
  (script_data : Z -> pystr) (silence : Q) (img : pystr) (idx : Z)
  (audio : option pystr) :
  adds is_silence (build_slide R temp_dir script_data silence img idx audio).
Proof.
  unfold build_slide. adds_step; [adds_step|].
  match goal with |- context [if ?c then audio else None] =>
    destruct (if c then audio else None) end.
  - adds_step.
  - adds_step; [apply quiet_ensure_silence | adds_step].
Qed.

Lemma quiet_legacy_slides (R : Runtime) (temp_dir : pystr)
  (script_data : Z -> pystr) (silence : Q) (mp3_files image_files : list pystr)
  (slides : list _SlideItem) :
  adds is_silence
       (legacy_slides R temp_dir script_data silence mp3_files image_files slides).
Proof.
  revert slides. induction image_files as [|f rest IH]; intro slides; cbn [legacy_slides].
  - adds_step.
  - adds_step; [apply quiet_build_slide | apply IH].
Qed.

Lemma quiet_indexed_slides (R : Runtime) (temp_dir : pystr)
  (script_data : Z -> pystr) (silence : Q) (images : list (Z * option pystr))
  (slides : list _SlideItem) :
  adds is_silence (indexed_slides R temp_dir script_data silence images slides).
Proof.
  revert slides. induction images as [|[idx picked] rest IH]; intro slides;
    cbn [indexed_slides].
  - adds_step.
  - destruct picked as [img|]; [|adds_step].
    adds_step; [adds_step|].
    adds_step; [apply quiet_build_slide | apply IH].
Qed.

Lemma quiet_resolve_slides (R : Runtime) (output_dir output_name : pystr)
  (slides_count : option Z) (temp_subdir : option pystr) (script_data : Z -> pystr) :
  adds is_silence
       (resolve_slides R output_dir output_name slides_count temp_subdir script_data).
Proof.
  unfold resolve_slides.
  apply adds_bind; [apply adds_get_world | intro W].
  destruct (negb _); [apply adds_raise|].
  apply adds_bind.
  - destruct (group_by_index _ _ _ _).
    + destruct (sorted_names _); [apply adds_raise | apply quiet_legacy_slides].
    + destruct (resolve_images _ _ _ _ _); [apply adds_raise | apply quiet_indexed_slides].
  - intros [|s l]; [apply adds_raise | apply adds_ret].
Qed.

Lemma pystr_eqb_eq (a b : pystr) : pystr_eqb a b = true <-> a = b.
Proof.
  revert b. induction a as [|x a IH]; intros [|y b]; simpl;
    try (split; congruence).
  rewrite andb_true_iff, N.eqb_eq, IH. split; [intros [-> ->] | intro E; inversion E]; auto.
Qed.

Lemma known_format_none (fmt : pystr) :
  known_format fmt = None <-> fmt <> lit "webm" /\ fmt <> lit "mp4".
Proof.
  unfold known_format.
  destruct (pystr_eqb fmt (lit "webm")) eqn:Ew.
  { apply pystr_eqb_eq in Ew. split; [discriminate | tauto]. }
  destruct (pystr_eqb fmt (lit "mp4")) eqn:Em.
  { apply pystr_eqb_eq in Em. split; [discriminate | tauto]. }
  split; [|reflexivity]. intros _.
  split; intro E; apply pystr_eqb_eq in E; congruence.
Qed.

(** A computation that returns [v] whenever it returns. *)
Definition returns {A : Type} (v : A) (m : M A) : Prop :=
  forall st a, snd (m st) = Ok a -> a = v.

Lemma returns_ret (A : Type) (v : A) : returns v (ret v).
Proof. intros st a E. cbn in E. congruence. Qed.

Lemma returns_bind (A B : Type) (v : B) (m : M A) (k : A -> M B) :
  (forall a, returns v (k a)) -> returns v (mbind m k).
Proof.
  intros Hk st b. unfold mbind.
  destruct (m st) as [st' [a | e]]; [apply Hk | discriminate].
Qed.

(** What [finish] does for a format it knows: it adds effects to those
    it starts from, and when it returns it returns the output path. *)
Lemma finish_known (R : Runtime) (output_dir : pystr) (resolution : Z)
  (output_name : pystr) (subtitle : bool) (output_format : option pystr)
  (temp_dir : pystr) (slides : list _SlideItem) (family : Format) :
  known_format (normalise_format R output_format) = Some family ->
  let m := finish R output_dir resolution output_name subtitle output_format
                  temp_dir slides in
  adds (fun _ => True) m /\
  returns (path_join R output_dir
             (output_name ++ lit "." ++ normalise_format R output_format)) m.
Proof.
  intros Hk m. subst m. unfold finish. rewrite Hk. split.
  - adds_step; [adds_step|]. adds_step; [adds_step|].
    adds_step.
    + destruct subtitle; repeat adds_step.
    + repeat adds_step.
  - repeat (apply returns_bind; intro). apply returns_ret.
Qed.

(** C10, as the code has it.  For every call of [combine_audio_video]:
    up to the format check the call generates no subtitle and calls no
    renderer (it only synthesises silence), and when slide resolution
    raises, the call raises that error.  When slide resolution succeeds
    and [output_format], lowercased and stripped, is neither [webm] nor
    [mp4], the call raises [ValueError("Unsupported output_format: ...")]
    with no further effect, hence before any subtitle generation or
    encoding.  [None] and the empty string stand for [webm].  When the
    format is known and the call returns, it returns
    [os.path.join(output_dir, output_name + "." + fmt)]. *)
Theorem combine_format_check (R : Runtime) (W : World) (output_dir : pystr)
  (resolution : Z) (output_name : pystr) (subtitle : bool) (slides_count : option Z)
  (temp_subdir : option pystr) (output_format : option pystr)
  (script_data : Z -> pystr) :
  let fmt := normalise_format R output_format in
  let start := mkState W [] in
  let before :=
    resolve_slides R output_dir output_name slides_count temp_subdir script_data start in
  let after :=
    combine_audio_video R output_dir resolution output_name subtitle slides_count
                        temp_subdir output_format script_data start in
  Forall is_silence (effects (fst before)) /\
  (known_format fmt = None <-> fmt <> lit "webm" /\ fmt <> lit "mp4") /\
  normalise_format R None = lit "webm" /\
  normalise_format R (Some []) = lit "webm" /\
  match snd before with
  | Raise e => after = (fst before, Raise e)
  | Ok _ =>
      match known_format fmt with
      | None =>
          after
          = (fst before,
             Raise (ValueError (lit "Unsupported output_format: "
                                ++ show_format output_format)))
      | Some _ =>
          (exists later, effects (fst after) = effects (fst before) ++ later) /\
          forall path, snd after = Ok path ->
            path = path_join R output_dir (output_name ++ lit "." ++ fmt)
      end
  end.
Proof.
  intros fmt start before after.
  split.
  { destruct (quiet_resolve_slides R output_dir output_name slides_count
                temp_subdir script_data start) as [t' [E F]].
    subst before. rewrite E. exact F. }
  split; [apply known_format_none|].
  split; [reflexivity|]. split; [reflexivity|].
  subst after. unfold combine_audio_video, mbind. fold before.
  destruct before as [st [[temp_dir slides] | e]]; cbn [fst snd]; [|reflexivity].
  destruct (known_format fmt) as [family|] eqn:Ek.
  - destruct (finish_known R output_dir resolution output_name subtitle output_format
                temp_dir slides family Ek) as [Ha Hr].
    split.
    + destruct (Ha st) as [later [E _]]. exists later. exact E.
    + intros path E. exact (Hr st path E).
  - unfold finish. fold fmt. now rewrite Ek.
Qed.

End Combine.

(** ** The scenarios on concrete runs *)

Module Scenario.

Import Resolver Encoder Combine.

Definition temp : pystr := lit "/out/temp".

Definition idle : World := empty_world (mkProc 0 None).

(** A working directory with one slide image and no audio. *)
Definition one_image : World :=
  with_file (with_dir idle temp [lit "slide_000.png"])
            (lit "/out/temp/slide_000.png") 1700000000 2048.

(** Scenario A: the script of the test, four seconds long. *)
Definition script_A : pystr :=
  [ 20170; 22238; 12399; 12289; 65; 73; 12489; 12522; 12502; 12531;
    38283; 30330; 12364; 24517; 35201; 12394; 12398; 12363; 65311 ]%N.

Lemma scenario_A_two_segments :
  _get_subtitle_segments script_A
  = [ mkSegment (firstn 4 script_A) (0 # 19) (4 # 19);
      mkSegment (skipn 4 script_A) (4 # 19) (19 # 19) ]
  /\ Forall2 (fun e t => AssSubtitle.seg_start e == fst t /\ AssSubtitle.seg_end e == snd t)
       (AssSubtitle.slide_events 0 (AssSubtitle.mkSlideInfo 0 script_A 4))
       [ (0, nearest (16 # 19)); (nearest (16 # 19), 4) ]%Q.
Proof. split; [reflexivity|]. vm_compute. repeat constructor. Qed.

(** Scenario C: a request for width 1920 reaches the renderer through
    the environment and gives the canvas 1920x1080. *)
Lemma scenario_C_canvas :
  let W := environ_set one_image (lit "OUTPUT_MAX_WIDTH") (str_of_Z 1920) in
  _get_output_max_width example_runtime W = 1920
  /\ filter_graph example_runtime W None
     = Ok (lit "scale=1920:1080:force_original_aspect_ratio=decrease:flags=fast_bilinear"
           ++ lit ",pad=1920:1080:(ow-iw)/2:(oh-ih)/2:color=0x303030"
           ++ lit ",format=yuv420p").
Proof. split; vm_compute; reflexivity. Qed.

(** A working directory with one narrated slide of four seconds, and an
    encoder that fails and prints its own command line. *)
Definition narrated_echo : World :=
  with_run
    (with_probe
       (with_file
          (with_file (with_dir idle temp [lit "slide_000.png"; lit "slide_000.mp3"])
                     (lit "/out/temp/slide_000.png") 1700000000 2048)
          (lit "/out/temp/slide_000.mp3") 1700000000 4096)
       (lit "/out/temp/slide_000.mp3") (Some (0, 0, 4%Q)) None)
    (fun args => mkProc 1 (Some (join (lit " ") args))).

(** Scenarios C and E on a whole call: the width 1920 of the request and
    the subtitle file written by the call both show in the filter graph
    of the command line, and the failure of the encoder carries its
    diagnostics. *)
Lemma scenario_C_command_line :
  snd (outcome (combine_audio_video example_runtime (lit "/out") 1920 (lit "output")
                  true None None None (fun _ => lit "Hi! Yo")) narrated_echo)
  = Raise (RuntimeError
      (lit "FFmpeg failed (code=1): ffmpeg -y -hide_banner -loglevel error -nostats"
       ++ lit " -f concat -safe 0 -i /out/temp/__video_concat.txt"
       ++ lit " -f concat -safe 0 -i /out/temp/__audio_concat.txt"
       ++ lit " -vf fps=30,"
       ++ lit "scale=1920:1080:force_original_aspect_ratio=decrease:flags=fast_bilinear,"
       ++ lit "pad=1920:1080:(ow-iw)/2:(oh-ih)/2:color=0x303030,"
       ++ lit "subtitles='/out/temp/_subtitles_output.ass',format=yuv420p"
       ++ lit " -c:v libvpx -deadline realtime -cpu-used 8 -threads 8 -b:v 1M"
       ++ lit " -qmin 4 -qmax 50 -c:a libopus -b:a 64k -vbr on -shortest"
       ++ lit " /out/output.webm")).
Proof. vm_compute. reflexivity. Qed.

(** Scenario D: two images of index 0, the second one written later. *)
Definition two_candidates (older newer_ : Q) : World :=
  with_file
    (with_file (with_dir idle temp [lit "slide_0.png"; lit "slide_000.png"])
               (lit "/out/temp/slide_0.png") older 2048)
    (lit "/out/temp/slide_000.png") newer_ 2048.

Lemma scenario_D_newer_image :
  resolve_images example_runtime (two_candidates 1700000000 1700000060) temp None
                 [lit "slide_0.png"; lit "slide_000.png"]
  = [(0, Some (lit "/out/temp/slide_000.png"))]
  /\ resolve_images example_runtime (two_candidates 1700000060 1700000000) temp None
                    [lit "slide_0.png"; lit "slide_000.png"]
     = [(0, Some (lit "/out/temp/slide_0.png"))].
Proof. split; vm_compute; reflexivity. Qed.

(** C9 on time stamps before 1970: both candidates have a modification
    time below -1, none beats the initial [best_t = -1.0], and the first
    candidate is returned although the second one is newer. *)
Lemma pick_newest_before_1970 :
  let W := two_candidates (-100) (-50) in
  let older := lit "/out/temp/slide_0.png" in
  let newer_ := lit "/out/temp/slide_000.png" in
  getmtime W older = Some (-100)%Q /\ getmtime W newer_ = Some (-50)%Q /\
  (-100 < -50)%Q /\
  _pick_newest W [older; newer_] = Some older /\
  resolve_images example_runtime W temp None [lit "slide_0.png"; lit "slide_000.png"]
  = [(0, Some older)].
Proof. repeat split. Qed.

(** C5 on a silence length of zero: the slide has no audio, its duration
    is the configured silence length, and the slide is built with
    duration 0; the silent audio file is synthesised with 0.01 s. *)
Lemma combine_builds_slide_of_duration_zero :
  let W := environ_set one_image (lit "SILENCE_SLIDE_DURATION") (lit "0") in
  outcome (resolve_slides example_runtime (lit "/out") (lit "output") None None
                          (fun _ => [])) W
  = ([SilenceSynthesised (lit "/out/temp/_silence_000.mp3") (1 # 100)],
     Ok (temp,
         [ mkSlideItem 0 (lit "/out/temp/slide_000.png")
                       (lit "/out/temp/_silence_000.mp3") [] 0 ]))
  /\ pdf_slide_duration example_runtime W [] (lit "/out/temp/silence_0.mp3")
     = Ok (1 # 100)%Q.
Proof. split; vm_compute; reflexivity. Qed.

(** C5 on an audio file both probes measure as empty: the slide is
    built with duration 0, where [process_pdf_and_script] clamps the
    same measurement to 0.01 s. *)
Lemma combine_keeps_probed_duration_zero :
  let audio := lit "/out/temp/slide_000.mp3" in
  let W :=
    with_probe
      (with_file
         (with_file (with_dir idle temp [lit "slide_000.png"; lit "slide_000.mp3"])
                    (lit "/out/temp/slide_000.png") 1700000000 2048)
         audio 1700000000 0)
      audio (Some (0, 0, 0%Q)) (Some (Some 0%Q)) in
  _get_audio_duration_seconds W audio = Ok 0%Q
  /\ outcome (resolve_slides example_runtime (lit "/out") (lit "output") None None
                             (fun _ => lit "Hello!")) W
     = ([], Ok (temp,
                [ mkSlideItem 0 (lit "/out/temp/slide_000.png") audio (lit "Hello!") 0 ]))
  /\ pdf_slide_duration example_runtime W (lit "Hello!") audio = Ok (1 # 100)%Q.
Proof. repeat split; vm_compute; reflexivity. Qed.

(** C10, as stated, fails when the call does not get as far as the
    format check: without a working directory the call raises
    [FileNotFoundError], whatever the format. *)
Lemma unsupported_format_without_temp_folder :
  known_format (normalise_format example_runtime (Some (lit "avi"))) = None
  /\ outcome (combine_audio_video example_runtime (lit "/out") 1280 (lit "output")
                true None None (Some (lit "avi")) (fun _ => [])) idle
     = ([], Raise (FileNotFoundError (lit "temp folder not found: /out/temp"))).
Proof. split; reflexivity. Qed.

(** With a working directory and a slide, the same format raises the
    [ValueError] of the format check, after the silence of the slide has
    been synthesised and before anything else. *)
Lemma unsupported_format_with_slide :
  outcome (combine_audio_video example_runtime (lit "/out") 1280 (lit "output")
             true None None (Some (lit "avi")) (fun _ => [])) one_image
  = ([SilenceSynthesised (lit "/out/temp/_silence_000.mp3") 5],
     Raise (ValueError (lit "Unsupported output_format: avi"))).
Proof. vm_compute. reflexivity. Qed.

End Scenario.

(** ** Numerals and replacements *)

Module Text.

(** An ASCII decimal digit. *)
Definition is_digit (c : N) : bool := ((48 <=? c) && (c <=? 57))%N.

Definition digits (s : pystr) : bool := forallb is_digit s.

Lemma replace_char_removes (old : N) (new s : pystr) :
  forallb (fun c => negb (c =? old)%N) new = true ->
  forallb (fun c => negb (c =? old)%N) (replace_char old new s) = true.
Proof.
  intro Hn. induction s as [|c s IH]; [reflexivity|].
  unfold replace_char in *. cbn [flat_map]. rewrite forallb_app, IH, andb_true_r.
  destruct (c =? old)%N eqn:E; [exact Hn|]. cbn. now rewrite E.
Qed.

Lemma string_of_uint_digits (d : Decimal.uint) :
  digits (lit (NilEmpty.string_of_uint d)) = true.
Proof. induction d; cbn; auto. Qed.

Lemma string_of_uint_nonempty (d : Decimal.uint) :
  d <> Decimal.Nil -> lit (NilEmpty.string_of_uint d) <> [].
Proof. destruct d; cbn; congruence. Qed.

Lemma nilzero_nonnil (d : Decimal.uint) :
  d <> Decimal.Nil -> NilZero.string_of_uint d = NilEmpty.string_of_uint d.
Proof. destruct d; [congruence | reflexivity ..]. Qed.

(** [str(n)] for [n >= 0]: digits, at least one. *)
Lemma str_of_Z_nonneg (n : Z) :
  0 <= n -> digits (str_of_Z n) = true /\ str_of_Z n <> [].
Proof.
  intro Hn. unfold str_of_Z. destruct n as [|p|p]; [split; [reflexivity | discriminate] | | lia].
  cbn [Z.to_int NilZero.string_of_int].
  pose proof (DecimalPos.Unsigned.to_uint_nonnil p) as Hnn.
  rewrite nilzero_nonnil by exact Hnn.
  split; [apply string_of_uint_digits | now apply string_of_uint_nonempty].
Qed.

(** [str(n)] for [n < 0]: a minus sign and the digits of [-n]. *)
Lemma str_of_Z_neg (n : Z) : n < 0 -> str_of_Z n = 45%N :: str_of_Z (- n).
Proof. intro Hn. destruct n as [|p|p]; try lia. reflexivity. Qed.

Ltac read_digit :=
  cbn [NilEmpty.string_of_uint lit decimal_digits];
  match goal with
  | |- context [N_of_ascii ?a] =>
      let v := eval vm_compute in (N_of_ascii a) in change (N_of_ascii a) with v
  end;
  match goal with
  | |- context [if ?c then _ else _] =>
      let v := eval vm_compute in c in change c with v
  end;
  cbv iota;
  match goal with
  | |- context [Z.of_N ?x] =>
      let v := eval vm_compute in (Z.of_N x) in change (Z.of_N x) with v
  end.

Lemma decimal_digits_acc (d : Decimal.uint) (acc : positive) :
  decimal_digits (Z.pos acc) (lit (NilEmpty.string_of_uint d))
  = Some (Z.pos (Pos.of_uint_acc d acc)).
Proof.
  revert acc. induction d; intro acc; [reflexivity | ..];
    read_digit; cbn [Pos.of_uint_acc]; rewrite <- IHd; f_equal; lia.
Qed.

Lemma decimal_digits_uint (d : Decimal.uint) :
  decimal_digits 0 (lit (NilEmpty.string_of_uint d)) = Some (Z.of_N (Pos.of_uint d)).
Proof.
  induction d; [reflexivity | ..]; read_digit; cbn [Pos.of_uint];
    [exact IHd | apply decimal_digits_acc ..].
Qed.

(** Leading zeros do not change the value read. *)
Lemma decimal_digits_zeros (k : nat) (s : pystr) :
  decimal_digits 0 (repeat 48%N k ++ s) = decimal_digits 0 s.
Proof. induction k as [|k IH]; [reflexivity | exact IH]. Qed.

Lemma decimal_int_digits (s : pystr) :
  digits s = true -> s <> [] -> decimal_int s = decimal_digits 0 s.
Proof.
  intros Hd Hne. destruct s as [|c s]; [congruence|].
  unfold decimal_int. cbn [digits forallb] in Hd. apply andb_true_iff in Hd.
  destruct Hd as [Hc _]. unfold is_digit in Hc.
  destruct (N.eq_dec c 45) as [->|Hc45]; [discriminate|].
  destruct c as [|p]; [reflexivity|].
  do 6 (destruct p as [p|p|]; try reflexivity); exfalso; apply Hc45; reflexivity.
Qed.

(** [int(str(n)) = n] for [n >= 0], on the decimal reader of the
    examples. *)
Lemma decimal_int_str_of_Z (n : Z) : 0 <= n -> decimal_int (str_of_Z n) = Some n.
Proof.
  intro Hn. destruct (str_of_Z_nonneg n Hn) as [Hd Hne].
  rewrite decimal_int_digits by assumption.
  unfold str_of_Z. destruct n as [|p|p]; [reflexivity | | lia].
  cbn [Z.to_int NilZero.string_of_int].
  rewrite nilzero_nonnil by apply DecimalPos.Unsigned.to_uint_nonnil.
  rewrite decimal_digits_uint, DecimalPos.Unsigned.of_to. reflexivity.
Qed.

(** *** Trimmed strings *)

(** The first character of [s], if any, is not white space. *)
Definition head_ok (s : pystr) : bool :=
  match s with
  | [] => true
  | c :: _ => negb (is_space c)
  end.

(** No white space at either end: what [strip] leaves. *)
Definition trimmed (s : pystr) : bool := head_ok s && head_ok (rev s).

Lemma lstrip_head_ok (s : pystr) : head_ok (lstrip s) = true.
Proof.
  induction s as [|c s IH]; [reflexivity|]. cbn [lstrip].
  destruct (is_space c) eqn:E; [exact IH|]. cbn. now rewrite E.
Qed.

Lemma lstrip_fixed (s : pystr) : head_ok s = true -> lstrip s = s.
Proof.
  destruct s as [|c s]; [reflexivity|]. cbn. intro H.
  apply negb_true_iff in H. now rewrite H.
Qed.

Lemma lstrip_snoc (l : pystr) (c : N) :
  is_space c = false -> lstrip (l ++ [c]) = lstrip l ++ [c].
Proof.
  intro Hc. induction l as [|x l IH]; cbn [app lstrip].
  - now rewrite Hc.
  - destruct (is_space x); [exact IH | reflexivity].
Qed.

Lemma rstrip_head_ok (s : pystr) : head_ok s = true -> head_ok (rstrip s) = true.
Proof.
  unfold rstrip. destruct s as [|c s]; [reflexivity|]. cbn [head_ok rev]. intro H.
  apply negb_true_iff in H. rewrite lstrip_snoc by exact H.
  rewrite rev_app_distr. cbn. now rewrite H.
Qed.

Lemma strip_trimmed (s : pystr) : trimmed (strip s) = true.
Proof.
  unfold trimmed, strip. rewrite rstrip_head_ok by apply lstrip_head_ok.
  unfold rstrip. rewrite rev_involutive. apply lstrip_head_ok.
Qed.

Lemma strip_fixed (s : pystr) : trimmed s = true -> strip s = s.
Proof.
  unfold trimmed, strip, rstrip. intro H. apply andb_true_iff in H.
  destruct H as [H1 H2].
  rewrite (lstrip_fixed s H1), (lstrip_fixed (rev s) H2). apply rev_involutive.
Qed.

Lemma strip_strip (s : pystr) : strip (strip s) = strip s.
Proof. apply strip_fixed, strip_trimmed. Qed.


End Text.

(** ** More on the concat descriptors ([_write_concat_list]) *)

Module Descriptor.

Import ConcatList Text.

(** Every single quote of [s] stands right after a backslash, and every
    backslash stands right before a single quote. *)
Fixpoint quotes_escaped (s : pystr) : bool :=
  match s with
  | [] => true
  | c :: s' =>
      if (c =? 39)%N then false
      else if (c =? 92)%N then
        match s' with
        | c' :: s'' => (c' =? 39)%N && quotes_escaped s''
        | [] => false
        end
      else quotes_escaped s'
  end.

(** The reading of a quoted path that undoes the escapes: a backslash
    is dropped and the character after it is kept. *)
Fixpoint unescape (s : pystr) : pystr :=
  match s with
  | [] => []
  | c :: s' =>
      if (c =? 92)%N then
        match s' with
        | c' :: s'' => c' :: unescape s''
        | [] => []
        end
      else c :: unescape s'
  end.

Section Writer.

Variable abspath : pystr -> pystr.

Lemma write_loop_none (paths : list pystr) (ds : list Q) (idx : nat) :
  (idx <= length ds)%nat ->
  (write_loop abspath idx paths (Some ds) = None
   <-> (length ds < idx + length paths)%nat).
Proof.
  revert idx. induction paths as [|p rest IH]; intros idx Hidx; cbn [write_loop length].
  - split; [discriminate | lia].
  - destruct (nth_error ds idx) as [d|] eqn:Ed.
    + assert (Hlt : (idx < length ds)%nat) by (apply nth_error_Some; congruence).
      specialize (IH (S idx) ltac:(lia)).
      destruct (write_loop abspath (S idx) rest (Some ds)); cbn [option_map].
      * split; [discriminate|]. intro H. destruct IH as [_ IH].
        assert (Hx : (length ds < S idx + length rest)%nat) by lia.
        discriminate (IH Hx).
      * split; [intros _|reflexivity]. destruct IH as [IH _].
        specialize (IH eq_refl). lia.
    + apply nth_error_None in Ed. split; [lia | reflexivity].
Qed.

(** X1.  [_write_concat_list] raises exactly when it is given durations
    and they are fewer than the paths (the [IndexError] of
    [durations[idx]]); without durations, and with durations in surplus,
    it writes the file. *)
Theorem write_concat_list_index_error (paths : list pystr) (durations : option (list Q)) :
  _write_concat_list abspath paths durations = None
  <-> exists ds, durations = Some ds /\ (length ds < length paths)%nat.
Proof.
  unfold _write_concat_list. destruct durations as [ds|].
  - pose proof (write_loop_none paths ds 0 ltac:(lia)) as H. cbn [Nat.add] in H.
    destruct (write_loop abspath 0 paths (Some ds)) as [ls|].
    + split.
      * destruct paths; discriminate.
      * intros [ds' [E Hlt]]. inversion E; subst ds'.
        destruct H as [_ H]. discriminate (H Hlt).
    + split; [intros _|reflexivity]. exists ds. split; [reflexivity|].
      now apply H.
  - rewrite write_loop_untimed. split.
    + destruct paths; discriminate.
    + intros [ds [E _]]. discriminate.
Qed.

Lemma write_loop_timed_lines (paths : list pystr) (ds : list Q) (idx : nat) :
  match write_loop abspath idx paths (Some ds) with
  | None => True
  | Some ls =>
      length (filter has_duration (entries ls)) = length paths /\
      forall tail,
        map fst (entries (ls ++ [FileLine tail])) = map (q abspath) paths ++ [tail] /\
        filter has_duration (entries (ls ++ [FileLine tail]))
        = filter has_duration (entries ls)
  end.
Proof.
  revert idx. induction paths as [|p rest IH]; intro idx; cbn [write_loop].
  - split; [reflexivity|]. intro tail. split; reflexivity.
  - destruct (nth_error ds idx) as [d|]; [|exact I].
    specialize (IH (S idx)).
    destruct (write_loop abspath (S idx) rest (Some ds)) as [ls|]; cbn [option_map];
      [|exact I].
    destruct IH as [Hn Ht]. split.
    + cbn [entries filter has_duration snd length]. now rewrite Hn.
    + intro tail. destruct (Ht tail) as [H1 H2].
      cbn [app entries map fst filter has_duration snd]. now rewrite H1, H2.
Qed.

(** X2.  Whatever the paths and the durations, a descriptor that is
    written with durations names the paths in order and then the last
    path once more, and exactly one entry per path carries a duration:
    the entry of the repeated path carries none; a descriptor written
    without durations names the paths in order and nothing else. *)
Theorem write_concat_list_entries (paths : list pystr) (durations : option (list Q)) :
  match _write_concat_list abspath paths durations with
  | None => True
  | Some ls =>
      match durations with
      | Some _ =>
          map fst (entries ls)
          = map (q abspath) paths
            ++ match paths with [] => [] | _ :: _ => [q abspath (last paths [])] end
          /\ length (filter has_duration (entries ls)) = length paths
      | None => entries ls = map (fun p => (q abspath p, None)) paths
      end
  end.
Proof.
  unfold _write_concat_list. destruct durations as [ds|].
  - destruct paths as [|p0 rest].
    { cbn. repeat split. }
    pose proof (write_loop_timed_lines (p0 :: rest) ds 0) as H.
    destruct (write_loop abspath 0 (p0 :: rest) (Some ds)) as [ls|]; [|exact I].
    destruct H as [Hn Ht].
    destruct (Ht (q abspath (last (p0 :: rest) []))) as [H1 H2].
    split.
    + exact H1.
    + now rewrite H2.
  - rewrite write_loop_untimed.
    assert (E : forall l : list Line,
              match paths with _ :: _ => Some l | [] => Some l end = Some l)
      by (intro; destruct paths; reflexivity).
    rewrite E.
    rewrite <- (map_map (q abspath) FileLine), entries_untimed. apply map_map.
Qed.

Lemma unescape_replace (s : pystr) :
  forallb (fun c => negb (c =? 92)%N) s = true ->
  unescape (replace_char 39%N (lit "\'") s) = s
  /\ quotes_escaped (replace_char 39%N (lit "\'") s) = true.
Proof.
  induction s as [|c s IH]; [split; reflexivity|].
  cbn [forallb]. intro H. apply andb_true_iff in H. destruct H as [Hc Hs].
  destruct (IH Hs) as [IH1 IH2].
  unfold replace_char in *. cbn [flat_map].
  destruct (c =? 39)%N eqn:E.
  - apply N.eqb_eq in E. subst c.
    change (unescape (lit "\'" ++ flat_map (fun c => if (c =? 39)%N then lit "\'" else [c]) s))
      with (39%N :: unescape (flat_map (fun c => if (c =? 39)%N then lit "\'" else [c]) s)).
    change (quotes_escaped (lit "\'" ++ flat_map (fun c => if (c =? 39)%N then lit "\'" else [c]) s))
      with (quotes_escaped (flat_map (fun c => if (c =? 39)%N then lit "\'" else [c]) s)).
    now rewrite IH1, IH2.
  - cbn [app unescape quotes_escaped]. rewrite E.
    apply negb_true_iff in Hc. rewrite Hc. now rewrite IH1, IH2.
Qed.

(** X3.  The quoting [q] of a path loses nothing: in the quoted text
    every single quote stands right after a backslash and every
    backslash right before a single quote, and dropping these
    backslashes gives back the absolute path with its backslashes turned
    to forward slashes. *)
Theorem quoted_path_unescapes (p : pystr) :
  quotes_escaped (q abspath p) = true /\
  unescape (q abspath p) = replace_char 92%N (lit "/") (abspath p).
Proof.
  unfold q.
  destruct (unescape_replace (replace_char 92%N (lit "/") (abspath p))) as [H1 H2].
  - apply replace_char_removes. reflexivity.
  - split; assumption.
Qed.

End Writer.

End Descriptor.

(** ** More on the caption segments and their timeline *)

Module Captions.

Import AssSubtitle.

(** The characters of a text that are not white space, in order. *)
Definition visible (s : pystr) : pystr := filter (fun c => negb (is_space c)) s.

Lemma visible_app (a b : pystr) : visible (a ++ b) = visible a ++ visible b.
Proof. apply filter_app. Qed.

Lemma visible_blank (s : pystr) : blank s = true -> visible s = [].
Proof.
  induction s as [|c s IH]; [reflexivity|]. cbn [blank forallb visible filter].
  intro H. apply andb_true_iff in H. destruct H as [Hc Hs].
  rewrite Hc. cbn [negb]. now apply IH.
Qed.

Lemma visible_nonblank_pieces (l : list pystr) :
  visible (concat (filter (fun s => truthy (strip s)) l)) = visible (concat l).
Proof.
  induction l as [|p l IH]; [reflexivity|].
  cbn [filter concat]. rewrite strip_truthy.
  destruct (blank p) eqn:E; cbn [negb].
  - rewrite visible_app, (visible_blank p E). exact IH.
  - cbn [concat]. now rewrite !visible_app, IH.
Qed.

Lemma merge_segments_concat (raw : list pystr) :
  concat (merge_segments raw) = concat raw.
Proof.
  functional induction (merge_segments raw); cbn [concat].
  - reflexivity.
  - rewrite IHl. now rewrite <- app_assoc.
  - now rewrite IHl.
  - reflexivity.
Qed.

(** The texts of the segments are the merged fragments, whatever the
    script. *)
Lemma segments_text (script : pystr) :
  map text (_get_subtitle_segments script)
  = merge_segments (filter (fun s => truthy (strip s)) (re_split script)).
Proof.
  unfold _get_subtitle_segments.
  destruct script as [|c script']; [reflexivity|].
  set (script := c :: script'). cbn [truthy negb].
  set (raw := filter (fun s => truthy (strip s)) (re_split script)).
  assert (Hraw : Forall (fun s => blank s = false) raw).
  { apply Forall_forall. intros x Hx. unfold raw in Hx.
    apply filter_In in Hx. destruct Hx as [_ Hx].
    rewrite strip_truthy in Hx. now apply negb_true_iff. }
  pose proof (merge_segments_nonblank raw Hraw) as Hm.
  destruct (merge_segments raw) as [|m ms] eqn:Em; [reflexivity|].
  cbn [negb].
  assert (Hpos : 1 <= total_len (m :: ms)) by (apply total_len_pos; [congruence | exact Hm]).
  destruct (total_len (m :: ms) =? 0) eqn:E0; [apply Z.eqb_eq in E0; lia|].
  apply ratios_text.
Qed.

(** X4.  The segments lose no visible character of the script: the
    characters of the segment texts that are not white space are those
    of the script, in the same order.  (Only fragments made of white
    space, such as a line feed between two sentences, are dropped.) *)
Theorem segments_keep_visible_characters (script : pystr) :
  visible (concat (map text (_get_subtitle_segments script))) = visible script.
Proof.
  rewrite segments_text, merge_segments_concat, visible_nonblank_pieces.
  now rewrite re_split_concat.
Qed.

Lemma truediv_lt (a l b : Z) : 0 < l -> 0 < b -> (truediv a b < truediv (a + l) b)%Q.
Proof.
  intros Hl Hb. unfold truediv, Qlt; simpl. rewrite Z2Pos.id by exact Hb. nia.
Qed.

Lemma ratios_strict (total_chars char_count : Z) (merged : list pystr) :
  0 < total_chars -> Forall (fun s => blank s = false) merged ->
  Forall (fun s => (start_ratio s < end_ratio s)%Q) (ratios total_chars char_count merged).
Proof.
  intros Hpos. revert char_count.
  induction merged as [|t l IH]; intros cc H; cbn [ratios]; constructor.
  - cbn [start_ratio end_ratio]. inversion H; subst.
    apply truediv_lt; [|exact Hpos]. pose proof (blank_false_len t H2). lia.
  - apply IH. now inversion H.
Qed.

(** X5.  Every segment has a share above zero: its start ratio is
    strictly below its end ratio, and no segment is blank. *)
Theorem segments_have_positive_share (script : pystr) :
  Forall (fun s => (start_ratio s < end_ratio s)%Q /\ blank (text s) = false)
         (_get_subtitle_segments script).
Proof.
  destruct (get_subtitle_segments_cases script)
    as [[_ E] | [_ [merged [_ [Hnb [Hpos E]]]]]]; rewrite E; [constructor|].
  pose proof (ratios_strict (total_len merged) 0 merged Hpos Hnb) as Hs.
  pose proof (ratios_text (total_len merged) 0 merged) as Ht.
  revert Hs Ht Hnb. generalize (ratios (total_len merged) 0 merged).
  intros segs Hs Ht Hnb. subst merged.
  rewrite Forall_forall in *. intros s Hin. split; [now apply Hs|].
  apply Hnb. now apply in_map.
Qed.

Lemma re_split_go_plain (s acc : pystr) :
  forallb (fun c => negb (is_punct c)) s = true ->
  re_split_go s acc false = [rev acc ++ s].
Proof.
  revert acc. induction s as [|c s IH]; intros acc H; cbn [re_split_go].
  - now rewrite app_nil_r.
  - cbn [forallb] in H. apply andb_true_iff in H. destruct H as [Hc Hs].
    apply negb_true_iff in Hc. rewrite Hc. rewrite IH by exact Hs.
    cbn [rev]. now rewrite <- app_assoc.
Qed.

(** X6.  A script that holds no punctuation of the class and is not
    blank gives one segment, which carries the whole script, white
    space around it included, from ratio 0 to ratio 1. *)
Theorem plain_script_one_segment (script : pystr) :
  forallb (fun c => negb (is_punct c)) script = true ->
  blank script = false ->
  _get_subtitle_segments script
  = [mkSegment script (truediv 0 (len script)) (truediv (0 + len script) (len script))]
  /\ truediv 0 (len script) == 0 /\ truediv (0 + len script) (len script) == 1.
Proof.
  intros Hp Hb. pose proof (blank_false_len script Hb) as Hlen. split.
  - unfold _get_subtitle_segments.
    destruct script as [|c s]; [discriminate|].
    cbn [truthy negb]. unfold re_split. rewrite re_split_go_plain by exact Hp.
    cbn [rev app filter]. rewrite strip_truthy, Hb. cbn [negb merge_segments].
    cbn [negb total_len fold_right].
    rewrite Z.add_0_r.
    destruct (len (c :: s) =? 0) eqn:E0; [apply Z.eqb_eq in E0; lia|].
    cbn [ratios]. reflexivity.
  - split; [apply truediv_zero | apply truediv_self; lia].
Qed.

Lemma plain_script_one_segment_example :
  let script := lit " Hello world " in
  forallb (fun c => negb (is_punct c)) script = true /\
  blank script = false /\
  _get_subtitle_segments script = [mkSegment script (0 # 13) (13 # 13)].
Proof.
  split; [reflexivity|]. split; [reflexivity|].
  exact (proj1 (plain_script_one_segment (lit " Hello world ") eq_refl eq_refl)).
Defined.

End Captions.

Module Timeline.

Import AssSubtitle Text.

Definition no_line_feed (s : pystr) : bool := forallb (fun c => negb (c =? 10)%N) s.

(** [current_time] after the slides [slides_info]. *)
Definition clock (current_time : Q) (slides_info : list SlideInfo) : Q :=
  fold_left (fun t s => fadd t (nearest (duration s))) slides_info current_time.

Lemma slide_events_blank (ct : Q) (slide : SlideInfo) :
  blank (script slide) = true -> slide_events ct slide = [].
Proof.
  intro H. unfold slide_events. apply blank_strip_nil in H. now rewrite H.
Qed.

(** X7.  The events of a list of slides are those of its first part
    followed by those of its second part started at the time the first
    part ends; slides whose scripts are blank give no event, they only
    move the clock. *)
Theorem events_from_app (ct : Q) (l1 l2 : list SlideInfo) :
  events_from ct (l1 ++ l2) = events_from ct l1 ++ events_from (clock ct l1) l2
  /\ (forallb (fun s => blank (script s)) l1 = true ->
      events_from ct l1 = [] /\ events_from ct (l1 ++ l2) = events_from (clock ct l1) l2).
Proof.
  assert (Happ : forall l1 ct,
             events_from ct (l1 ++ l2) = events_from ct l1 ++ events_from (clock ct l1) l2).
  { clear. induction l1 as [|s l1 IH]; intro ct; [reflexivity|].
    cbn [app events_from clock fold_left]. rewrite IH, app_assoc. reflexivity. }
  split; [apply Happ|]. intro Hb.
  assert (Hnil : forall l1 ct, forallb (fun s => blank (script s)) l1 = true ->
                               events_from ct l1 = []).
  { clear. induction l1 as [|s l1 IH]; intros ct H; [reflexivity|].
    cbn [forallb] in H. apply andb_true_iff in H. destruct H as [Hs Hl].
    cbn [events_from]. rewrite slide_events_blank by exact Hs. now apply IH. }
  split; [now apply Hnil|]. now rewrite Happ, Hnil.
Qed.

Lemma ratios_start_from (total cc : Z) (merged : list pystr) :
  0 < total ->
  Forall (fun s => (truediv cc total <= start_ratio s)%Q) (ratios total cc merged).
Proof.
  intro Hpos. revert cc. induction merged as [|t l IH]; intro cc; cbn [ratios];
    constructor.
  - cbn [start_ratio]. apply Qle_refl.
  - eapply Forall_impl; [|apply IH]. cbv beta. intros s Hs.
    eapply Qle_trans; [|exact Hs].
    pose proof (len_nonneg t). unfold truediv, Qle; simpl.
    rewrite Z2Pos.id by exact Hpos. nia.
Qed.

Lemma ratios_sorted (total cc : Z) (merged : list pystr) :
  0 < total ->
  StronglySorted (fun a b => (start_ratio a <= start_ratio b)%Q) (ratios total cc merged).
Proof.
  intro Hpos. revert cc. induction merged as [|t l IH]; intro cc; cbn [ratios];
    constructor; [apply IH|].
  eapply Forall_impl; [|apply (ratios_start_from total (cc + len t) l Hpos)].
  cbv beta. intros s Hs. cbn [start_ratio].
  eapply Qle_trans; [|exact Hs].
  pose proof (len_nonneg t). unfold truediv, Qle; simpl.
  rewrite Z2Pos.id by exact Hpos. nia.
Qed.

Definition starts_in_order : list Event -> Prop :=
  StronglySorted (fun a b => (seg_start a <= seg_start b)%Q).

Lemma sorted_app (A : Type) (R : A -> A -> Prop) (l1 l2 : list A) :
  StronglySorted R l1 -> StronglySorted R l2 ->
  (forall a b, In a l1 -> In b l2 -> R a b) ->
  StronglySorted R (l1 ++ l2).
Proof.
  intros H1 H2 H. induction H1 as [|a l1 Hs IH Ha]; [exact H2|].
  cbn [app]. constructor.
  - apply IH. intros x y Hx Hy. apply H; [now right | exact Hy].
  - apply Forall_app. split; [exact Ha|].
    apply Forall_forall. intros y Hy. apply H; [now left | exact Hy].
Qed.

(** The scaled time grows with the ratio. *)
Lemma scaled_le (ct d r r' : Q) :
  (0 <= d)%Q -> (r <= r')%Q -> (scaled ct d r <= scaled ct d r')%Q.
Proof.
  intros Hd Hr. unfold scaled, fadd, fmul.
  apply nearest_le. apply Qplus_le_r. apply nearest_le.
  rewrite !(Qmult_comm d). apply Qmult_le_compat_r; [now apply nearest_le | exact Hd].
Qed.

Lemma scaled_window (ct d r : Q) :
  is_double ct -> is_double d -> (0 <= d)%Q -> (0 <= r)%Q -> (r <= 1)%Q ->
  (ct <= scaled ct d r /\ scaled ct d r <= fadd ct d)%Q.
Proof.
  intros Hct Hdd Hd H0 H1. split.
  - rewrite <- (scaled_zero ct d 0 Hct) at 1 by reflexivity. now apply scaled_le.
  - rewrite <- (scaled_one ct d 1 Hdd) by reflexivity. now apply scaled_le.
Qed.

Lemma fadd_grows (x y : Q) : is_double x -> (0 <= y)%Q -> (x <= fadd x y)%Q.
Proof.
  intros Hx Hy. unfold is_double in Hx. rewrite <- Hx at 1.
  unfold fadd. apply nearest_le. lra.
Qed.

Lemma fadd_le (x x' y : Q) : (x <= x')%Q -> (fadd x y <= fadd x' y)%Q.
Proof. intro H. unfold fadd. apply nearest_le. lra. Qed.

Lemma duration_nonneg (slide : SlideInfo) :
  (0 <= duration slide)%Q -> (0 <= nearest (duration slide))%Q.
Proof. apply nearest_nonneg. Qed.

(** The events of one slide of duration [d >= 0] started at [ct]. *)
Lemma slide_events_window (ct : Q) (slide : SlideInfo) :
  is_double ct -> (0 <= duration slide)%Q ->
  let next := fadd ct (nearest (duration slide)) in
  starts_in_order (slide_events ct slide) /\
  Forall (fun e => (ct <= seg_start e /\ seg_start e <= next /\
                    seg_start e <= seg_end e /\
                    seg_end e <= fadd next min_seg)%Q)
         (slide_events ct slide).
Proof.
  intros Hct Hd0 next. subst next.
  pose proof (duration_nonneg slide Hd0) as Hd.
  pose proof (nearest_is_double (duration slide)) as Hdd.
  destruct (slide_events_cases ct slide) as [[_ E] | [_ [merged [_ [Hpos E]]]]];
    rewrite E; [split; constructor|].
  set (d := nearest (duration slide)) in *. set (total := total_len merged) in *.
  split.
  - unfold starts_in_order.
    pose proof (ratios_sorted total 0 merged Hpos) as Hs. clear E.
    induction Hs as [|s segs Hs IH Ha]; cbn [map]; [constructor|].
    constructor; [exact IH|].
    apply Forall_map. eapply Forall_impl; [|exact Ha]. cbv beta.
    intros s' Hs'. rewrite !event_of_start. now apply scaled_le.
  - apply Forall_map.
    pose proof (ratios_bounds total 0 merged ltac:(lia) ltac:(lia) Hpos) as Hb.
    eapply Forall_impl; [|exact Hb]. cbv beta.
    intros s [H0 [Hse H1]].
    pose proof min_seg_pos as Hmin.
    assert (Hs1 : (start_ratio s <= 1)%Q) by (eapply Qle_trans; eassumption).
    assert (He0 : (0 <= end_ratio s)%Q) by (eapply Qle_trans; eassumption).
    destruct (scaled_window ct d (start_ratio s) Hct Hdd Hd H0 Hs1) as [A1 A2].
    destruct (scaled_window ct d (end_ratio s) Hct Hdd Hd He0 H1) as [B1 B2].
    pose proof (event_of_covers ct d s) as [_ Hord]. cbv zeta in Hord.
    rewrite event_of_start in *.
    split; [exact A1|]. split; [exact A2|]. split; [exact Hord|].
    destruct (event_of_end ct d s) as [[_ Ee] | [_ Ee]]; cbv zeta in Ee; rewrite Ee.
    + rewrite event_of_start. now apply fadd_le.
    + eapply Qle_trans; [exact B2|].
      apply fadd_grows; [apply fadd_double | lra].
Qed.

Lemma clock_grows (ct : Q) (slides_info : list SlideInfo) :
  is_double ct ->
  Forall (fun s => (0 <= duration s)%Q) slides_info ->
  (ct <= clock ct slides_info)%Q.
Proof.
  revert ct. induction slides_info as [|s l IH]; intros ct Hct H; cbn [clock fold_left].
  - apply Qle_refl.
  - inversion H as [|? ? Hs Hl]; subst.
    specialize (IH (fadd ct (nearest (duration s))) (fadd_double _ _) Hl).
    unfold clock in IH.
    pose proof (fadd_grows ct (nearest (duration s)) Hct (duration_nonneg s Hs)). lra.
Qed.

Lemma events_from_window (ct : Q) (slides_info : list SlideInfo) :
  is_double ct ->
  Forall (fun s => (0 <= duration s)%Q) slides_info ->
  starts_in_order (events_from ct slides_info) /\
  Forall (fun e => (ct <= seg_start e /\ seg_start e <= clock ct slides_info /\
                    seg_start e <= seg_end e /\
                    seg_end e <= fadd (clock ct slides_info) min_seg)%Q)
         (events_from ct slides_info).
Proof.
  revert ct. induction slides_info as [|s l IH]; intros ct Hct H.
  - split; constructor.
  - inversion H as [|? ? Hs Hl]; subst.
    set (next := fadd ct (nearest (duration s))).
    destruct (IH next (fadd_double _ _) Hl) as [IHs IHw].
    destruct (slide_events_window ct s Hct Hs) as [Ss Sw]. fold next in Sw.
    pose proof (clock_grows next l (fadd_double _ _) Hl) as Hg.
    pose proof (fadd_grows ct (nearest (duration s)) Hct (duration_nonneg s Hs)) as Hg0.
    fold next in Hg0.
    cbn [events_from clock fold_left]. fold next. fold (clock next l).
    pose proof (fadd_le _ _ min_seg Hg) as Hg1.
    rewrite Forall_forall in IHw, Sw. split.
    + apply sorted_app; [exact Ss | exact IHs |].
      intros a b Ha Hb. specialize (Sw a Ha). specialize (IHw b Hb). lra.
    + apply Forall_app. split; apply Forall_forall; intros e He.
      * specialize (Sw e He). repeat split; lra.
      * specialize (IHw e He). repeat split; lra.
Qed.

Lemma zero_double : is_double 0.
Proof. reflexivity. Qed.

(** X8.  When no slide has a negative duration and the video ends
    within the range of the doubles, the events of the subtitle file
    are written in the order of their start times; every event starts
    within the video, does not end before it starts, and ends no later
    than the double nearest to the end of the video plus 0.15 s. *)
Theorem events_in_order (slides_info : list SlideInfo) :
  Forall (fun s => (0 <= duration s)%Q) slides_info ->
  (clock 0 slides_info + 1 <= pow2 1023)%Q ->
  let total := clock 0 slides_info in
  starts_in_order (_generate_ass_subtitle slides_info) /\
  Forall (fun e => (0 <= seg_start e /\ seg_start e <= total /\
                    seg_start e <= seg_end e /\ seg_end e <= fadd total min_seg)%Q)
         (_generate_ass_subtitle slides_info).
Proof. intros H _ total. exact (events_from_window 0 slides_info zero_double H). Qed.

Lemma events_in_order_example :
  let slides_info :=
    [ mkSlideInfo 0 (lit "Hi! Yo") 4; mkSlideInfo 1 [] (3 # 10);
      mkSlideInfo 2 (lit "Thanks for watching! OK") (6 # 10) ] in
  Forall (fun s => (0 <= duration s)%Q) slides_info /\
  (clock 0 slides_info + 1 <= pow2 1023)%Q /\
  starts_in_order (_generate_ass_subtitle slides_info) /\
  Forall (fun e => (0 <= seg_start e /\ seg_start e <= clock 0 slides_info /\
                    seg_start e <= seg_end e /\
                    seg_end e <= fadd (clock 0 slides_info) min_seg)%Q)
         (_generate_ass_subtitle slides_info).
Proof.
  intro slides_info.
  assert (H : Forall (fun s => (0 <= duration s)%Q) slides_info).
  { repeat constructor; vm_compute; discriminate. }
  assert (Hb : (clock 0 slides_info + 1 <= pow2 1023)%Q) by (vm_compute; discriminate).
  split; [exact H|]. split; [exact Hb|]. exact (events_in_order slides_info H Hb).
Defined.

(** *** The lines of the file *)

Definition count_line_feeds (s : pystr) : nat :=
  length (filter (fun c => (c =? 10)%N) s).

Lemma no_line_feed_app (a b : pystr) :
  no_line_feed (a ++ b) = no_line_feed a && no_line_feed b.
Proof. apply forallb_app. Qed.

Lemma digits_no_line_feed (s : pystr) : digits s = true -> no_line_feed s = true.
Proof.
  induction s as [|c s IH]; [reflexivity|]. cbn [digits forallb no_line_feed].
  intro H. apply andb_true_iff in H. destruct H as [Hc Hs].
  fold (no_line_feed s). rewrite (IH Hs), andb_true_r.
  unfold is_digit in Hc. apply andb_true_iff in Hc. destruct Hc as [H1 _].
  apply N.leb_le in H1. apply negb_true_iff, N.eqb_neq. lia.
Qed.

Lemma str_of_Z_no_line_feed (n : Z) : no_line_feed (str_of_Z n) = true.
Proof.
  destruct (Z_lt_le_dec n 0) as [Hn | Hn].
  - rewrite str_of_Z_neg by exact Hn. cbn [no_line_feed forallb].
    apply (digits_no_line_feed (str_of_Z (- n))).
    apply str_of_Z_nonneg. lia.
  - apply digits_no_line_feed. now apply str_of_Z_nonneg.
Qed.

Lemma zero_pad_no_line_feed (width : nat) (s : pystr) :
  no_line_feed s = true -> no_line_feed (zero_pad width s) = true.
Proof.
  intro H. unfold zero_pad. rewrite no_line_feed_app, H, andb_true_r.
  induction (width - length s)%nat as [|k IH]; [reflexivity | exact IH].
Qed.

Lemma format_f_no_line_feed (prec : nat) (x : Q) : no_line_feed (format_f prec x) = true.
Proof.
  unfold format_f.
  set (n := py_round (Qabs x * inject_Z (10 ^ Z.of_nat prec))).
  assert (Hb : no_line_feed
                 (str_of_Z (n / 10 ^ Z.of_nat prec)
                  ++ match prec with
                     | O => []
                     | S _ => lit "." ++ zero_pad prec (str_of_Z (n mod 10 ^ Z.of_nat prec))
                     end) = true).
  { rewrite no_line_feed_app, str_of_Z_no_line_feed. destruct prec; [reflexivity|].
    rewrite no_line_feed_app, zero_pad_no_line_feed by apply str_of_Z_no_line_feed.
    reflexivity. }
  destruct (x ?= 0)%Q; [exact Hb | | exact Hb].
  rewrite no_line_feed_app, Hb. reflexivity.
Qed.

Lemma format_time_no_line_feed (seconds : Q) : no_line_feed (format_time seconds) = true.
Proof.
  unfold format_time.
  rewrite !no_line_feed_app, str_of_Z_no_line_feed.
  rewrite !zero_pad_no_line_feed
    by (apply str_of_Z_no_line_feed || apply format_f_no_line_feed).
  reflexivity.
Qed.

Lemma event_text_no_line_feed (ct d : Q) (seg : Segment) :
  no_line_feed (event_text (event_of ct d seg)) = true.
Proof. cbn [event_of event_text]. apply replace_char_removes. reflexivity. Qed.

Lemma events_from_texts (ct : Q) (slides_info : list SlideInfo) :
  Forall (fun e => no_line_feed (event_text e) = true) (events_from ct slides_info).
Proof.
  revert ct. induction slides_info as [|s l IH]; intro ct; [constructor|].
  cbn [events_from]. apply Forall_app. split; [|apply IH].
  unfold slide_events. destruct (truthy (strip (script s))); [|constructor].
  apply Forall_map, Forall_forall. intros seg _. apply event_text_no_line_feed.
Qed.

Lemma count_line_feeds_app (a b : pystr) :
  count_line_feeds (a ++ b) = (count_line_feeds a + count_line_feeds b)%nat.
Proof. unfold count_line_feeds. now rewrite filter_app, length_app. Qed.

Lemma count_none (s : pystr) : no_line_feed s = true -> count_line_feeds s = 0%nat.
Proof.
  unfold count_line_feeds. induction s as [|c s IH]; [reflexivity|].
  cbn [no_line_feed forallb filter]. intro H. apply andb_true_iff in H.
  destruct H as [Hc Hs]. apply negb_true_iff in Hc. rewrite Hc. now apply IH.
Qed.

Lemma count_join (lines : list pystr) :
  Forall (fun l => no_line_feed l = true) lines ->
  count_line_feeds (join [10%N] lines) = (length lines - 1)%nat.
Proof.
  induction 1 as [|l rest Hl Hrest IH]; [reflexivity|].
  destruct rest as [|l' rest'].
  - cbn [join length]. now apply count_none.
  - change (join [10%N] (l :: l' :: rest')) with (l ++ [10%N] ++ join [10%N] (l' :: rest')).
    rewrite !count_line_feeds_app, IH, (count_none l Hl). cbn [length]. 
    change (count_line_feeds [10%N]) with 1%nat. lia.
Qed.

(** X9.  Every [Dialogue] event takes exactly one line of the subtitle
    file: the text of an event holds no line feed (a line feed of the
    script is written as the two characters of the ASS line break), and
    the text written after the header has as many line feeds as there
    are events, and one for a timeline without events. *)
Theorem one_line_per_event (env_margin_v : Z) (slides_info : list SlideInfo) :
  let events := _generate_ass_subtitle slides_info in
  Forall (fun e => no_line_feed (event_text e) = true) events /\
  Forall (fun e => no_line_feed (dialogue_line env_margin_v e) = true) events /\
  count_line_feeds (events_text env_margin_v slides_info)
  = Nat.max 1 (length events).
Proof.
  intro events. subst events.
  pose proof (events_from_texts 0 slides_info) as Ht.
  fold (_generate_ass_subtitle slides_info) in Ht.
  assert (Hl : Forall (fun e => no_line_feed (dialogue_line env_margin_v e) = true)
                 (_generate_ass_subtitle slides_info)).
  { eapply Forall_impl; [|exact Ht]. cbv beta. intros e He. unfold dialogue_line.
    rewrite !no_line_feed_app, !format_time_no_line_feed, str_of_Z_no_line_feed, He.
    reflexivity. }
  split; [exact Ht|]. split; [exact Hl|].
  unfold events_text. rewrite count_line_feeds_app, count_join.
  - rewrite length_map. change (count_line_feeds [10%N]) with 1%nat.
    destruct (_generate_ass_subtitle slides_info); cbn [length]; lia.
  - apply Forall_map. exact Hl.
Qed.

(** *** The printed times *)

Lemma Qfloor_unique (x : Q) (n : Z) :
  (inject_Z n <= x)%Q -> (x < inject_Z n + 1)%Q -> Qfloor x = n.
Proof.
  intros Hlo Hhi.
  pose proof (Qfloor_le x) as Fl. pose proof (Qlt_floor x) as Fh.
  rewrite inject_Z_plus in Fh. change (inject_Z 1) with 1%Q in Fh.
  assert (H1 : (inject_Z (Qfloor x) < inject_Z (n + 1))%Q).
  { rewrite inject_Z_plus. change (inject_Z 1) with 1%Q. lra. }
  assert (H2 : (inject_Z n < inject_Z (Qfloor x + 1))%Q).
  { rewrite inject_Z_plus. change (inject_Z 1) with 1%Q. lra. }
  rewrite <- Zlt_Qlt in H1, H2. lia.
Qed.


(** The exact split of a time into hours, minutes and seconds. *)
Lemma split_time (seconds : Q) :
  let h := Qfloor (seconds / 3600) in
  let m := Qfloor ((seconds - 3600 * inject_Z h) / 60) in
  let s := (seconds - 60 * inject_Z (Qfloor (seconds / 60)))%Q in
  seconds == inject_Z (3600 * h + 60 * m) + s /\
  0 <= m <= 59 /\ (0 <= s)%Q /\ (s < 60)%Q /\
  ((0 <= seconds)%Q -> 0 <= h).
Proof.
  cbv zeta.
  set (h := Qfloor (seconds / 3600)).
  set (m := Qfloor ((seconds - 3600 * inject_Z h) / 60)).
  set (k := Qfloor (seconds / 60)).
  pose proof (Qfloor_le (seconds / 3600)) as Hl. pose proof (Qlt_floor (seconds / 3600)) as Hh.
  fold h in Hl, Hh. rewrite inject_Z_plus in Hh. change (inject_Z 1) with 1%Q in Hh.
  pose proof (Qfloor_le (seconds / 60)) as Kl. pose proof (Qlt_floor (seconds / 60)) as Kh.
  fold k in Kl, Kh. rewrite inject_Z_plus in Kh. change (inject_Z 1) with 1%Q in Kh.
  assert (E60 : (seconds - 3600 * inject_Z h) / 60 == seconds / 60 - 60 * inject_Z h)
    by field.
  assert (E3600 : seconds / 3600 == seconds / 60 / 60) by field.
  assert (Es : seconds == 60 * (seconds / 60)) by field.
  rewrite E3600 in Hl, Hh.
  set (y := (seconds / 60)%Q) in *.
  assert (Hl' : (60 * inject_Z h <= y)%Q).
  { apply (Qmult_le_compat_r _ _ 60) in Hl; [|discriminate].
    setoid_replace (y / 60 * 60)%Q with y in Hl by field. lra. }
  assert (Hh' : (y < 60 * inject_Z h + 60)%Q).
  { apply (Qmult_lt_compat_r _ _ 60) in Hh; [|reflexivity].
    setoid_replace (y / 60 * 60)%Q with y in Hh by field. lra. }
  assert (Em : m = k - 60 * h).
  { unfold m. apply Qfloor_unique.
    - rewrite E60. unfold Zminus. rewrite inject_Z_plus, inject_Z_opp, inject_Z_mult.
      change (inject_Z 60) with 60%Q. lra.
    - rewrite E60. unfold Zminus. rewrite inject_Z_plus, inject_Z_opp, inject_Z_mult.
      change (inject_Z 60) with 60%Q. lra. }
  assert (Hm : 0 <= m <= 59).
  { assert (H1 : (inject_Z (60 * h) < inject_Z (k + 1))%Q).
    { rewrite inject_Z_plus, inject_Z_mult. change (inject_Z 60) with 60%Q.
      change (inject_Z 1) with 1%Q. lra. }
    assert (H2 : (inject_Z k < inject_Z (60 * h + 60))%Q).
    { rewrite inject_Z_plus, inject_Z_mult. change (inject_Z 60) with 60%Q. lra. }
    rewrite <- Zlt_Qlt in H1, H2. lia. }
  split.
  { rewrite Em. replace (3600 * h + 60 * (k - 60 * h)) with (60 * k) by lia.
    rewrite inject_Z_mult. change (inject_Z 60) with 60%Q. ring. }
  split; [exact Hm|]. split; [rewrite Es at 1; lra|]. split; [rewrite Es at 1; lra|].
  intro Hs. assert (H : (inject_Z (-1) < inject_Z h)%Q).
  { change (inject_Z (-1)) with (-1)%Q. rewrite Es in Hs. lra. }
  rewrite <- Zlt_Qlt in H. lia.
Qed.

(** On a time that is not negative and a positive divisor, [fmod] is
    the remainder of the floored quotient. *)
Lemma fmod_nonneg (x y : Q) :
  (0 <= x)%Q -> (0 < y)%Q ->
  fmod x y == x - y * inject_Z (Qfloor (x / y)) /\
  (0 <= fmod x y)%Q /\ (fmod x y < y)%Q.
Proof.
  intros Hx Hy.
  assert (Hq : (0 <= x / y)%Q) by (apply Qle_shift_div_l; [exact Hy | lra]).
  unfold fmod. rewrite (Qtrunc_nonneg _ Hq).
  split; [reflexivity|].
  pose proof (Qfloor_le (x / y)) as Fl. pose proof (Qlt_floor (x / y)) as Fh.
  rewrite inject_Z_plus in Fh. change (inject_Z 1) with 1%Q in Fh.
  set (j := inject_Z (Qfloor (x / y))) in *.
  assert (Ex : x == y * (x / y)) by (field; lra).
  split.
  - assert (H : (y * j <= y * (x / y))%Q) by (apply Qmult_le_l; assumption).
    rewrite <- Ex in H. lra.
  - assert (H : (y * (x / y) < y * (j + 1))%Q) by (apply Qmult_lt_l; assumption).
    rewrite <- Ex in H. setoid_replace (y * (j + 1))%Q with (y * j + y)%Q in H by ring. lra.
Qed.

Lemma float_rem_nonneg (x y : Q) :
  (0 <= x)%Q -> (0 < y)%Q -> float_rem x y == x - y * inject_Z (Qfloor (x / y)).
Proof.
  intros Hx Hy. destruct (fmod_nonneg x y Hx Hy) as [E [H0 H1]].
  unfold float_rem. destruct (Qeq_bool (fmod x y) 0) eqn:Ez.
  - apply Qeq_bool_eq in Ez. rewrite <- E, Ez. reflexivity.
  - rewrite (Qneg_nonneg y) by lra. rewrite (Qneg_nonneg _ H0). exact E.
Qed.

Lemma float_floor_div_nonneg (x y : Q) :
  (0 <= x)%Q -> (0 < y)%Q ->
  is_double (y * inject_Z (Qfloor (x / y))) -> is_double (inject_Z (Qfloor (x / y))) ->
  float_floor_div x y == inject_Z (Qfloor (x / y)).
Proof.
  intros Hx Hy Hyj Hj. destruct (fmod_nonneg x y Hx Hy) as [E [H0 H1]].
  set (j := Qfloor (x / y)) in *. unfold is_double in Hyj, Hj.
  unfold float_floor_div.
  rewrite (Qneg_nonneg y) by lra. rewrite (Qneg_nonneg _ H0).
  cbn [xorb]. rewrite andb_false_r.
  assert (Ediv : fdiv (fsub x (fmod x y)) y == inject_Z j).
  { unfold fdiv, fsub.
    assert (E1 : x - fmod x y == y * inject_Z j) by (rewrite E; ring).
    rewrite E1, Hyj.
    assert (E2 : y * inject_Z j / y == inject_Z j) by (field; lra).
    rewrite E2. exact Hj. }
  set (div := fdiv (fsub x (fmod x y)) y) in *.
  destruct (Qeq_bool div 0) eqn:Ez.
  - apply Qeq_bool_eq in Ez. rewrite <- Ediv, Ez. reflexivity.
  - assert (Ef : Qfloor div = j) by (rewrite Ediv; apply Qfloor_Z).
    rewrite Ef.
    assert (Es : (1 # 2) - fsub div (inject_Z j) == 1 # 2).
    { unfold fsub. assert (E0 : div - inject_Z j == 0) by (rewrite Ediv; ring).
      rewrite E0, (nearest_zero 0) by reflexivity. ring. }
    rewrite (Qneg_nonneg ((1 # 2) - fsub div (inject_Z j))) by (rewrite Es; discriminate).
    reflexivity.
Qed.

(** X10.  For a time from 0 up to, not including, 2^53 seconds
    [format_time] splits the time exactly: the hours, minutes and
    seconds it prints add up to the time it is given, the hours are not
    negative, the minutes lie between 0 and 59 and the seconds from 0 up
    to, not including, 60 (before they are rounded to two decimals). *)
Theorem format_time_fields (seconds : Q) :
  (0 <= seconds)%Q -> (seconds < inject_Z (2 ^ 53))%Q ->
  exists (h m : Z) (s : Q),
    format_time seconds
    = str_of_Z h ++ lit ":" ++ zero_pad 2 (str_of_Z m) ++ lit ":"
      ++ zero_pad 5 (format_f 2 s) /\
    seconds == inject_Z (3600 * h + 60 * m) + s /\
    0 <= h /\ 0 <= m <= 59 /\ (0 <= s)%Q /\ (s < 60)%Q.
Proof.
  intros H0 Hmax.
  exists (Qtrunc (float_floor_div seconds 3600)),
         (Qtrunc (float_floor_div (float_rem seconds 3600) 60)),
         (float_rem seconds 60).
  split; [reflexivity|].
  destruct (split_time seconds) as [Esum [Hm [Hs0 [Hs1 Hh]]]]. specialize (Hh H0).
  set (h := Qfloor (seconds / 3600)) in *.
  set (m := Qfloor ((seconds - 3600 * inject_Z h) / 60)) in *.
  (* the hours *)
  destruct (fmod_nonneg seconds 3600 H0 ltac:(reflexivity)) as [_ [R0 R1]].
  pose proof (float_rem_nonneg seconds 3600 H0 ltac:(reflexivity)) as Er. fold h in Er.
  assert (Hr0 : (0 <= float_rem seconds 3600)%Q).
  { rewrite Er. unfold fmod in R0. rewrite Qtrunc_nonneg in R0; [exact R0|].
    apply Qle_shift_div_l; [reflexivity | lra]. }
  assert (Hh53 : 3600 * h < 2 ^ 53).
  { assert (H : (inject_Z (3600 * h) < inject_Z (2 ^ 53))%Q).
    { rewrite inject_Z_mult. change (inject_Z 3600) with 3600%Q.
      rewrite Er in Hr0. lra. }
    now rewrite <- Zlt_Qlt in H. }
  assert (Eh : float_floor_div seconds 3600 == inject_Z h).
  { apply float_floor_div_nonneg; [exact H0 | reflexivity | |].
    - fold h. change 3600%Q with (inject_Z 3600). rewrite <- inject_Z_mult.
      apply is_double_int. lia.
    - fold h. apply is_double_int. lia. }
  (* the minutes *)
  assert (Em' : Qfloor (float_rem seconds 3600 / 60) = m).
  { unfold m. now rewrite Er. }
  assert (Emin : float_floor_div (float_rem seconds 3600) 60 == inject_Z m).
  { rewrite <- Em'. apply float_floor_div_nonneg; [exact Hr0 | reflexivity | |];
      rewrite Em'.
    - change 60%Q with (inject_Z 60). rewrite <- inject_Z_mult.
      apply is_double_int. assert (2 ^ 12 <= 2 ^ 53) by (apply Z.pow_le_mono_r; lia). lia.
    - apply is_double_int. assert (2 ^ 6 <= 2 ^ 53) by (apply Z.pow_le_mono_r; lia). lia. }
  rewrite (Qtrunc_comp _ _ Eh), (Qtrunc_comp _ _ Emin), !Qtrunc_Z.
  pose proof (float_rem_nonneg seconds 60 H0 ltac:(reflexivity)) as Es.
  split; [rewrite Es; exact Esum|].
  split; [exact Hh|]. split; [exact Hm|]. rewrite Es. split; assumption.
Qed.

Lemma format_time_fields_example :
  (0 <= 7451 # 2)%Q /\ (7451 # 2 < inject_Z (2 ^ 53))%Q /\
  format_time (7451 # 2) = lit "1:02:05.50" /\
  exists (h m : Z) (s : Q),
    format_time (7451 # 2)
    = str_of_Z h ++ lit ":" ++ zero_pad 2 (str_of_Z m) ++ lit ":"
      ++ zero_pad 5 (format_f 2 s) /\
    7451 # 2 == inject_Z (3600 * h + 60 * m) + s /\
    0 <= h /\ 0 <= m <= 59 /\ (0 <= s)%Q /\ (s < 60)%Q.
Proof.
  split; [discriminate|]. split; [reflexivity|]. split; [vm_compute; reflexivity|].
  apply (format_time_fields (7451 # 2)); [discriminate | reflexivity].
Defined.

End Timeline.

(** ** More on the choice of files ([_pick_newest], [_parse_slide_index_from_stem]) *)

Module Selection.

Import Resolver Text.

(** [best] is the first of the candidates that hold the largest
    modification time. *)
Definition first_of_newest (W : World) (paths : list pystr) (best : pystr) : Prop :=
  exists pre post,
    paths = pre ++ best :: post /\
    Forall (fun p => (mtime_or_minus_one W p < mtime_or_minus_one W best)%Q) pre /\
    Forall (fun p => (mtime_or_minus_one W p <= mtime_or_minus_one W best)%Q) post.

(** The state of the loop of [_pick_newest] after the candidates
    [seen]. *)
Definition loop_state (W : World) (p0 : pystr) (seen : list pystr) (acc : pystr * Q)
  : Prop :=
  (acc = (p0, (-1)%Q) /\ Forall (fun p => (mtime_or_minus_one W p <= -1)%Q) seen)
  \/ (snd acc = mtime_or_minus_one W (fst acc) /\ (-1 < snd acc)%Q /\
      first_of_newest W seen (fst acc)).

Lemma newer_state (W : World) (p0 : pystr) (seen : list pystr) (acc : pystr * Q)
  (p : pystr) :
  loop_state W p0 seen acc -> loop_state W p0 (seen ++ [p]) (newer W acc p).
Proof.
  intros [[E Hall] | [Et [Hpos [pre [post [Es [Hpre Hpost]]]]]]].
  - subst acc. unfold newer.
    destruct (AssSubtitle.Qltb (-1) (mtime_or_minus_one W p)) eqn:Elt.
    + apply AssSubtitle.Qltb_lt in Elt. right. cbn [fst snd].
      split; [reflexivity|]. split; [exact Elt|].
      exists seen, []. split; [reflexivity|]. split; [|constructor].
      eapply Forall_impl; [|exact Hall]. cbv beta. intros x Hx. lra.
    + apply AssSubtitle.Qltb_ge in Elt. left. split; [reflexivity|].
      apply Forall_app. split; [exact Hall | constructor; [exact Elt | constructor]].
  - destruct acc as [best best_t]. cbn [fst snd] in *. subst best_t. unfold newer.
    destruct (AssSubtitle.Qltb (mtime_or_minus_one W best) (mtime_or_minus_one W p)) eqn:Elt.
    + apply AssSubtitle.Qltb_lt in Elt. right. cbn [fst snd].
      split; [reflexivity|]. split; [lra|].
      exists seen, []. split; [reflexivity|]. split; [|constructor].
      subst seen. apply Forall_app. split.
      * eapply Forall_impl; [|exact Hpre]. cbv beta. intros x Hx. lra.
      * constructor; [lra|].
        eapply Forall_impl; [|exact Hpost]. cbv beta. intros x Hx. lra.
    + apply AssSubtitle.Qltb_ge in Elt. right. cbn [fst snd].
      split; [reflexivity|]. split; [exact Hpos|].
      exists pre, (post ++ [p]). split; [|split].
      * subst seen. now rewrite <- app_assoc.
      * exact Hpre.
      * apply Forall_app. split; [exact Hpost|]. constructor; [lra | constructor].
Qed.

Lemma fold_newer_state (W : World) (p0 : pystr) (todo seen : list pystr)
  (acc : pystr * Q) :
  loop_state W p0 seen acc ->
  loop_state W p0 (seen ++ todo) (fold_left (newer W) todo acc).
Proof.
  revert seen acc. induction todo as [|p todo IH]; intros seen acc H.
  - now rewrite app_nil_r.
  - cbn [fold_left].
    replace (seen ++ p :: todo) with ((seen ++ [p]) ++ todo)
      by (rewrite <- app_assoc; reflexivity).
    apply IH. now apply newer_state.
Qed.

(** X11.  What [_pick_newest] returns, for every list of candidates and
    every state of the file system: it raises on the empty list only;
    when some candidate has a modification time above -1 it returns the
    first of the candidates that hold the largest time (of two files
    written at the same time, the one listed first); otherwise it
    returns the first candidate. *)
Theorem pick_newest_first_of_newest (W : World) (paths : list pystr) :
  match _pick_newest W paths with
  | None => paths = []
  | Some best =>
      In best paths /\
      ((Forall (fun p => (mtime_or_minus_one W p <= -1)%Q) paths /\ hd_error paths = Some best)
       \/ ((-1 < mtime_or_minus_one W best)%Q /\ first_of_newest W paths best))
  end.
Proof.
  destruct paths as [|p0 [|p1 rest]]; [reflexivity | |].
  - cbn [_pick_newest]. split; [left; reflexivity|].
    destruct (Qlt_le_dec (-1) (mtime_or_minus_one W p0)) as [H | H].
    + right. split; [exact H|]. exists [], []. repeat split; constructor.
    + left. split; [repeat constructor; exact H | reflexivity].
  - assert (Hpick : _pick_newest W (p0 :: p1 :: rest)
                    = Some (fst (fold_left (newer W) (p0 :: p1 :: rest) (p0, (-1)%Q))))
      by reflexivity.
    rewrite Hpick. clear Hpick.
    pose proof (fold_newer_state W p0 (p0 :: p1 :: rest) [] (p0, (-1)%Q)) as Hinv.
    cbn [app] in Hinv.
    remember (fold_left (newer W) (p0 :: p1 :: rest) (p0, (-1)%Q)) as acc eqn:Eacc.
    clear Eacc.
    destruct Hinv as [[E Hall] | [Et [Hpos Hfirst]]].
    + left. split; [reflexivity | constructor].
    + rewrite E. cbn [fst]. split; [left; reflexivity|].
      left. split; [exact Hall | reflexivity].
    + split.
      * destruct Hfirst as [pre [post [Es _]]]. rewrite Es.
        apply in_or_app. right. left. reflexivity.
      * right. split; [now rewrite <- Et | exact Hfirst].
Qed.

Lemma is_decimal_digit (R : Runtime) (c : N) :
  is_digit c = true -> is_decimal R c = true.
Proof.
  unfold is_digit, is_decimal. intro H.
  destruct (c <? 128)%N eqn:E; [exact H|].
  apply andb_true_iff in H. destruct H as [_ H].
  apply N.leb_le in H. apply N.ltb_ge in E. lia.
Qed.

Lemma take_while_digits (R : Runtime) (ds : pystr) :
  digits ds = true ->
  take_while (is_decimal R) ds = ds /\ drop_while (is_decimal R) ds = [].
Proof.
  induction ds as [|c ds IH]; [split; reflexivity|].
  cbn [digits forallb]. intro H. apply andb_true_iff in H. destruct H as [Hc Hd].
  destruct (IH Hd) as [IH1 IH2].
  cbn [take_while drop_while]. rewrite (is_decimal_digit R c Hc).
  now rewrite IH1, IH2.
Qed.

(** The three spellings of a stem the pattern accepts, for a group of
    ASCII digits. *)
Lemma match_slide_stem_digits (R : Runtime) (ds : pystr) :
  digits ds = true -> ds <> [] ->
  match_slide_stem R (lit "slide_" ++ ds) = Some ds /\
  match_slide_stem R (lit "slide-" ++ ds) = Some ds /\
  match_slide_stem R (lit "slide" ++ ds) = Some ds.
Proof.
  intros Hd Hne. destruct (take_while_digits R ds Hd) as [Ht Hr].
  assert (Htr : truthy ds = true) by (destruct ds; [congruence | reflexivity]).
  unfold match_slide_stem.
  repeat split.
  - change (startswith (lit "slide") (lit "slide_" ++ ds)) with true. cbv iota.
    change (skipn 5 (lit "slide_" ++ ds)) with (95%N :: ds).
    cbv iota zeta. change ((95 =? 95)%N || (95 =? 45)%N) with true. cbv iota.
    now rewrite Ht, Hr, Htr.
  - change (startswith (lit "slide") (lit "slide-" ++ ds)) with true. cbv iota.
    change (skipn 5 (lit "slide-" ++ ds)) with (45%N :: ds).
    cbv iota zeta. change ((45 =? 95)%N || (45 =? 45)%N) with true. cbv iota.
    now rewrite Ht, Hr, Htr.
  - change (startswith (lit "slide") (lit "slide" ++ ds)) with true. cbv iota.
    change (skipn 5 (lit "slide" ++ ds)) with ds.
    destruct ds as [|c ds']; [congruence|].
    cbn [digits forallb] in Hd. apply andb_true_iff in Hd. destruct Hd as [Hc _].
    assert (Hsep : ((c =? 95) || (c =? 45))%N = false).
    { unfold is_digit in Hc. apply andb_true_iff in Hc. destruct Hc as [H1 H2].
      apply N.leb_le in H1, H2. apply orb_false_iff.
      split; apply N.eqb_neq; lia. }
    rewrite Hsep. cbv zeta. now rewrite Ht, Hr.
Qed.

Lemma stem_of_name (name ext : pystr) :
  name <> [] -> length ext = 4%nat -> stem (name ++ ext) = name.
Proof.
  intros Hne Hext. unfold stem. rewrite length_app, Hext.
  destruct name as [|c name']; [congruence|]. cbn [length].
  replace (4 <? S (length name') + 4)%nat with true
    by (symmetry; apply Nat.ltb_lt; lia).
  replace (S (length name') + 4 - 4)%nat with (length (c :: name') + 0)%nat
    by (cbn [length]; lia).
  rewrite firstn_app_2. cbn [firstn]. apply app_nil_r.
Qed.

Lemma format_03d_nonneg (n : Z) :
  0 <= n ->
  digits (format_03d n) = true /\ format_03d n <> [] /\
  decimal_int (format_03d n) = Some n.
Proof.
  intro Hn. destruct (str_of_Z_nonneg n Hn) as [Hd Hne].
  unfold format_03d. replace (n <? 0) with false by (symmetry; apply Z.ltb_ge; lia).
  unfold zero_pad.
  assert (Hds : digits (repeat 48%N (3 - length (str_of_Z n)) ++ str_of_Z n) = true).
  { unfold digits. rewrite forallb_app. fold (digits (str_of_Z n)). rewrite Hd, andb_true_r.
    induction (3 - length (str_of_Z n))%nat as [|k IH]; [reflexivity | exact IH]. }
  assert (Hnes : repeat 48%N (3 - length (str_of_Z n)) ++ str_of_Z n <> []).
  { intro E. apply app_eq_nil in E. tauto. }
  split; [exact Hds|]. split; [exact Hnes|].
  rewrite decimal_int_digits by assumption.
  rewrite decimal_digits_zeros, <- decimal_int_digits by assumption.
  now apply decimal_int_str_of_Z.
Qed.

(** A runtime whose [int] reads what the decimal reader reads. *)
Definition reads_decimal (R : Runtime) : Prop :=
  forall s v, decimal_int s = Some v -> py_int R s = Some v.

(** X12.  The names under which the slides are written are read back
    with the index they were written for: [slide_NNN.png] of the audio
    endpoint and [slide_N.png] of [process_pdf_and_script], for every
    page index [n >= 0]. *)
Theorem written_slide_names_parse (R : Runtime) (n : Z) :
  0 <= n -> reads_decimal R ->
  _parse_slide_index_from_stem R (stem (lit "slide_" ++ format_03d n ++ lit ".png"))
  = Some n /\
  _parse_slide_index_from_stem R (stem (lit "slide_" ++ str_of_Z n ++ lit ".png"))
  = Some n.
Proof.
  intros Hn HR.
  destruct (format_03d_nonneg n Hn) as [Hd3 [Hne3 Hv3]].
  destruct (str_of_Z_nonneg n Hn) as [Hd Hne].
  split.
  - rewrite app_assoc, stem_of_name by (reflexivity || discriminate).
    unfold _parse_slide_index_from_stem.
    rewrite (proj1 (match_slide_stem_digits R _ Hd3 Hne3)). now apply HR.
  - rewrite app_assoc, stem_of_name by (reflexivity || discriminate).
    unfold _parse_slide_index_from_stem.
    rewrite (proj1 (match_slide_stem_digits R _ Hd Hne)).
    apply HR. rewrite decimal_int_digits by assumption.
    rewrite <- decimal_int_digits by assumption. now apply decimal_int_str_of_Z.
Qed.

Lemma written_slide_names_parse_example :
  0 <= 7 /\ reads_decimal example_runtime /\
  _parse_slide_index_from_stem example_runtime (stem (lit "slide_007.png")) = Some 7 /\
  _parse_slide_index_from_stem example_runtime (stem (lit "slide_7.png")) = Some 7.
Proof.
  assert (HR : reads_decimal example_runtime) by (intros s v H; exact H).
  split; [lia|]. split; [exact HR|].
  exact (written_slide_names_parse example_runtime 7 ltac:(lia) HR).
Defined.

End Selection.

(** ** More on a run of [combine_audio_video] *)

Module Run.

Import Resolver Encoder Combine Text.

(** The later world holds every path of the earlier one: a run only
    adds files.  The directory listings are those read at the start. *)
Definition grows (W W' : World) : Prop :=
  (forall p, path_exists W p = true -> path_exists W' p = true) /\
  environ W' = environ W.

Lemma grows_refl (W : World) : grows W W.
Proof. split; [intros p H; exact H | reflexivity]. Qed.

Lemma grows_trans (W1 W2 W3 : World) : grows W1 W2 -> grows W2 W3 -> grows W1 W3.
Proof.
  intros [H1 E1] [H2 E2]. split; [intros p H; apply H2, H1, H | congruence].
Qed.

Lemma grows_file_written (W : World) (path : pystr) : grows W (file_written W path).
Proof.
  split; [|reflexivity]. intros p H. cbn. rewrite H. apply orb_true_r.
Qed.

Lemma pystr_eqb_refl (s : pystr) : pystr_eqb s s = true.
Proof. now apply pystr_eqb_eq. Qed.

(** The only error of the slide loops: the silence could not be
    synthesised. *)
Definition silence_failure (e : exn) : Prop :=
  exists msg, e = RuntimeError (lit "Failed to generate silence mp3: " ++ msg).

Lemma ensure_silence_spec (R : Runtime) (path : pystr) (d : Q) (st : State) :
  let out := _ensure_silence_mp3 R path d st in
  grows (world st) (world (fst out)) /\
  match snd out with
  | Ok _ => path_exists (world (fst out)) path = true
  | Raise e => silence_failure e
  end.
Proof.
  unfold _ensure_silence_mp3, mbind, get_world, ret, raise, emit, set_world.
  cbn [fst snd].
  destruct (_file_exists_nonempty (world st) path) eqn:Ex.
  - cbn [fst snd]. split; [apply grows_refl|].
    unfold _file_exists_nonempty in Ex. now apply andb_true_iff in Ex.
  - destruct (negb (returncode (run (world st) _) =? 0)); cbn [fst snd world].
    + split; [apply grows_refl|]. eexists. reflexivity.
    + split; [apply grows_file_written|]. cbn. now rewrite pystr_eqb_refl.
Qed.

Lemma build_slide_spec (R : Runtime) (temp_dir : pystr) (script_data : Z -> pystr)
  (silence : Q) (img : pystr) (idx : Z) (audio : option pystr) (st : State) :
  let out := build_slide R temp_dir script_data silence img idx audio st in
  grows (world st) (world (fst out)) /\
  match snd out with
  | Ok slide =>
      page_index slide = idx /\ image_path slide = img /\
      script_text slide = script_data idx /\
      path_exists (world (fst out)) (audio_path slide) = true
  | Raise e => silence_failure e
  end.
Proof.
  unfold build_slide, mbind, get_world. cbn [fst snd].
  destruct audio as [a|].
  - destruct (truthy a && path_exists (world st) a) eqn:Ep.
    + cbn [ret fst snd]. split; [apply grows_refl|].
      apply andb_true_iff in Ep. tauto.
    + match goal with |- context [_ensure_silence_mp3 R ?p ?d st] =>
        pose proof (ensure_silence_spec R p d st) as Hs;
        destruct (_ensure_silence_mp3 R p d st) as [st' [[]|e]] end;
        cbn [fst snd ret] in *; exact Hs || (destruct Hs; tauto).
  - match goal with |- context [_ensure_silence_mp3 R ?p ?d st] =>
      pose proof (ensure_silence_spec R p d st) as Hs;
      destruct (_ensure_silence_mp3 R p d st) as [st' [[]|e]] end;
      cbn [fst snd ret] in *; exact Hs || (destruct Hs; tauto).
Qed.

Definition on_disk (W : World) (slides : list _SlideItem) : Prop :=
  Forall (fun s => path_exists W (audio_path s) = true) slides.

Lemma on_disk_grows (W W' : World) (slides : list _SlideItem) :
  grows W W' -> on_disk W slides -> on_disk W' slides.
Proof.
  intros [Hg _] H. eapply Forall_impl; [|exact H]. cbv beta. intros s Hs. now apply Hg.
Qed.

(** The slide built for an entry of [zip(image_paths, image_indices)]. *)
Definition built_from (script_data : Z -> pystr) (ip : Z * option pystr)
  (s : _SlideItem) : Prop :=
  snd ip = Some (image_path s) /\ page_index s = fst ip /\
  script_text s = script_data (fst ip).

Lemma indexed_slides_spec (R : Runtime) (temp_dir : pystr) (script_data : Z -> pystr)
  (silence : Q) (images : list (Z * option pystr)) (slides : list _SlideItem)
  (st : State) :
  on_disk (world st) slides ->
  let out := indexed_slides R temp_dir script_data silence images slides st in
  grows (world st) (world (fst out)) /\
  match snd out with
  | Ok all =>
      exists new,
        all = slides ++ new /\ Forall2 (built_from script_data) images new /\
        on_disk (world (fst out)) all
  | Raise e =>
      silence_failure e \/ (e = IndexError /\ Exists (fun ip => snd ip = None) images)
  end.
Proof.
  revert slides st. induction images as [|[idx picked] rest IH]; intros slides st Hd.
  - cbn [indexed_slides ret fst snd]. split; [apply grows_refl|].
    exists []. rewrite app_nil_r. split; [reflexivity|]. split; [constructor | exact Hd].
  - destruct picked as [img|].
    + assert (Eq : indexed_slides R temp_dir script_data silence
                     ((idx, Some img) :: rest) slides st
                   = match build_slide R temp_dir script_data silence img idx
                             (_resolve_audio_path R (world st) temp_dir idx) st with
                     | (st1, Ok slide) =>
                         indexed_slides R temp_dir script_data silence rest
                                        (slides ++ [slide]) st1
                     | (st1, Raise e) => (st1, Raise e)
                     end) by reflexivity.
      cbv zeta. rewrite Eq. clear Eq.
      pose proof (build_slide_spec R temp_dir script_data silence img idx
                    (_resolve_audio_path R (world st) temp_dir idx) st) as Hb.
      destruct (build_slide R temp_dir script_data silence img idx
                  (_resolve_audio_path R (world st) temp_dir idx) st)
        as [st1 [slide|e]]; cbn [fst snd] in Hb; destruct Hb as [Hg1 Hb].
      * destruct Hb as [Hi [Hp [Hs Ha]]].
        assert (Hd1 : on_disk (world st1) (slides ++ [slide])).
        { apply Forall_app. split; [now apply (on_disk_grows (world st)) |].
          constructor; [exact Ha | constructor]. }
        specialize (IH (slides ++ [slide]) st1 Hd1). cbv zeta in IH.
        destruct (indexed_slides R temp_dir script_data silence rest
                    (slides ++ [slide]) st1) as [st2 [all|e]];
          cbn [fst snd] in *; destruct IH as [Hg2 IH];
          (split; [now apply (grows_trans _ (world st1)) |]).
        -- destruct IH as [new [E [F D]]]. exists (slide :: new).
           split; [rewrite E, <- app_assoc; reflexivity|]. split; [|exact D].
           constructor; [|exact F]. repeat split; cbn [fst snd]; congruence.
        -- destruct IH as [IH | [IH1 IH2]]; [now left | right].
           split; [exact IH1 | now apply Exists_cons_tl].
      * cbn [fst snd]. split; [exact Hg1 | now left].
    + cbn [indexed_slides raise fst snd]. split; [apply grows_refl|]. right.
      split; [reflexivity | now apply Exists_cons_hd].
Qed.

Lemma legacy_slides_spec (R : Runtime) (temp_dir : pystr) (script_data : Z -> pystr)
  (silence : Q) (mp3_files image_files : list pystr) (slides : list _SlideItem)
  (st : State) :
  on_disk (world st) slides ->
  let out := legacy_slides R temp_dir script_data silence mp3_files image_files
                           slides st in
  grows (world st) (world (fst out)) /\
  match snd out with
  | Ok all =>
      exists new,
        all = slides ++ new /\
        map image_path new = map (path_join R temp_dir) image_files /\
        on_disk (world (fst out)) all
  | Raise e => silence_failure e
  end.
Proof.
  revert slides st. induction image_files as [|f rest IH]; intros slides st Hd.
  - cbn [legacy_slides ret fst snd]. split; [apply grows_refl|].
    exists []. rewrite app_nil_r. split; [reflexivity|]. split; [reflexivity | exact Hd].
  - cbn [legacy_slides]. cbv zeta.
    match goal with |- context [build_slide R temp_dir script_data silence ?i ?n ?a] =>
      set (img := i); set (idx := n); set (audio := a) end.
    assert (Eq : mbind (build_slide R temp_dir script_data silence img idx audio)
                   (fun slide => legacy_slides R temp_dir script_data silence mp3_files
                                   rest (slides ++ [slide])) st
                 = match build_slide R temp_dir script_data silence img idx audio st with
                   | (st1, Ok slide) =>
                       legacy_slides R temp_dir script_data silence mp3_files rest
                                     (slides ++ [slide]) st1
                   | (st1, Raise e) => (st1, Raise e)
                   end) by reflexivity.
    rewrite Eq. clear Eq.
    pose proof (build_slide_spec R temp_dir script_data silence img idx audio st) as Hb.
    destruct (build_slide R temp_dir script_data silence img idx audio st)
      as [st1 [slide|e]]; cbn [fst snd] in Hb; destruct Hb as [Hg1 Hb].
    + destruct Hb as [Hi [Hp [Hs Ha]]].
      assert (Hd1 : on_disk (world st1) (slides ++ [slide])).
      { apply Forall_app. split; [now apply (on_disk_grows (world st)) |].
        constructor; [exact Ha | constructor]. }
      specialize (IH (slides ++ [slide]) st1 Hd1). cbv zeta in IH.
      destruct (legacy_slides R temp_dir script_data silence mp3_files rest
                  (slides ++ [slide]) st1) as [st2 [all|e]];
        cbn [fst snd] in *; destruct IH as [Hg2 IH];
        (split; [now apply (grows_trans _ (world st1)) |]).
      * destruct IH as [new [E [F D]]]. exists (slide :: new).
        split; [rewrite E, <- app_assoc; reflexivity|]. split; [|exact D].
        cbn [map]. now rewrite Hp, F.
      * exact IH.
    + cbn [fst snd]. split; [exact Hg1 | exact Hb].
Qed.

(** *** The images of a run *)

(** [idx] is allowed by [slides_count]. *)
Definition below (slides_count : option Z) (idx : Z) : Prop :=
  match slides_count with
  | Some n => idx < n
  | None => True
  end.

(** [path] is the entry [f] of the working directory, and the stem of
    [f] names the slide [idx]. *)
Definition image_of (R : Runtime) (temp_dir : pystr) (slides_count : option Z)
  (png_files : list pystr) (idx : Z) (path : pystr) : Prop :=
  exists f,
    In f png_files /\ path = path_join R temp_dir f /\
    _parse_slide_index_from_stem R (stem f) = Some idx /\ below slides_count idx.

(** The dict [by_index] while it is filled: no index twice, no index
    without a path, every path filed under the index of its name. *)
Definition index_inv (R : Runtime) (temp_dir : pystr) (slides_count : option Z)
  (png_files : list pystr) (by_index : list (Z * list pystr)) : Prop :=
  NoDup (map fst by_index) /\
  Forall (fun kv => snd kv <> [] /\
                    Forall (image_of R temp_dir slides_count png_files (fst kv)) (snd kv))
         by_index.

Lemma setdefault_append_keys (idx : Z) (path : pystr) (by_index : list (Z * list pystr)) :
  forall k, In k (map fst (setdefault_append idx path by_index))
            <-> k = idx \/ In k (map fst by_index).
Proof.
  induction by_index as [|[k0 paths] rest IH]; intro k; cbn [setdefault_append map fst In].
  - intuition.
  - destruct (k0 =? idx) eqn:E; cbn [map fst In].
    + apply Z.eqb_eq in E. subst k0. intuition.
    + rewrite IH. intuition.
Qed.

Lemma setdefault_append_inv (R : Runtime) (temp_dir : pystr) (slides_count : option Z)
  (png_files : list pystr) (idx : Z) (path : pystr) (by_index : list (Z * list pystr)) :
  image_of R temp_dir slides_count png_files idx path ->
  index_inv R temp_dir slides_count png_files by_index ->
  index_inv R temp_dir slides_count png_files (setdefault_append idx path by_index).
Proof.
  intros Hp [Hnd Hall].
  induction by_index as [|[k0 paths] rest IH]; cbn [setdefault_append].
  - split; [repeat constructor; intros []|].
    repeat constructor; [discriminate | exact Hp].
  - cbn [map fst] in Hnd. inversion Hnd as [|? ? Hnotin Hnd']; subst.
    inversion Hall as [|? ? [Hne Hk] Hall']; subst. cbn [fst snd] in *.
    destruct (k0 =? idx) eqn:E.
    + apply Z.eqb_eq in E. subst k0. split; [exact Hnd|].
      constructor; [|exact Hall']. cbn [fst snd]. split.
      * intro H. apply app_eq_nil in H. destruct H; discriminate.
      * apply Forall_app. split; [exact Hk | repeat constructor; exact Hp].
    + destruct (IH Hnd' Hall') as [IHnd IHall]. split.
      * cbn [map fst]. constructor; [|exact IHnd].
        rewrite setdefault_append_keys. apply Z.eqb_neq in E. intuition.
      * constructor; [|exact IHall]. split; assumption.
Qed.

Lemma group_by_index_inv (R : Runtime) (temp_dir : pystr) (slides_count : option Z)
  (png_files : list pystr) :
  index_inv R temp_dir slides_count png_files
            (group_by_index R temp_dir slides_count png_files).
Proof.
  unfold group_by_index.
  assert (H : forall todo acc,
             incl todo png_files ->
             index_inv R temp_dir slides_count png_files acc ->
             index_inv R temp_dir slides_count png_files
               (fold_left
                  (fun by_index f =>
                     match _parse_slide_index_from_stem R (stem f) with
                     | None => by_index
                     | Some idx =>
                         if match slides_count with
                            | Some n => n <=? idx
                            | None => false
                            end
                         then by_index
                         else setdefault_append idx (path_join R temp_dir f) by_index
                     end) todo acc)).
  { induction todo as [|f todo IH]; intros acc Hincl Hacc; [exact Hacc|].
    cbn [fold_left]. apply IH; [intros x Hx; apply Hincl; now right|].
    destruct (_parse_slide_index_from_stem R (stem f)) as [idx|] eqn:Ep; [|exact Hacc].
    destruct (match slides_count with Some n => n <=? idx | None => false end) eqn:Ec;
      [exact Hacc|].
    apply setdefault_append_inv; [|exact Hacc].
    exists f. split; [apply Hincl; now left|]. split; [reflexivity|].
    split; [exact Ep|].
    destruct slides_count as [n|]; [|exact I]. cbn. apply Z.leb_gt in Ec. exact Ec. }
  apply H; [apply incl_refl|]. split; constructor.
Qed.

Lemma insert_sorted_in (k : Z) (l : list Z) :
  forall x, In x (insert_sorted k l) <-> x = k \/ In x l.
Proof.
  induction l as [|y l IH]; intro x; cbn [insert_sorted In]; [intuition|].
  destruct (k <=? y); cbn [In]; [intuition|]. rewrite IH. intuition.
Qed.

Lemma insert_sorted_strict (k : Z) (l : list Z) :
  StronglySorted Z.lt l -> ~ In k l -> StronglySorted Z.lt (insert_sorted k l).
Proof.
  intros Hs Hn. induction Hs as [|y l Hs IH Hy]; cbn [insert_sorted].
  - repeat constructor.
  - destruct (k <=? y) eqn:E.
    + apply Z.leb_le in E.
      assert (k < y) by (assert (k <> y) by (intro; subst; apply Hn; now left); lia).
      constructor; [now constructor|]. constructor; [assumption|].
      eapply Forall_impl; [|exact Hy]. cbv beta. intros; lia.
    + apply Z.leb_gt in E. constructor.
      * apply IH. intro H. apply Hn. now right.
      * apply Forall_forall. intros x Hx. apply insert_sorted_in in Hx.
        destruct Hx as [-> | Hx]; [exact E|].
        rewrite Forall_forall in Hy. now apply Hy.
Qed.

Lemma sorted_strict (keys : list Z) :
  NoDup keys ->
  StronglySorted Z.lt (sorted keys) /\ forall x, In x (sorted keys) <-> In x keys.
Proof.
  induction keys as [|k keys IH]; intro Hnd.
  - split; [constructor | reflexivity].
  - inversion Hnd as [|? ? Hnotin Hnd']; subst. destruct (IH Hnd') as [Hs Hin].
    unfold sorted in *. cbn [fold_right]. split.
    + apply insert_sorted_strict; [exact Hs|]. now rewrite Hin.
    + intro x. rewrite insert_sorted_in, Hin. cbn [In]. intuition.
Qed.

Lemma pick_newest_member (W : World) (paths : list pystr) :
  paths <> [] -> exists best, _pick_newest W paths = Some best /\ In best paths.
Proof.
  intro Hne. destruct paths as [|p0 [|p1 rest]]; [congruence | |].
  - exists p0. split; [reflexivity | now left].
  - eexists. split; [reflexivity|].
    pose proof (fold_newer_inv W p0 (p0 :: p1 :: rest) [] (p0, (-1)%Q)) as Hinv.
    cbn [app] in Hinv.
    destruct Hinv as [[E _] | [Hin _]].
    + left. split; [reflexivity | constructor].
    + rewrite E. now left.
    + exact Hin.
Qed.

(** The images of the branch that goes by the index in the name: the
    indices rise strictly, every index has an image, and the image of an
    index is an entry of the working directory whose name carries that
    index. *)
Lemma resolve_images_spec (R : Runtime) (W : World) (temp_dir : pystr)
  (slides_count : option Z) (png_files : list pystr) :
  let images := resolve_images R W temp_dir slides_count png_files in
  StronglySorted Z.lt (map fst images) /\
  Forall (fun ip => exists path,
            snd ip = Some path /\
            image_of R temp_dir slides_count png_files (fst ip) path) images /\
  (images = [] -> group_by_index R temp_dir slides_count png_files = []).
Proof.
  unfold resolve_images.
  destruct (group_by_index_inv R temp_dir slides_count png_files) as [Hnd Hall].
  set (by_index := group_by_index R temp_dir slides_count png_files) in *.
  destruct (sorted_strict (map fst by_index) Hnd) as [Hs Hin].
  rewrite map_map. cbn [fst]. rewrite map_id. split; [exact Hs|]. split.
  - apply Forall_map, Forall_forall. intros i Hi. cbn [fst snd].
    apply Hin in Hi. apply in_map_iff in Hi. destruct Hi as [kv [Ek Hkv]].
    unfold candidates.
    destruct (find (fun kv => fst kv =? i) by_index) as [kv'|] eqn:Ef.
    + apply find_some in Ef. destruct Ef as [Hin' Ek']. apply Z.eqb_eq in Ek'.
      rewrite Forall_forall in Hall. destruct (Hall kv' Hin') as [Hne Hpaths].
      destruct (pick_newest_member W (snd kv') Hne) as [best [Eb Hb]].
      exists best. split; [exact Eb|]. rewrite Forall_forall in Hpaths.
      rewrite <- Ek'. now apply Hpaths.
    + exfalso. apply (find_none _ _ Ef kv) in Hkv. apply Z.eqb_neq in Hkv. congruence.
  - intro E. apply map_eq_nil in E.
    destruct by_index as [|kv rest]; [reflexivity|]. exfalso.
    assert (Hk : In (fst kv) (sorted (map fst (kv :: rest)))) by (apply Hin; now left).
    rewrite E in Hk. exact Hk.
Qed.

Lemma mbind_eq (A B : Type) (m : M A) (k : A -> M B) (st : State) :
  mbind m k st
  = match m st with
    | (st', Ok a) => k a st'
    | (st', Raise e) => (st', Raise e)
    end.
Proof. reflexivity. Qed.

Lemma insert_name_nonempty (f : pystr) (l : list pystr) : insert_name f l <> [].
Proof. destruct l as [|g l]; cbn; [discriminate|]. destruct (pystr_leb g f); discriminate. Qed.

Lemma sorted_names_nil (names : list pystr) : sorted_names names = [] -> names = [].
Proof.
  unfold sorted_names.
  assert (H : forall l acc, fold_left (fun acc f => insert_name f acc) l acc = [] ->
                            l = [] /\ acc = []).
  { induction l as [|f l IH]; intros acc E; [split; [reflexivity | exact E]|].
    cbn [fold_left] in E. apply IH in E. destruct E as [_ E].
    now apply insert_name_nonempty in E. }
  intro E. now apply H in E.
Qed.

(** The PNG entries of the working directory of a run. *)
Definition png_entries (R : Runtime) (W : World) (temp_dir : pystr) : list pystr :=
  filter (fun f => endswith (lit ".png") (lower R f)) (listdir W temp_dir).

(** What [combine_audio_video] has when it reaches the format check,
    and how it can fail before. *)
Lemma resolve_slides_spec (R : Runtime) (output_dir output_name : pystr)
  (slides_count : option Z) (temp_subdir : option pystr) (script_data : Z -> pystr)
  (st : State) :
  let W := world st in
  let temp_dir := _select_temp_dir R W output_dir output_name temp_subdir in
  let png_files := png_entries R W temp_dir in
  let out := resolve_slides R output_dir output_name slides_count temp_subdir
                            script_data st in
  grows W (world (fst out)) /\
  match snd out with
  | Ok (found_dir, slides) =>
      found_dir = temp_dir /\ path_exists W temp_dir = true /\
      slides <> [] /\ on_disk (world (fst out)) slides /\
      match group_by_index R temp_dir slides_count png_files with
      | [] => map image_path slides
              = map (path_join R temp_dir) (sorted_names png_files)
      | _ :: _ =>
          Forall2 (built_from script_data)
                  (resolve_images R W temp_dir slides_count png_files) slides
      end
  | Raise e =>
      (e = FileNotFoundError (lit "temp folder not found: " ++ temp_dir)
       /\ path_exists W temp_dir = false)
      \/ (e = ValueError (lit "No image files found in temp folder")
          /\ path_exists W temp_dir = true /\ png_files = [])
      \/ (silence_failure e /\ path_exists W temp_dir = true /\ png_files <> [])
  end.
Proof.
  intros W temp_dir png_files out. subst out.
  unfold resolve_slides.
  assert (Eg : forall (k : World -> M (pystr * list _SlideItem)),
             mbind get_world k st = k (world st) st) by reflexivity.
  rewrite Eg. clear Eg. fold W. fold temp_dir. fold (png_entries R W temp_dir).
  fold png_files.
  destruct (path_exists W temp_dir) eqn:Ex; cbn [negb].
  2:{ cbn [raise fst snd]. split; [apply grows_refl|]. left. split; reflexivity. }
  pose proof (resolve_images_spec R W temp_dir slides_count png_files) as Hri.
  cbv zeta in Hri. destruct Hri as [_ [Himg Hnil]].
  destruct (group_by_index R temp_dir slides_count png_files) as [|kv by_index] eqn:Eg.
  - destruct (sorted_names png_files) as [|f0 files] eqn:Es.
    + rewrite mbind_eq. cbn [raise fst snd]. split; [apply grows_refl|]. right. left.
      split; [reflexivity|]. split; [reflexivity|]. now apply sorted_names_nil.
    + assert (Hne : png_files <> []).
      { intro E. rewrite E in Es. discriminate. }
      rewrite mbind_eq.
      match goal with |- context [legacy_slides R temp_dir script_data ?sil ?mp3 _ [] st] =>
        pose proof (legacy_slides_spec R temp_dir script_data sil mp3 (f0 :: files) [] st
                      ltac:(constructor)) as Hl;
        destruct (legacy_slides R temp_dir script_data sil mp3 (f0 :: files) [] st)
          as [st1 [slides|e]] end;
        cbv zeta in Hl; cbn [fst snd] in Hl; destruct Hl as [Hg Hl].
      * destruct Hl as [new [E [Hm Hd]]]. cbn [app] in E. subst new.
        destruct slides as [|s slides]; [discriminate|].
        cbn [ret fst snd]. split; [exact Hg|].
        split; [reflexivity|]. split; [reflexivity|]. split; [discriminate|].
        split; [exact Hd | exact Hm].
      * cbn [fst snd]. split; [exact Hg|]. right. right. tauto.
  - assert (Hne : png_files <> []).
    { intro E. rewrite E in Eg. discriminate. }
    destruct (resolve_images R W temp_dir slides_count png_files) as [|ip images] eqn:Ei.
    + discriminate (Hnil eq_refl).
    + rewrite mbind_eq.
      match goal with |- context [indexed_slides R temp_dir script_data ?sil _ [] st] =>
        pose proof (indexed_slides_spec R temp_dir script_data sil (ip :: images) [] st
                      ltac:(constructor)) as Hl;
        destruct (indexed_slides R temp_dir script_data sil (ip :: images) [] st)
          as [st1 [slides|e]] end;
        cbv zeta in Hl; cbn [fst snd] in Hl; destruct Hl as [Hg Hl].
      * destruct Hl as [new [E [Hm Hd]]]. cbn [app] in E. subst new.
        destruct slides as [|s slides]; [inversion Hm|].
        cbn [ret fst snd]. split; [exact Hg|].
        split; [reflexivity|]. split; [reflexivity|]. split; [discriminate|].
        split; [exact Hd | exact Hm].
      * cbn [fst snd]. split; [exact Hg|]. right. right.
        destruct Hl as [Hl | [_ Hl]]; [tauto|]. exfalso.
        apply Exists_exists in Hl. destruct Hl as [ip' [Hin Hnone]].
        rewrite Forall_forall in Himg. destruct (Himg ip' Hin) as [path [Ep _]].
        congruence.
Qed.

(** X13.  How slide resolution ends, on a machine where the directory
    can be listed and FFmpeg can be started.  It raises
    [FileNotFoundError] exactly when the working directory is missing,
    [ValueError("No image files found in temp folder")] exactly when the
    directory exists and holds no PNG entry, and otherwise only the
    [RuntimeError] of a failed silence synthesis.  It never raises the
    [IndexError] of [_pick_newest], never raises
    [ValueError("No slides to process")], and what it returns is never
    an empty list of slides. *)
Theorem resolve_slides_failures (R : Runtime) (output_dir output_name : pystr)
  (slides_count : option Z) (temp_subdir : option pystr) (script_data : Z -> pystr)
  (st : State) :
  let W := world st in
  let temp_dir := _select_temp_dir R W output_dir output_name temp_subdir in
  match snd (resolve_slides R output_dir output_name slides_count temp_subdir
                            script_data st) with
  | Ok (found_dir, slides) =>
      found_dir = temp_dir /\ slides <> [] /\
      path_exists W temp_dir = true /\ png_entries R W temp_dir <> []
  | Raise e =>
      e <> IndexError /\ e <> ValueError (lit "No slides to process") /\
      ((e = FileNotFoundError (lit "temp folder not found: " ++ temp_dir)
        /\ path_exists W temp_dir = false)
       \/ (e = ValueError (lit "No image files found in temp folder")
           /\ path_exists W temp_dir = true /\ png_entries R W temp_dir = [])
       \/ (silence_failure e
           /\ path_exists W temp_dir = true /\ png_entries R W temp_dir <> []))
  end.
Proof.
  intros W temp_dir.
  pose proof (resolve_slides_spec R output_dir output_name slides_count temp_subdir
                script_data st) as H.
  cbv zeta in H. fold W in H. fold temp_dir in H. destruct H as [_ H].
  destruct (snd (resolve_slides R output_dir output_name slides_count temp_subdir
                   script_data st)) as [[found_dir slides]|e].
  - destruct H as [Ed [Ex [Hne [_ Hm]]]].
    split; [exact Ed|]. split; [exact Hne|]. split; [exact Ex|].
    intro E. rewrite E in Hm. cbn in Hm.
    destruct slides; [congruence | discriminate].
  - split; [|split; [|exact H]].
    + destruct H as [[E _] | [[E _] | [[msg E] _]]]; rewrite E; discriminate.
    + destruct H as [[E _] | [[E _] | [[msg E] _]]]; rewrite E; discriminate.
Qed.

(** X14.  When slide resolution returns, the audio file of every slide
    exists: it was found in the working directory or it is the silence
    the call has synthesised for the slide (a synthesis that ends with
    exit code 0 has written its file).  No file that existed at
    the start is gone, and the environment is as it was. *)
Theorem slides_have_audio_on_disk (R : Runtime) (output_dir output_name : pystr)
  (slides_count : option Z) (temp_subdir : option pystr) (script_data : Z -> pystr)
  (st : State) (found_dir : pystr) (slides : list _SlideItem) :
  let out := resolve_slides R output_dir output_name slides_count temp_subdir
                            script_data st in
  snd out = Ok (found_dir, slides) ->
  Forall (fun s => path_exists (world (fst out)) (audio_path s) = true) slides /\
  (forall p, path_exists (world st) p = true -> path_exists (world (fst out)) p = true) /\
  environ (world (fst out)) = environ (world st).
Proof.
  intros out E. subst out.
  pose proof (resolve_slides_spec R output_dir output_name slides_count temp_subdir
                script_data st) as H.
  cbv zeta in H. destruct H as [[Hg He] H]. rewrite E in H.
  destruct H as [_ [_ [_ [Hd _]]]]. split; [exact Hd|]. split; assumption.
Qed.

(** X15.  When the slides are taken by the index in their names and
    slide resolution returns, the page indices of the slides rise
    strictly (no index twice), every index is below [slides_count] when
    one is given, the image of a slide is an entry of the working
    directory whose name carries the index of the slide, and the script
    of a slide is the one filed under its index. *)
Theorem indexed_slides_in_order (R : Runtime) (output_dir output_name : pystr)
  (slides_count : option Z) (temp_subdir : option pystr) (script_data : Z -> pystr)
  (st : State) (found_dir : pystr) (slides : list _SlideItem) :
  let W := world st in
  let png_files := png_entries R W found_dir in
  snd (resolve_slides R output_dir output_name slides_count temp_subdir script_data st)
  = Ok (found_dir, slides) ->
  group_by_index R found_dir slides_count png_files <> [] ->
  StronglySorted Z.lt (map page_index slides) /\
  Forall (fun s => image_of R found_dir slides_count png_files
                            (page_index s) (image_path s)
                   /\ script_text s = script_data (page_index s)) slides.
Proof.
  intros W png_files E Hidx.
  pose proof (resolve_slides_spec R output_dir output_name slides_count temp_subdir
                script_data st) as H.
  cbv zeta in H. destruct H as [_ H]. rewrite E in H.
  destruct H as [Ed [_ [_ [_ Hm]]]]. rewrite <- Ed in Hm. fold W in Hm.
  fold png_files in Hm.
  destruct (group_by_index R found_dir slides_count png_files) as [|kv by_index];
    [congruence|].
  pose proof (resolve_images_spec R W found_dir slides_count png_files) as Hri.
  cbv zeta in Hri. destruct Hri as [Hs [Himg _]].
  revert Hs Himg Hm.
  generalize (resolve_images R W found_dir slides_count png_files).
  intros images Hs Himg Hm. clear E Hidx Ed.
  induction Hm as [|ip s images slides [Hp [Hi Hsc]] Hm IH].
  - split; constructor.
  - cbn [map] in Hs. inversion Hs as [|? ? Hs' Hlt]; subst.
    inversion Himg as [|? ? [path [Ep Him]] Himg']; subst.
    destruct (IH Hs' Himg') as [IH1 IH2]. split.
    + cbn [map]. constructor; [exact IH1|].
      rewrite Hi.
      assert (Em : map page_index slides = map fst images).
      { clear -Hm. induction Hm as [|? ? ? ? [_ [Hi _]] _ IH]; [reflexivity|].
        cbn [map]. now rewrite Hi, IH. }
      now rewrite Em.
    + constructor; [|exact IH2]. split.
      * rewrite Hi. rewrite Hp in Ep. inversion Ep; subst path. exact Him.
      * now rewrite Hsc, Hi.
Qed.

Lemma slides_have_audio_on_disk_example :
  let st := mkState Scenario.one_image [] in
  let out := resolve_slides example_runtime (lit "/out") (lit "output") None None
                            (fun _ => []) st in
  let slides := [ mkSlideItem 0 (lit "/out/temp/slide_000.png")
                              (lit "/out/temp/_silence_000.mp3") [] 5 ] in
  snd out = Ok (Scenario.temp, slides) /\
  Forall (fun s => path_exists (world (fst out)) (audio_path s) = true) slides /\
  (forall p, path_exists (world st) p = true -> path_exists (world (fst out)) p = true) /\
  environ (world (fst out)) = environ (world st).
Proof.
  split; [vm_compute; reflexivity|].
  apply (slides_have_audio_on_disk example_runtime (lit "/out") (lit "output") None None
           (fun _ => []) (mkState Scenario.one_image []) Scenario.temp).
  vm_compute. reflexivity.
Defined.

Lemma indexed_slides_in_order_example :
  let W := with_dir Scenario.idle Scenario.temp
             [lit "slide_005.png"; lit "slide_001.png"; lit "notes.png"; lit "slide_000.png"] in
  let png_files := png_entries example_runtime W Scenario.temp in
  exists slides,
    snd (resolve_slides example_runtime (lit "/out") (lit "output") (Some 2) None
                        (fun _ => []) (mkState W []))
    = Ok (Scenario.temp, slides) /\
    map page_index slides = [0; 1] /\
    group_by_index example_runtime Scenario.temp (Some 2) png_files <> [] /\
    StronglySorted Z.lt (map page_index slides) /\
    Forall (fun s => image_of example_runtime Scenario.temp (Some 2) png_files
                              (page_index s) (image_path s)
                     /\ script_text s = []) slides.
Proof.
  eexists. split; [vm_compute; reflexivity|]. split; [reflexivity|].
  split; [vm_compute; discriminate|].
  apply (indexed_slides_in_order example_runtime (lit "/out") (lit "output") (Some 2) None
           (fun _ => [])
           (mkState (with_dir Scenario.idle Scenario.temp
                       [lit "slide_005.png"; lit "slide_001.png"; lit "notes.png";
                        lit "slide_000.png"]) [])
           Scenario.temp).
  - vm_compute. reflexivity.
  - vm_compute. discriminate.
Defined.

(** *** The effects of a whole call *)

(** The subtitle step of a call, as the effect it leaves. *)
Definition subtitle_effects (R : Runtime) (output_name : pystr) (subtitle : bool)
  (temp_dir : pystr) (slides : list _SlideItem) : list Effect :=
  if subtitle
  then [ SubtitleGenerated
           (path_join R temp_dir (lit "_subtitles_" ++ output_name ++ lit ".ass"))
           (AssSubtitle._generate_ass_subtitle (slides_info slides)) ]
  else [].

(** What [finish] leaves behind for a format it knows. *)
Lemma finish_spec (R : Runtime) (output_dir : pystr) (resolution : Z)
  (output_name : pystr) (subtitle : bool) (output_format : option pystr)
  (temp_dir : pystr) (slides : list _SlideItem) (family : Format) (st : State) :
  known_format (normalise_format R output_format) = Some family ->
  let out := finish R output_dir resolution output_name subtitle output_format
                    temp_dir slides st in
  environ (world (fst out)) (lit "OUTPUT_MAX_WIDTH") = Some (str_of_Z resolution) /\
  forall path, snd out = Ok path ->
    effects (fst out)
    = effects st ++ subtitle_effects R output_name subtitle temp_dir slides
      ++ [RendererCalled family path].
Proof.
  intros Hk out. subst out. unfold finish. rewrite Hk.
  unfold subtitle_effects.
  unfold mbind, get_world, set_world, emit, lift, ret. cbn [fst snd world effects].
  destruct subtitle.
  - destruct (target_height resolution) as [h|e]; cbn [fst snd world effects].
    + match goal with |- context [render R ?w family slides ?o temp_dir ?sp] =>
        destruct (render R w family slides o temp_dir sp) as [[]|e] end;
        cbn [fst snd world effects]; (split; [reflexivity|]); intros path E;
        [|discriminate].
      inversion E; subst path. now rewrite <- app_assoc.
    + split; [reflexivity|]. intros path E. discriminate.
  - match goal with |- context [render R ?w family slides ?o temp_dir ?sp] =>
      destruct (render R w family slides o temp_dir sp) as [[]|e] end;
      cbn [fst snd world effects]; (split; [reflexivity|]); intros path E;
      [|discriminate].
    inversion E; subst path. reflexivity.
Qed.

(** X17.  The trace of a call that returns: the silences of the slides
    without audio, then the subtitle file when [subtitle] is set (its
    events are those of the slides as resolved), then one call of the
    renderer of the chosen family on the returned path, and nothing
    else. *)
Theorem combine_effects_on_success (R : Runtime) (output_dir : pystr)
  (resolution : Z) (output_name : pystr) (subtitle : bool) (slides_count : option Z)
  (temp_subdir : option pystr) (output_format : option pystr)
  (script_data : Z -> pystr) (st : State) (path : pystr) :
  let out := combine_audio_video R output_dir resolution output_name subtitle
               slides_count temp_subdir output_format script_data st in
  snd out = Ok path ->
  exists temp_dir slides silences family,
    snd (resolve_slides R output_dir output_name slides_count temp_subdir script_data st)
    = Ok (temp_dir, slides) /\
    known_format (normalise_format R output_format) = Some family /\
    Forall is_silence silences /\
    effects (fst out)
    = effects st ++ silences
      ++ subtitle_effects R output_name subtitle temp_dir slides
      ++ [RendererCalled family path].
Proof.
  intros out E. subst out. unfold combine_audio_video in *. rewrite mbind_eq in *.
  destruct (quiet_resolve_slides R output_dir output_name slides_count temp_subdir
              script_data st) as [silences [Es Hs]].
  destruct (resolve_slides R output_dir output_name slides_count temp_subdir
              script_data st) as [st1 [[temp_dir slides]|e]];
    cbn [fst snd] in *; [|discriminate].
  destruct (known_format (normalise_format R output_format)) as [family|] eqn:Ek.
  - exists temp_dir, slides, silences, family.
    split; [reflexivity|]. split; [reflexivity|]. split; [exact Hs|].
    destruct (finish_spec R output_dir resolution output_name subtitle output_format
                temp_dir slides family st1 Ek) as [_ Hf].
    rewrite (Hf path E), Es, <- app_assoc. reflexivity.
  - unfold finish in E. rewrite Ek in E. discriminate.
Qed.

Lemma combine_effects_on_success_example :
  let st := mkState Scenario.one_image [] in
  let out := combine_audio_video example_runtime (lit "/out") 1280 (lit "output") true
               None None (Some (lit " MP4 ")) (fun _ => lit "Hi! Yo") st in
  snd out = Ok (lit "/out/output.mp4") /\
  exists temp_dir slides silences family,
    snd (resolve_slides example_runtime (lit "/out") (lit "output") None None
                        (fun _ => lit "Hi! Yo") st)
    = Ok (temp_dir, slides) /\
    known_format (normalise_format example_runtime (Some (lit " MP4 "))) = Some family /\
    Forall is_silence silences /\
    effects (fst out)
    = effects st ++ silences
      ++ subtitle_effects example_runtime (lit "output") true temp_dir slides
      ++ [RendererCalled family (lit "/out/output.mp4")].
Proof.
  split; [vm_compute; reflexivity|].
  apply (combine_effects_on_success example_runtime (lit "/out") 1280 (lit "output") true
           None None (Some (lit " MP4 ")) (fun _ => lit "Hi! Yo")
           (mkState Scenario.one_image []) (lit "/out/output.mp4")).
  vm_compute. reflexivity.
Defined.

(** X18.  The width of the request reaches the renderer through the
    environment: once slide resolution has returned and the format is
    known, [OUTPUT_MAX_WIDTH] holds [str(resolution)] in the world the
    call leaves, whether the encoder succeeds or not, so that
    [_get_output_max_width] reads the resolution back (for a width that
    is not negative and an [int] that reads decimal numerals); a call
    that ends before the format check leaves the environment as it
    was. *)
Theorem width_reaches_renderer (R : Runtime) (output_dir : pystr)
  (resolution : Z) (output_name : pystr) (subtitle : bool) (slides_count : option Z)
  (temp_subdir : option pystr) (output_format : option pystr)
  (script_data : Z -> pystr) (st : State) :
  let out := combine_audio_video R output_dir resolution output_name subtitle
               slides_count temp_subdir output_format script_data st in
  match snd (resolve_slides R output_dir output_name slides_count temp_subdir
                            script_data st),
        known_format (normalise_format R output_format) with
  | Ok _, Some _ =>
      environ (world (fst out)) (lit "OUTPUT_MAX_WIDTH") = Some (str_of_Z resolution) /\
      (0 <= resolution -> Selection.reads_decimal R ->
       _get_output_max_width R (world (fst out)) = resolution)
  | _, _ => environ (world (fst out)) = environ (world st)
  end.
Proof.
  intro out. subst out. unfold combine_audio_video. rewrite mbind_eq.
  pose proof (resolve_slides_spec R output_dir output_name slides_count temp_subdir
                script_data st) as H.
  cbv zeta in H. destruct H as [[_ He] _].
  destruct (resolve_slides R output_dir output_name slides_count temp_subdir
              script_data st) as [st1 [[temp_dir slides]|e]];
    cbn [fst snd] in *; [|exact He].
  destruct (known_format (normalise_format R output_format)) as [family|] eqn:Ek.
  - destruct (finish_spec R output_dir resolution output_name subtitle output_format
                temp_dir slides family st1 Ek) as [Hw _].
    split; [exact Hw|]. intros Hres HR.
    unfold _get_output_max_width, env_int, environ_get. rewrite Hw.
    rewrite (HR (str_of_Z resolution) resolution); [reflexivity|].
    now apply decimal_int_str_of_Z.
  - unfold finish. rewrite Ek. cbn [raise fst snd]. exact He.
Qed.

(** *** The pages of [process_pdf_and_script] *)

(** X19.  The duration [process_pdf_and_script] gives a page never
    passes the test [d <= 0] of the code.  For a page without narration
    (a blank script, or no audio file after the speech step) it is the
    silence length, replaced by 0.01 s when that is zero or less; for a
    narrated page it is the measured length of the audio, replaced
    likewise.  The step raises only when the page is narrated and both
    probes of its audio file fail: here the error is not swallowed as
    [combine_audio_video] swallows it. *)
Theorem pdf_page_duration (R : Runtime) (W : World) (script_text audio_path : pystr) :
  let narrated := negb (blank script_text) && path_exists W audio_path in
  let floor_ (d : Q) := if Qle_bool d 0 then (1 # 100)%Q else d in
  match pdf_slide_duration R W script_text audio_path with
  | Ok d =>
      Qle_bool d 0 = false /\
      (narrated = false -> d = floor_ (_get_silence_slide_duration R W)) /\
      (narrated = true ->
       exists measured,
         _get_audio_duration_seconds W audio_path = Ok measured /\ d = floor_ measured)
  | Raise e =>
      narrated = true /\ _get_audio_duration_seconds W audio_path = Raise e
  end.
Proof.
  intros narrated floor_. subst narrated.
  assert (Hpos : forall d, Qle_bool (floor_ d) 0 = false).
  { intro d. unfold floor_. destruct (Qle_bool d 0) eqn:Ed; [reflexivity | exact Ed]. }
  unfold pdf_slide_duration. rewrite strip_truthy.
  destruct (blank script_text); cbn [negb andb].
  - cbn [bind]. fold (floor_ (_get_silence_slide_duration R W)).
    split; [apply Hpos|]. split; [reflexivity | discriminate].
  - destruct (path_exists W audio_path).
    + destruct (_get_audio_duration_seconds W audio_path) as [measured|e]; cbn [bind].
      * fold (floor_ measured). split; [apply Hpos|]. split; [discriminate|].
        intros _. exists measured. split; reflexivity.
      * split; reflexivity.
    + cbn [bind]. fold (floor_ (_get_silence_slide_duration R W)).
      split; [apply Hpos|]. split; [reflexivity | discriminate].
Qed.

End Run.

(** ** Voices, the pronunciation dictionary and the narration of one slide
    ([_resolve_voice_preset], [_get_voice_preset_params],
    [_apply_pronounce_dict_ssml], [generate_single_audio]) *)

Module Narration.

Import Resolver Text.

(** A [dict[str, str]] in insertion order. *)
Definition StrDict := list (pystr * pystr).

(** [d.get(key)]. *)
Definition dict_get (d : StrDict) (key : pystr) : option pystr :=
  option_map snd (find (fun kv => pystr_eqb (fst kv) key) d).

Definition nanami : pystr := lit "ja-JP-NanamiNeural".
Definition keita : pystr := lit "ja-JP-KeitaNeural".

Definition female_1 : pystr := [22899; 22768; 49]%N.
Definition female_2 : pystr := [22899; 22768; 50]%N.
Definition female_3 : pystr := [22899; 22768; 51]%N.
Definition male_1 : pystr := [30007; 22768; 49]%N.

Definition VOICE_PRESET_MAP : StrDict :=
  [ (lit "female", nanami); (lit "male", keita);
    (female_1, nanami); (female_2, nanami); (female_3, nanami);
    (male_1, keita) ].

(** The values of [VOICE_PRESET_PARAMS]: a dict with the keys [rate],
    [pitch] and [volume]. *)
Record VoiceParams := mkParams {
  rate : pystr;
  pitch : pystr;
  volume : pystr
}.

Definition VOICE_PRESET_PARAMS : list (pystr * VoiceParams) :=
  [ (female_1, mkParams (lit "+50%") (lit "+0Hz") (lit "+0%"));
    (female_2, mkParams (lit "+40%") (lit "+15Hz") (lit "+0%"));
    (female_3, mkParams (lit "+42%") (lit "-15Hz") (lit "+0%"));
    (male_1, mkParams (lit "+50%") (lit "+0Hz") (lit "+0%")) ].

Definition params_get (key : pystr) : option VoiceParams :=
  option_map snd (find (fun kv => pystr_eqb (fst kv) key) VOICE_PRESET_PARAMS).

(** The parameters that leave the voice as it is. *)
Definition neutral : VoiceParams := mkParams (lit "+0%") (lit "+0Hz") (lit "+0%").

(** The two first statements of both functions: the argument, or the
    variable [SVM_VOICE] when the argument is empty or blank. *)
Definition raw_voice (W : World) (voice_gender_or_name : option pystr) : pystr :=
  let raw := strip (match voice_gender_or_name with Some v => v | None => [] end) in
  if negb (truthy raw) then strip (environ_get W (lit "SVM_VOICE") []) else raw.

(** [_resolve_voice_preset]; [Raise] stands for the [KeyError] of
    [VOICE_PRESET_MAP["female"]]. *)
Definition _resolve_voice_preset (R : Runtime) (W : World)
  (voice_gender_or_name : option pystr) : result pystr :=
  let raw := raw_voice W voice_gender_or_name in
  if negb (truthy raw) then
    match dict_get VOICE_PRESET_MAP (lit "female") with
    | Some v => Ok v
    | None => Raise OtherException
    end
  else
    let key := lower R raw in
    match dict_get VOICE_PRESET_MAP key with
    | Some v => Ok v
    | None => Ok raw
    end.

Definition _get_voice_preset_params (R : Runtime) (W : World)
  (voice_gender_or_name : option pystr) : VoiceParams :=
  let raw := raw_voice W voice_gender_or_name in
  if negb (truthy raw) then
    match params_get female_1 with
    | Some p => p
    | None => neutral
    end
  else
    let key := lower R raw in
    match params_get key with
    | Some p => p
    | None => neutral
    end.

(** [s.replace(old, new)] for a non-empty [old]: the occurrences of
    [old] are taken from left to right and do not overlap.  [skip]
    counts the characters of the occurrence just replaced that are
    still to be passed over. *)
Fixpoint replace_go (old new : pystr) (skip : nat) (s : pystr) : pystr :=
  match s with
  | [] => []
  | c :: s' =>
      match skip with
      | S k => replace_go old new k s'
      | O =>
          if startswith old s
          then new ++ replace_go old new (length old - 1) s'
          else c :: replace_go old new 0 s'
      end
  end.

Definition replace (old new s : pystr) : pystr := replace_go old new 0 s.

(** [entry.get(key, default)] with the empty string as the default. *)
Definition entry_get (entry : StrDict) (key : pystr) : pystr :=
  match dict_get entry key with
  | Some v => v
  | None => []
  end.

(** [_apply_pronounce_dict_ssml]; [replace] is only reached with a
    [word] that is not empty. *)
Definition _apply_pronounce_dict_ssml (text : pystr) (pronounce_dict : list StrDict)
  (voice : pystr) : pystr :=
  match pronounce_dict with
  | [] => text
  | _ :: _ =>
      fold_left
        (fun result entry =>
           let word := entry_get entry (lit "word") in
           let alias := entry_get entry (lit "alias") in
           if truthy word && truthy alias then replace word alias result else result)
        pronounce_dict text
  end.

(** The call of [generate_voice]: what is sent to the speech service. *)
Record VoiceRequest := mkRequest {
  req_text : pystr;
  req_output_path : pystr;
  req_voice : pystr;
  req_params : VoiceParams
}.

(** [generate_single_audio]: the call of [generate_voice] it makes, if
    any, and the path it returns when that call returns. *)
Definition generate_single_audio (R : Runtime) (W : World) (slide_index : Z)
  (script : pystr) (output_dir : pystr) (temp_dir : option pystr)
  (voice : option pystr) (pronounce_dict : option (list StrDict))
  : result (option VoiceRequest * pystr) :=
  let base_temp_dir :=
    match temp_dir with
    | Some d => if truthy d then d else path_join R output_dir (lit "temp")
    | None => path_join R output_dir (lit "temp")
    end in
  let audio_path :=
    path_join R base_temp_dir (lit "slide_" ++ format_03d slide_index ++ lit ".mp3") in
  if truthy script && truthy (strip script) then
    let text_to_speak := strip script in
    text_to_speak <-
      match pronounce_dict with
      | Some (entry :: rest) =>
          v <- _resolve_voice_preset R W voice ;;
          Ok (_apply_pronounce_dict_ssml text_to_speak (entry :: rest) v)
      | _ => Ok text_to_speak
      end ;;
    let voice_params := _get_voice_preset_params R W voice in
    v <- _resolve_voice_preset R W voice ;;
    Ok (Some (mkRequest text_to_speak audio_path v voice_params), audio_path)
  else Ok (None, []).

(** *** Voices *)

Lemma params_keys_are_voices (key : pystr) (p : VoiceParams) :
  params_get key = Some p ->
  dict_get VOICE_PRESET_MAP key = Some nanami \/ dict_get VOICE_PRESET_MAP key = Some keita.
Proof.
  unfold params_get, dict_get, VOICE_PRESET_PARAMS, VOICE_PRESET_MAP.
  cbn [find fst snd].
  destruct (pystr_eqb female_1 key) eqn:E1.
  { apply Combine.pystr_eqb_eq in E1. subst key. intros _. now left. }
  destruct (pystr_eqb female_2 key) eqn:E2.
  { apply Combine.pystr_eqb_eq in E2. subst key. intros _. now left. }
  destruct (pystr_eqb female_3 key) eqn:E3.
  { apply Combine.pystr_eqb_eq in E3. subst key. intros _. now left. }
  destruct (pystr_eqb male_1 key) eqn:E4.
  { apply Combine.pystr_eqb_eq in E4. subst key. intros _. now right. }
  discriminate.
Qed.

Lemma map_values_nonempty (key v : pystr) :
  dict_get VOICE_PRESET_MAP key = Some v -> v = nanami \/ v = keita.
Proof.
  unfold dict_get, VOICE_PRESET_MAP. cbn [find fst snd].
  repeat match goal with
         | |- context [if pystr_eqb ?a key then _ else _] =>
             destruct (pystr_eqb a key)
         end; cbn; intro E; inversion E; auto.
Qed.

Lemma voice_preset_never_raises (R : Runtime) (W : World) (voice : option pystr) :
  exists v, _resolve_voice_preset R W voice = Ok v.
Proof.
  unfold _resolve_voice_preset.
  destruct (raw_voice W voice) as [|c raw]; cbn [truthy negb].
  - eexists. reflexivity.
  - destruct (dict_get VOICE_PRESET_MAP (lower R (c :: raw))); eexists; reflexivity.
Qed.

(** X20.  [_resolve_voice_preset] never raises and never returns an
    empty voice name; an argument that is not blank decides alone,
    whatever the variable [SVM_VOICE] holds; and parameters other than
    the neutral ones are only ever given together with one of the two
    preset voices: a voice named directly is spoken with rate, pitch
    and volume untouched. *)
Theorem voice_preset_consistent (R : Runtime) (W : World) (voice : option pystr) :
  (exists v, _resolve_voice_preset R W voice = Ok v /\ v <> []) /\
  (forall v W',
     voice = Some v -> strip v <> [] ->
     _resolve_voice_preset R W voice = _resolve_voice_preset R W' voice /\
     _get_voice_preset_params R W voice = _get_voice_preset_params R W' voice) /\
  (_get_voice_preset_params R W voice = neutral
   \/ _resolve_voice_preset R W voice = Ok nanami
   \/ _resolve_voice_preset R W voice = Ok keita).
Proof.
  split; [|split].
  - unfold _resolve_voice_preset.
    destruct (raw_voice W voice) as [|c raw] eqn:Er; cbn [truthy negb].
    + eexists. split; [reflexivity | discriminate].
    + destruct (dict_get VOICE_PRESET_MAP (lower R (c :: raw))) as [v|] eqn:Ek.
      * exists v. split; [reflexivity|].
        destruct (map_values_nonempty _ _ Ek) as [-> | ->]; discriminate.
      * eexists. split; [reflexivity | discriminate].
  - intros v W' -> Hv.
    assert (E : raw_voice W (Some v) = raw_voice W' (Some v)).
    { unfold raw_voice. destruct (strip v); [congruence | reflexivity]. }
    unfold _resolve_voice_preset, _get_voice_preset_params.
    rewrite E. split; reflexivity.
  - unfold _resolve_voice_preset, _get_voice_preset_params.
    destruct (raw_voice W voice) as [|c raw] eqn:Er; cbn [truthy negb].
    + right. left. reflexivity.
    + destruct (params_get (lower R (c :: raw))) as [p|] eqn:Ep; [|now left].
      right.
      destruct (params_keys_are_voices _ _ Ep) as [E | E]; rewrite E; auto.
Qed.

(** *** The pronunciation dictionary *)

Lemma replace_absent (old new s : pystr) :
  contains old s = false -> replace old new s = s.
Proof.
  unfold replace. induction s as [|c s IH]; [reflexivity|].
  cbn [contains replace_go]. intro H. apply orb_false_iff in H. destruct H as [Hs Hc].
  rewrite Hs. now rewrite IH.
Qed.

(** The replacement of one character, as the other functions use it,
    is the general one on a string of length one. *)
Lemma replace_one_char (c : N) (new s : pystr) :
  replace [c] new s = replace_char c new s.
Proof.
  unfold replace, replace_char. induction s as [|x s IH]; [reflexivity|].
  cbn [replace_go startswith flat_map length Nat.sub].
  rewrite (N.eqb_sym c x).
  destruct (x =? c)%N; cbn [andb]; rewrite IH; [|reflexivity].
  destruct s; reflexivity.
Qed.

(** An entry that takes part: it has a word and an alias. *)
Definition takes_part (entry : StrDict) : bool :=
  truthy (entry_get entry (lit "word")) && truthy (entry_get entry (lit "alias")).

(** X21.  The dictionary changes a text only where one of its words
    occurs: when no word of an entry that takes part occurs in the
    text, the text is returned as it is, whatever the aliases and
    whatever the voice; entries without a word or without an alias
    never count. *)
Theorem pronounce_dict_without_occurrence (text : pystr)
  (pronounce_dict : list StrDict) (voice : pystr) :
  Forall (fun entry => takes_part entry = true ->
                       contains (entry_get entry (lit "word")) text = false)
         pronounce_dict ->
  _apply_pronounce_dict_ssml text pronounce_dict voice = text.
Proof.
  intro H. unfold _apply_pronounce_dict_ssml.
  destruct pronounce_dict as [|e0 rest]; [reflexivity|].
  induction H as [|entry l He Hl IH]; [reflexivity|].
  cbn [fold_left]. fold (takes_part entry).
  destruct (takes_part entry); [|exact IH].
  rewrite replace_absent by (now apply He). exact IH.
Qed.

Lemma pronounce_dict_without_occurrence_example :
  let d := [ [(lit "word", lit "AI"); (lit "alias", lit "ei ai")];
             [(lit "word", lit "hello")];
             [(lit "alias", lit "x")] ] in
  Forall (fun entry => takes_part entry = true ->
                       contains (entry_get entry (lit "word")) (lit "hello world") = false) d
  /\ _apply_pronounce_dict_ssml (lit "hello world") d nanami = lit "hello world"
  /\ _apply_pronounce_dict_ssml (lit "AI and AI") d nanami = lit "ei ai and ei ai".
Proof.
  assert (H : Forall (fun entry => takes_part entry = true ->
                contains (entry_get entry (lit "word")) (lit "hello world") = false)
                [ [(lit "word", lit "AI"); (lit "alias", lit "ei ai")];
                  [(lit "word", lit "hello")];
                  [(lit "alias", lit "x")] ]).
  { repeat constructor; vm_compute; intro E; reflexivity || discriminate E. }
  split; [exact H|]. split; [|vm_compute; reflexivity].
  exact (pronounce_dict_without_occurrence (lit "hello world") _ nanami H).
Defined.

(** *** The narration of one slide *)



(** A dictionary of one entry is applied: its first entry is not
    passed over. *)
Lemma narration_applies_first_entry (R : Runtime) (W : World) :
  let d := [ [(lit "word", lit "AI"); (lit "alias", lit "ei ai")] ] in
  exists req path,
    generate_single_audio R W 1 (lit " AI and AI ") (lit "out") None (Some (lit "female"))
                          (Some d) = Ok (Some req, path) /\
    req_text req = lit "ei ai and ei ai".
Proof.
  intro d. subst d. unfold generate_single_audio.
  destruct (voice_preset_never_raises R W (Some (lit "female"))) as [v Ev].
  change (truthy (lit " AI and AI ") && truthy (strip (lit " AI and AI "))) with true.
  cbv beta iota zeta. rewrite Ev. cbn [bind].
  eexists. eexists. split; [reflexivity|].
  cbn [req_text]. vm_compute. reflexivity.
Qed.

End Narration.

(** ** The local API and the command line ([server.py], [main.py]) *)

Module Server.

Import Encoder Text.

(** The table [RESOLUTION_MAP] of [server.py] and of [main.py]. *)
Definition RESOLUTION_MAP : list (pystr * Z) :=
  [ (lit "720", 1280); (lit "720p", 1280);
    (lit "1080", 1920); (lit "1080p", 1920);
    (lit "1440", 2560); (lit "1440p", 2560) ].

(** [RESOLUTION_MAP.get(resolution, 1280)]. *)
Definition resolution_width (resolution : pystr) : Z :=
  match find (fun kv => pystr_eqb (fst kv) resolution) RESOLUTION_MAP with
  | Some kv => snd kv
  | None => 1280
  end.












(** X24.  Whatever resolution the request or the command line names,
    the width handed on is 1280, 1920 or 2560, and the target height of
    the renderer for it is exactly nine sixteenths of it: the canvas is
    1280x720, 1920x1080 or 2560x1440; a name that is not in the table
    gives 1280x720. *)
Theorem resolution_gives_sixteen_nine (resolution : pystr) :
  let width := resolution_width resolution in
  exists height,
    target_height width = Ok height /\ 16 * height = 9 * width /\
    In (width, height) [(1280, 720); (1920, 1080); (2560, 1440)] /\
    (find (fun kv => pystr_eqb (fst kv) resolution) RESOLUTION_MAP = None ->
     width = 1280).
Proof.
  unfold resolution_width, RESOLUTION_MAP. cbn [find fst snd].
  repeat match goal with
         | |- context [if pystr_eqb ?a resolution then _ else _] =>
             destruct (pystr_eqb a resolution)
         end;
    cbv zeta; eexists; (split; [vm_compute; reflexivity|]);
    (split; [reflexivity|]); (split; [cbn; tauto|]); intro H; reflexivity || discriminate H.
Qed.

End Server.

(** ** Outbound TLS settings ([svm_tls.py]) *)

Module Tls.

Import Text.

(** [_truthy]. *)
Definition _truthy (R : Runtime) (v : option pystr) : bool :=
  match v with
  | None => false
  | Some s =>
      existsb (pystr_eqb (lower R (strip s)))
              [lit "1"; lit "true"; lit "yes"; lit "on"]
  end.

(** The loop of [get_https_proxy_from_env] over the keys. *)
Fixpoint first_proxy (W : World) (keys : list pystr) : option pystr :=
  match keys with
  | [] => None
  | key :: rest =>
      match environ W key with
      | Some v => if truthy v && truthy (strip v) then Some (strip v) else first_proxy W rest
      | None => first_proxy W rest
      end
  end.

Definition proxy_keys : list pystr :=
  [lit "SVM_HTTPS_PROXY"; lit "HTTPS_PROXY"; lit "https_proxy"].

Definition get_https_proxy_from_env (W : World) : option pystr :=
  first_proxy W proxy_keys.

Record TlsConfigResult := mkTlsConfigResult {
  used_truststore : bool;
  ssl_cert_file : option pystr;
  ssl_cert_dir : option pystr
}.

(** The module variable [_CONFIGURED] and the environment. *)
Record TlsState := mkTlsState {
  configured : bool;
  tls_world : World
}.

(** [os.environ[target] = value] when [os.environ.get(source)] is a
    string that is not empty. *)
Definition copy_variable (W : World) (source target : pystr) : World :=
  match environ W source with
  | Some value => if truthy value then environ_set W target value else W
  | None => W
  end.

(** [configure_outbound_tls].  [truststore_injects] tells whether
    [import truststore] and [truststore.inject_into_ssl()] go through
    on this machine. *)
Definition configure_outbound_tls (R : Runtime) (truststore_injects : bool)
  (st : TlsState) : TlsState * TlsConfigResult :=
  let W := tls_world st in
  if configured st then
    (st, mkTlsConfigResult false (environ W (lit "SSL_CERT_FILE"))
                           (environ W (lit "SSL_CERT_DIR")))
  else
    let used_truststore :=
      if match environ W (lit "SVM_USE_TRUSTSTORE") with None => true | Some _ => false end
         || _truthy R (environ W (lit "SVM_USE_TRUSTSTORE"))
      then truststore_injects else false in
    let W := copy_variable W (lit "SVM_SSL_CERT_FILE") (lit "SSL_CERT_FILE") in
    let W := copy_variable W (lit "SVM_SSL_CERT_DIR") (lit "SSL_CERT_DIR") in
    (mkTlsState true W,
     mkTlsConfigResult used_truststore (environ W (lit "SSL_CERT_FILE"))
                       (environ W (lit "SSL_CERT_DIR"))).

(** A value that counts: set, and not blank. *)
Definition proxy_value (W : World) (key : pystr) : option pystr :=
  match environ W key with
  | Some v => if blank v then None else Some (strip v)
  | None => None
  end.

Lemma first_proxy_step (W : World) (key : pystr) (rest : list pystr) :
  first_proxy W (key :: rest)
  = match proxy_value W key with
    | Some p => Some p
    | None => first_proxy W rest
    end.
Proof.
  cbn [first_proxy]. unfold proxy_value.
  destruct (environ W key) as [v|]; [|reflexivity].
  rewrite strip_truthy. destruct (blank v) eqn:Eb; cbn [negb].
  - now rewrite andb_false_r.
  - destruct v; [discriminate | reflexivity].
Qed.

Lemma proxy_value_trimmed (W : World) (key p : pystr) :
  proxy_value W key = Some p -> p <> [] /\ strip p = p.
Proof.
  unfold proxy_value. destruct (environ W key) as [v|]; [|discriminate].
  destruct (blank v) eqn:Eb; [discriminate|]. intro E. inversion E; subst p. split.
  - intro H. apply blank_strip_nil in H. congruence.
  - apply strip_strip.
Qed.

(** X25.  The proxy read from the environment is the value of the
    first of [SVM_HTTPS_PROXY], [HTTPS_PROXY] and [https_proxy] that is
    set and not blank, with the white space around it removed; it is
    never empty or blank; and there is none exactly when each of the
    three is unset or blank. *)
Theorem https_proxy_first_set (W : World) :
  let svm := proxy_value W (lit "SVM_HTTPS_PROXY") in
  let upper := proxy_value W (lit "HTTPS_PROXY") in
  let lower_ := proxy_value W (lit "https_proxy") in
  get_https_proxy_from_env W
  = match svm, upper with
    | Some p, _ => Some p
    | None, Some p => Some p
    | None, None => lower_
    end /\
  match get_https_proxy_from_env W with
  | Some p => p <> [] /\ strip p = p /\ blank p = false
  | None => svm = None /\ upper = None /\ lower_ = None
  end.
Proof.
  intros svm upper lower_. unfold get_https_proxy_from_env, proxy_keys.
  rewrite !first_proxy_step. cbn [first_proxy]. fold svm upper lower_.
  assert (H : forall key p, proxy_value W key = Some p ->
                            p <> [] /\ strip p = p /\ blank p = false).
  { intros key p E. destruct (proxy_value_trimmed W key p E) as [Hne Hs].
    split; [exact Hne|]. split; [exact Hs|].
    destruct (blank p) eqn:Eb; [|reflexivity].
    apply blank_strip_nil in Eb. congruence. }
  destruct svm as [p|] eqn:E1.
  { split; [reflexivity | now apply (H (lit "SVM_HTTPS_PROXY"))]. }
  destruct upper as [p|] eqn:E2.
  { split; [reflexivity | now apply (H (lit "HTTPS_PROXY"))]. }
  destruct lower_ as [p|] eqn:E3.
  { split; [reflexivity | now apply (H (lit "https_proxy"))]. }
  split; [reflexivity | repeat split].
Qed.

Lemma environ_set_same (W : World) (key value : pystr) :
  environ (environ_set W key value) key = Some value.
Proof. cbn. now rewrite (proj2 (Combine.pystr_eqb_eq key key) eq_refl). Qed.

Lemma environ_set_other (W : World) (key value other : pystr) :
  pystr_eqb other key = false ->
  environ (environ_set W key value) other = environ W other.
Proof. intro H. cbn. now rewrite H. Qed.

(** X26.  [configure_outbound_tls] acts once.  Its first call copies
    [SVM_SSL_CERT_FILE] to [SSL_CERT_FILE] and [SVM_SSL_CERT_DIR] to
    [SSL_CERT_DIR] when they are set and not empty, leaves each target
    as it was otherwise, and reports the two targets; it reports the
    trust store only when [SVM_USE_TRUSTSTORE] is unset or truthy and
    the injection goes through.  Every later call changes nothing,
    reports the same two targets and never reports the trust store,
    even when the [SVM_] variables have changed in between. *)
Theorem configure_outbound_tls_once (R : Runtime) (injects injects' : bool) (W : World) :
  let first := configure_outbound_tls R injects (mkTlsState false W) in
  let again := configure_outbound_tls R injects' (fst first) in
  let target (source old : pystr) :=
    match environ W source with
    | Some v => if truthy v then Some v else environ W old
    | None => environ W old
    end in
  configured (fst first) = true /\
  ssl_cert_file (snd first) = target (lit "SVM_SSL_CERT_FILE") (lit "SSL_CERT_FILE") /\
  ssl_cert_dir (snd first) = target (lit "SVM_SSL_CERT_DIR") (lit "SSL_CERT_DIR") /\
  environ (tls_world (fst first)) (lit "SSL_CERT_FILE") = ssl_cert_file (snd first) /\
  environ (tls_world (fst first)) (lit "SSL_CERT_DIR") = ssl_cert_dir (snd first) /\
  (used_truststore (snd first) = true ->
   injects = true /\
   (environ W (lit "SVM_USE_TRUSTSTORE") = None
    \/ _truthy R (environ W (lit "SVM_USE_TRUSTSTORE")) = true)) /\
  fst again = fst first /\
  used_truststore (snd again) = false /\
  ssl_cert_file (snd again) = ssl_cert_file (snd first) /\
  ssl_cert_dir (snd again) = ssl_cert_dir (snd first) /\
  forall W', configure_outbound_tls R injects' (mkTlsState true W')
             = (mkTlsState true W',
                mkTlsConfigResult false (environ W' (lit "SSL_CERT_FILE"))
                                  (environ W' (lit "SSL_CERT_DIR"))).
Proof.
  intros first again target. subst first again target.
  unfold configure_outbound_tls. cbn [configured tls_world fst snd
    used_truststore ssl_cert_file ssl_cert_dir].
  set (W1 := copy_variable W (lit "SVM_SSL_CERT_FILE") (lit "SSL_CERT_FILE")).
  set (W2 := copy_variable W1 (lit "SVM_SSL_CERT_DIR") (lit "SSL_CERT_DIR")).
  assert (E1f : environ W1 (lit "SSL_CERT_FILE")
                = match environ W (lit "SVM_SSL_CERT_FILE") with
                  | Some v => if truthy v then Some v else environ W (lit "SSL_CERT_FILE")
                  | None => environ W (lit "SSL_CERT_FILE")
                  end).
  { unfold W1, copy_variable.
    destruct (environ W (lit "SVM_SSL_CERT_FILE")) as [v|]; [|reflexivity].
    destruct (truthy v); [apply environ_set_same | reflexivity]. }
  assert (E1o : forall key, pystr_eqb key (lit "SSL_CERT_FILE") = false ->
                            environ W1 key = environ W key).
  { intros key Hk. unfold W1, copy_variable.
    destruct (environ W (lit "SVM_SSL_CERT_FILE")) as [v|]; [|reflexivity].
    destruct (truthy v); [now apply environ_set_other | reflexivity]. }
  assert (E2d : environ W2 (lit "SSL_CERT_DIR")
                = match environ W (lit "SVM_SSL_CERT_DIR") with
                  | Some v => if truthy v then Some v else environ W (lit "SSL_CERT_DIR")
                  | None => environ W (lit "SSL_CERT_DIR")
                  end).
  { unfold W2, copy_variable. rewrite !(E1o (lit "SVM_SSL_CERT_DIR") eq_refl).
    destruct (environ W (lit "SVM_SSL_CERT_DIR")) as [v|];
      [|now rewrite (E1o (lit "SSL_CERT_DIR") eq_refl)].
    destruct (truthy v); [apply environ_set_same|].
    now rewrite (E1o (lit "SSL_CERT_DIR") eq_refl). }
  assert (E2f : environ W2 (lit "SSL_CERT_FILE") = environ W1 (lit "SSL_CERT_FILE")).
  { unfold W2, copy_variable.
    destruct (environ W1 (lit "SVM_SSL_CERT_DIR")) as [v|]; [|reflexivity].
    destruct (truthy v); [now apply environ_set_other | reflexivity]. }
  split; [reflexivity|]. split; [now rewrite E2f, E1f|]. split; [exact E2d|].
  split; [reflexivity|]. split; [reflexivity|]. split.
  - destruct (environ W (lit "SVM_USE_TRUSTSTORE")) as [v|] eqn:Eu; cbn [orb].
    + destruct (_truthy R (Some v)) eqn:Et; [|discriminate].
      intro H. split; [exact H | now right].
    + intro H. split; [exact H | now left].
  - repeat split.
Qed.

End Tls.

(** ** More on the diagnostics of the encoder ([safe_decode]) *)

Module Diagnostics.

Import Encoder.

(** The UTF-8 form of one code point. *)
Definition utf8_encode_char (c : N) : bytes :=
  (if c <? 128 then [c]
   else if c <? 2048 then [192 + c / 64; 128 + c mod 64]
   else if c <? 65536
        then [224 + c / 64 / 64; 128 + (c / 64) mod 64; 128 + c mod 64]
        else [240 + c / 64 / 64 / 64; 128 + (c / 64 / 64) mod 64;
              128 + (c / 64) mod 64; 128 + c mod 64])%N.

(** [s.encode("utf-8")]. *)
Definition utf8_encode (s : pystr) : bytes := flat_map utf8_encode_char s.

(** A code point a text can hold in UTF-8: up to U+10FFFF and no
    surrogate. *)
Definition is_scalar (c : N) : bool :=
  ((c <? 55296) || (57343 <? c) && (c <=? 1114111))%N.

Ltac split_digit c :=
  let q := fresh "q" in
  let r := fresh "r" in
  let Hd := fresh "Hd" in
  let Hr := fresh "Hr" in
  pose proof (N.div_mod' c 64) as Hd;
  pose proof (N.mod_lt c 64 ltac:(discriminate)) as Hr;
  set (q := (c / 64)%N) in *; set (r := (c mod 64)%N) in *;
  clearbody r.

Ltac decide_test :=
  match goal with
  | |- context [(?a <? ?b)%N] =>
      first [ replace (a <? b)%N with true by (symmetry; apply N.ltb_lt; lia)
            | replace (a <? b)%N with false by (symmetry; apply N.ltb_ge; lia) ]
  | |- context [(?a <=? ?b)%N] =>
      first [ replace (a <=? b)%N with true by (symmetry; apply N.leb_le; lia)
            | replace (a <=? b)%N with false by (symmetry; apply N.leb_gt; lia) ]
  end.

Lemma decode_encoded_char (c : N) (rest : bytes) :
  is_scalar c = true ->
  utf8_decode (utf8_encode_char c ++ rest) = option_map (cons c) (utf8_decode rest).
Proof.
  unfold is_scalar, utf8_encode_char. intro Hs.
  assert (Hc : (c < 55296 \/ 57343 < c <= 1114111)%N).
  { apply orb_true_iff in Hs. destruct Hs as [H | H].
    - left. now apply N.ltb_lt.
    - right. apply andb_true_iff in H. destruct H as [H1 H2].
      apply N.ltb_lt in H1. apply N.leb_le in H2. lia. }
  clear Hs.
  destruct (c <? 128)%N eqn:E1.
  { cbn [app utf8_decode]. now rewrite E1. }
  apply N.ltb_ge in E1.
  destruct (c <? 2048)%N eqn:E2.
  { apply N.ltb_lt in E2. split_digit c.
    assert (Hq : (2 <= q < 32)%N) by lia.
    cbn [app utf8_decode]. unfold is_cont.
    repeat decide_test. cbn [andb].
    replace ((192 + q - 192) * 64 + (128 + r - 128))%N with c by lia.
    reflexivity. }
  apply N.ltb_ge in E2.
  destruct (c <? 65536)%N eqn:E3.
  { apply N.ltb_lt in E3. split_digit c. split_digit q.
    assert (Hq0 : (q0 < 16)%N) by lia.
    cbn [app utf8_decode]. unfold is_cont.
    repeat decide_test. cbn [andb].
    assert (Hlow : (negb (224 + q0 =? 224) || (160 <=? 128 + r0))%N = true).
    { destruct (224 + q0 =? 224)%N eqn:E; [|reflexivity].
      apply N.eqb_eq in E. cbn [negb orb]. apply N.leb_le. lia. }
    assert (Hsur : (negb (224 + q0 =? 237) || (128 + r0 <=? 159))%N = true).
    { destruct (224 + q0 =? 237)%N eqn:E; [|reflexivity].
      apply N.eqb_eq in E. cbn [negb orb]. apply N.leb_le. lia. }
    rewrite Hlow, Hsur. cbn [andb].
    replace ((224 + q0 - 224) * 4096 + (128 + r0 - 128) * 64 + (128 + r - 128))%N
      with c by lia.
    reflexivity. }
  apply N.ltb_ge in E3.
  split_digit c. split_digit q. split_digit q0.
  assert (Hq1 : (q1 <= 4)%N) by lia.
  cbn [app utf8_decode]. unfold is_cont.
  repeat decide_test. cbn [andb].
  assert (Hlow : (negb (240 + q1 =? 240) || (144 <=? 128 + r1))%N = true).
  { destruct (240 + q1 =? 240)%N eqn:E; [|reflexivity].
    apply N.eqb_eq in E. cbn [negb orb]. apply N.leb_le. lia. }
  assert (Hhigh : (negb (240 + q1 =? 244) || (128 + r1 <=? 143))%N = true).
  { destruct (240 + q1 =? 244)%N eqn:E; [|reflexivity].
    apply N.eqb_eq in E. cbn [negb orb]. apply N.leb_le. lia. }
  rewrite Hlow, Hhigh. cbn [andb].
  replace ((240 + q1 - 240) * 262144 + (128 + r1 - 128) * 4096
           + (128 + r0 - 128) * 64 + (128 + r - 128))%N with c by lia.
  reflexivity.
Qed.

Lemma decode_encoded (s : pystr) :
  forallb is_scalar s = true -> utf8_decode (utf8_encode s) = Some s.
Proof.
  induction s as [|c s IH]; [reflexivity|].
  cbn [forallb]. intro H. apply andb_true_iff in H. destruct H as [Hc Hs].
  unfold utf8_encode. cbn [flat_map]. rewrite decode_encoded_char by exact Hc.
  fold (utf8_encode s). now rewrite IH.
Qed.

(** X27.  A diagnostic stream that is the UTF-8 form of a text is
    decoded to that very text, on every machine: the first codec of
    the chain answers, and neither the CP932 codec nor the replacing
    decoder is consulted.  The message of a failed run then carries the
    text, trimmed. *)
Theorem safe_decode_utf8_text (R : Runtime) (fmt : Format) (code : Z) (s : pystr) :
  forallb is_scalar s = true ->
  safe_decode R (utf8_encode s) = s /\
  (code <> 0 ->
   check_exit R fmt (mkProc code (Some (utf8_encode s)))
   = Raise (RuntimeError (failure_message code (strip s)))).
Proof.
  intro Hs. assert (E : safe_decode R (utf8_encode s) = s).
  { unfold safe_decode. now rewrite decode_encoded. }
  split; [exact E|]. intros Hcode.
  unfold check_exit. cbn [returncode stderr_bytes stderr].
  replace (code =? 0) with false by (symmetry; now apply Z.eqb_neq).
  cbn [negb]. rewrite E. destruct fmt; [|reflexivity].
  unfold str_or. destruct s as [|c s']; reflexivity.
Qed.

Lemma safe_decode_utf8_text_example :
  let s := [12501; 12449; 12452; 12523; 32; 128512; 233]%N in
  forallb is_scalar s = true /\
  utf8_encode s
  = [227; 131; 149; 227; 130; 161; 227; 130; 164; 227; 131; 171; 32;
     240; 159; 152; 128; 195; 169]%N /\
  safe_decode example_runtime (utf8_encode s) = s.
Proof.
  split; [reflexivity|]. split; [vm_compute; reflexivity|].
  exact (proj1 (safe_decode_utf8_text example_runtime Webm 1
                  [12501; 12449; 12452; 12523; 32; 128512; 233]%N eq_refl)).
Defined.

End Diagnostics.

(** ** The scripts of the slides ([_read_script_csv], the override of
    [combine_audio_video]) and the slides taken by name *)

Module Scripts.

Import Resolver Combine Run.

(** A row of the reader: the cells under [index] and [script], [None]
    for a cell the row does not have. *)
Definition Row := (option pystr * option pystr)%type.

(** [out[idx] = script] on a dict kept in insertion order. *)
Fixpoint dict_set (idx : Z) (script : pystr) (out : list (Z * pystr))
  : list (Z * pystr) :=
  match out with
  | [] => [(idx, script)]
  | (k, v) :: rest =>
      if k =? idx then (k, script) :: rest else (k, v) :: dict_set idx script rest
  end.

(** [int(str(raw_idx).strip())]; [None] when it raises: [str(None)] is
    no numeral. *)
Definition row_index (R : Runtime) (row : Row) : option Z :=
  match fst row with
  | Some raw_idx => py_int R (strip raw_idx)
  | None => None
  end.

(** The empty string for a missing cell, else the cell. *)
Definition row_script (row : Row) : pystr :=
  match snd row with
  | Some script => script
  | None => []
  end.

(** The loop [for row in reader] of [_read_script_csv]. *)
Definition read_rows (R : Runtime) (rows : list Row) : list (Z * pystr) :=
  fold_left
    (fun out row =>
       match row_index R row with
       | None => out
       | Some idx => dict_set idx (row_script row) out
       end)
    rows [].

(** [script_data.get(slide_index, '')]. *)
Definition script_get (script_data : list (Z * pystr)) (slide_index : Z) : pystr :=
  match find (fun kv => fst kv =? slide_index) script_data with
  | Some kv => snd kv
  | None => []
  end.

Lemma script_get_set (idx : Z) (script : pystr) (out : list (Z * pystr)) (i : Z) :
  script_get (dict_set idx script out) i
  = if idx =? i then script else script_get out i.
Proof.
  unfold script_get. induction out as [|[k v] rest IH]; cbn [dict_set find fst snd].
  - destruct (idx =? i); reflexivity.
  - destruct (k =? idx) eqn:Ek; cbn [find fst snd].
    + apply Z.eqb_eq in Ek. subst k. destruct (idx =? i); reflexivity.
    + destruct (k =? i) eqn:Eki; [|exact IH].
      destruct (idx =? i) eqn:Eii; [|reflexivity].
      apply Z.eqb_eq in Eki, Eii. apply Z.eqb_neq in Ek. congruence.
Qed.

Lemma dict_set_keys (idx : Z) (script : pystr) (out : list (Z * pystr)) :
  NoDup (map fst out) -> NoDup (map fst (dict_set idx script out)).
Proof.
  induction out as [|[k v] rest IH]; cbn [dict_set map fst]; intro H.
  - repeat constructor. intros [].
  - inversion H as [|? ? Hnotin Hnd]; subst. destruct (k =? idx) eqn:Ek.
    + cbn [map fst]. now constructor.
    + cbn [map fst]. constructor; [|now apply IH].
      intro Hin. apply Hnotin. apply Z.eqb_neq in Ek.
      clear -Hin Ek. induction rest as [|[k' v'] rest IH]; cbn [dict_set map fst In] in *.
      * destruct Hin as [E | []]. congruence.
      * destruct (k' =? idx); cbn [map fst In] in Hin; tauto.
Qed.

(** X28.  The script of a slide is that of the last row filed under its
    index: rows whose index cell is missing or is no integer are passed
    over, a later row replaces an earlier row of the same index, a row
    without a script cell files the empty string, and an index no row
    names reads as the empty string.  No index is held twice. *)
Theorem last_row_wins (R : Runtime) (rows : list Row) (slide_index : Z) :
  script_get (read_rows R rows) slide_index
  = match find (fun row => match row_index R row with
                           | Some idx => idx =? slide_index
                           | None => false
                           end) (rev rows) with
    | Some row => row_script row
    | None => []
    end
  /\ NoDup (map fst (read_rows R rows)).
Proof.
  unfold read_rows.
  induction rows as [|row rows IH] using rev_ind; [split; [reflexivity | constructor]|].
  destruct IH as [IH Hnd].
  rewrite fold_left_app, rev_app_distr. cbn [fold_left rev app find].
  destruct (row_index R row) as [idx|]; [|split; assumption]. split.
  - rewrite script_get_set. destruct (idx =? slide_index); [reflexivity | exact IH].
  - now apply dict_set_keys.
Qed.

(** *** Slides taken by name *)

Definition name_le (a b : pystr) : Prop := pystr_leb a b = true.

Lemma pystr_leb_total (a b : pystr) : pystr_leb a b = false -> pystr_leb b a = true.
Proof.
  revert b. induction a as [|x a IH]; intros [|y b]; cbn [pystr_leb]; try congruence.
  intro H. apply orb_false_iff in H. destruct H as [Hlt H].
  apply N.ltb_ge in Hlt.
  destruct (y <? x)%N eqn:Eyx; [reflexivity|]. apply N.ltb_ge in Eyx. cbn [orb].
  assert (x = y) by lia. subst y. rewrite N.eqb_refl in *. cbn [andb] in *.
  now apply IH.
Qed.

Lemma insert_name_perm (f : pystr) (l : list pystr) : Permutation (insert_name f l) (f :: l).
Proof.
  induction l as [|g l IH]; cbn [insert_name]; [reflexivity|].
  destruct (pystr_leb g f); [|reflexivity].
  rewrite IH. apply perm_swap.
Qed.

Lemma insert_name_sorted (f : pystr) (l : list pystr) :
  Sorted name_le l -> Sorted name_le (insert_name f l).
Proof.
  induction 1 as [|g l Hs IH Hd]; cbn [insert_name]; [repeat constructor|].
  destruct (pystr_leb g f) eqn:E.
  - constructor; [exact IH|].
    destruct l as [|g' l']; cbn [insert_name]; [constructor; exact E|].
    destruct (pystr_leb g' f); constructor; [now inversion Hd | exact E].
  - constructor; [now constructor|]. constructor. now apply pystr_leb_total.
Qed.

Lemma sorted_names_spec (names : list pystr) :
  Permutation (sorted_names names) names /\ Sorted name_le (sorted_names names).
Proof.
  unfold sorted_names.
  assert (H : forall l acc, Sorted name_le acc ->
              Permutation (fold_left (fun acc f => insert_name f acc) l acc) (acc ++ l)
              /\ Sorted name_le (fold_left (fun acc f => insert_name f acc) l acc)).
  { induction l as [|f l IH]; intros acc Hs; cbn [fold_left].
    - rewrite app_nil_r. split; [reflexivity | exact Hs].
    - destruct (IH (insert_name f acc) (insert_name_sorted f acc Hs)) as [Hp Hs'].
      split; [|exact Hs']. rewrite Hp, insert_name_perm.
      now apply Permutation_middle. }
  apply (H names []). constructor.
Qed.

(** X29.  When no PNG of the working directory carries a slide index
    and slide resolution returns, there is one slide for every PNG
    entry of the directory, and the slides follow the order of the file
    names (by code points). *)
Theorem legacy_slides_by_name (R : Runtime) (output_dir output_name : pystr)
  (slides_count : option Z) (temp_subdir : option pystr) (script_data : Z -> pystr)
  (st : State) (found_dir : pystr) (slides : list _SlideItem) :
  let png_files := png_entries R (world st) found_dir in
  snd (resolve_slides R output_dir output_name slides_count temp_subdir script_data st)
  = Ok (found_dir, slides) ->
  group_by_index R found_dir slides_count png_files = [] ->
  exists files,
    Permutation files png_files /\ Sorted name_le files /\
    map image_path slides = map (path_join R found_dir) files /\
    length slides = length png_files.
Proof.
  intros png_files E Hidx.
  pose proof (resolve_slides_spec R output_dir output_name slides_count temp_subdir
                script_data st) as H.
  cbv zeta in H. destruct H as [_ H]. rewrite E in H.
  destruct H as [Ed [_ [_ [_ Hm]]]]. rewrite <- Ed in Hm. fold png_files in Hm.
  rewrite Hidx in Hm.
  destruct (sorted_names_spec png_files) as [Hp Hs].
  exists (sorted_names png_files). split; [exact Hp|]. split; [exact Hs|].
  split; [exact Hm|].
  rewrite <- (Permutation_length Hp), <- (length_map (path_join R found_dir)), <- Hm.
  symmetry. apply length_map.
Qed.

Lemma legacy_slides_by_name_example :
  let W := with_dir Scenario.idle Scenario.temp [lit "b.png"; lit "a.png"; lit "a.txt"] in
  exists slides,
    snd (resolve_slides example_runtime (lit "/out") (lit "output") None None
                        (fun _ => []) (mkState W []))
    = Ok (Scenario.temp, slides) /\
    map image_path slides = [lit "/out/temp/a.png"; lit "/out/temp/b.png"] /\
    exists files,
      Permutation files (png_entries example_runtime W Scenario.temp) /\
      Sorted name_le files /\
      map image_path slides = map (path_join example_runtime Scenario.temp) files /\
      length slides = length (png_entries example_runtime W Scenario.temp).
Proof.
  eexists. split; [vm_compute; reflexivity|]. split; [reflexivity|].
  apply (legacy_slides_by_name example_runtime (lit "/out") (lit "output") None None
           (fun _ => [])
           (mkState (with_dir Scenario.idle Scenario.temp
                       [lit "b.png"; lit "a.png"; lit "a.txt"]) [])
           Scenario.temp).
  - vm_compute. reflexivity.
  - vm_compute. reflexivity.
Defined.

End Scripts.
